(** * QCoro::Task<T>: a shallow embedding of [qcoro/task.h]

    The header defines a single-owner, eagerly started coroutine task:
    - [TaskPromiseBase] with the continuation link [mAwaitingCoroutine] and
      the atomic rendezvous flag [mResumeAwaiter];
    - [TaskPromise<T>] and [TaskPromise<void>], the result cells;
    - [TaskFinalSuspend], the awaiter run when a coroutine reaches its end;
    - [TaskAwaiterBase] / [TaskAwaiter], the consumer side of [co_await];
    - [Task<T>], the move-only owner of the coroutine frame.

    Coroutine frames live in a heap indexed by frame addresses, [Task]
    objects live in a store indexed by object locations (so that two
    references may alias), and every access to the shared promise fields,
    every [resume()] and every [destroy()] is recorded in a trace. *)

From stdpp Require Import gmap list relations.

Set Default Proof Using "Type".

(** ** Handles, outcomes *)

(** Address of a coroutine frame, location of a [Task] object. *)
Abbreviation addr := nat.
Abbreviation loc := nat.

(** [std::coroutine_handle<>]: either [nullptr] or the address of a frame. *)
Abbreviation coroutine_handle := (option addr).

(** [explicit operator bool] of a coroutine handle. *)
Definition handle_bool (h : coroutine_handle) : bool :=
  match h with Some _ => true | None => false end.

(** How a call ends: normally, by a C++ exception, by a failed [Q_ASSERT],
    or with undefined behaviour (null or dangling handle, resuming a
    finished coroutine, rethrowing a null [exception_ptr]). *)
Inductive outcome (E A : Type) : Type :=
  | Normal (a : A)
  | Thrown (e : E)
  | AssertFailed
  | Undefined.
Arguments Normal {E A} a.
Arguments Thrown {E A} e.
Arguments AssertFailed {E A}.
Arguments Undefined {E A}.

Definition is_normal {E A} (o : outcome E A) : bool :=
  match o with Normal _ => true | _ => false end.

(** The abnormal part of an outcome, whatever the type of its value. *)
Definition failure_of {E A} (o : outcome E A) : option (outcome E Empty_set) :=
  match o with
  | Normal _ => None
  | Thrown e => Some (Thrown e)
  | AssertFailed => Some AssertFailed
  | Undefined => Some Undefined
  end.

(** [std::exception_ptr] is nullable. *)
Definition exception_ptr (E : Type) := option E.

(** [std::rethrow_exception]: the pointer must not be null. *)
Definition rethrow_exception {E A} (p : exception_ptr E) : outcome E A :=
  match p with Some e => Thrown e | None => Undefined end.

(** ** TaskPromiseBase *)

Record TaskPromiseBase := MkBase {
  mAwaitingCoroutine : coroutine_handle;
  mResumeAwaiter : bool
}.

(** Default member initialisers: a null handle and [mResumeAwaiter{false}]. *)
Definition base_init : TaskPromiseBase :=
  {| mAwaitingCoroutine := None; mResumeAwaiter := false |}.

Definition set_mAwaitingCoroutine (h : coroutine_handle) (b : TaskPromiseBase) :=
  {| mAwaitingCoroutine := h; mResumeAwaiter := mResumeAwaiter b |}.

Definition set_mResumeAwaiter (v : bool) (b : TaskPromiseBase) :=
  {| mAwaitingCoroutine := mAwaitingCoroutine b; mResumeAwaiter := v |}.

(** [std::suspend_never], returned by [initial_suspend]. *)
Record suspend_never := MkSuspendNever {}.
Definition suspend_never_await_ready (_ : suspend_never) : bool := true.

(** [TaskPromiseBase::initial_suspend]. *)
Definition initial_suspend (_ : TaskPromiseBase) : suspend_never := MkSuspendNever.

(** [TaskFinalSuspend] keeps a copy of the link taken when it is built. *)
Record TaskFinalSuspend := MkFinalSuspend {
  fs_mAwaitingCoroutine : coroutine_handle
}.

(** [TaskFinalSuspend::await_ready]. *)
Definition TaskFinalSuspend_await_ready (_ : TaskFinalSuspend) : bool := false.

(** ** The result cells *)

(** [std::variant<std::monostate, T, std::exception_ptr>]. *)
Inductive variant (E T : Type) : Type :=
  | monostate
  | holds_T (v : T)
  | holds_exception (p : exception_ptr E).
Arguments monostate {E T}.
Arguments holds_T {E T} v.
Arguments holds_exception {E T} p.

(** [std::holds_alternative<T>] and [std::holds_alternative<std::exception_ptr>]. *)
Definition holds_alternative_T {E T} (m : variant E T) : bool :=
  match m with holds_T _ => true | _ => false end.
Definition holds_alternative_exception {E T} (m : variant E T) : bool :=
  match m with holds_exception _ => true | _ => false end.

(** [TaskPromise<T>]. *)
Record TaskPromise (E T : Type) := MkPromise {
  tp_base : TaskPromiseBase;
  mValue : variant E T
}.
Arguments MkPromise {E T}.
Arguments tp_base {E T}.
Arguments mValue {E T}.

(** [TaskPromise<void>]. *)
Record TaskPromiseVoid (E : Type) := MkPromiseVoid {
  vp_base : TaskPromiseBase;
  mException : exception_ptr E
}.
Arguments MkPromiseVoid {E}.
Arguments vp_base {E}.
Arguments mException {E}.

Section ResultCell.
Context {E : Type}.
(** The payload of [std::bad_variant_access], thrown by [std::get]. *)
Variable bad_variant_access : E.

Section Typed.
Context {T : Type}.

(** [TaskPromise<T>::unhandled_exception]: [mValue = std::current_exception()].
    The argument is what [std::current_exception()] returns. *)
Definition unhandled_exception (current_exception : exception_ptr E)
    (p : TaskPromise E T) : TaskPromise E T :=
  {| tp_base := tp_base p; mValue := holds_exception current_exception |}.

(** [TaskPromise<T>::return_value]. *)
Definition return_value (value : T) (p : TaskPromise E T) : TaskPromise E T :=
  {| tp_base := tp_base p; mValue := holds_T value |}.

(** [std::get<T>(mValue)]. *)
Definition std_get_T (m : variant E T) : outcome E T :=
  match m with
  | holds_T v => Normal v
  | _ => Thrown bad_variant_access
  end.

(** [std::get<std::exception_ptr>(mValue)]. *)
Definition std_get_exception (m : variant E T) : outcome E (exception_ptr E) :=
  match m with
  | holds_exception p => Normal p
  | _ => Thrown bad_variant_access
  end.

(** [TaskPromise<T>::result], both the [&] and the [&&] overload: they
    differ only in returning [T&] or [T&&]. *)
Definition result (p : TaskPromise E T) : outcome E T :=
  if holds_alternative_exception (mValue p) then
    match std_get_exception (mValue p) with
    | Normal ptr => rethrow_exception ptr
    | Thrown e => Thrown e
    | AssertFailed => AssertFailed
    | Undefined => Undefined
    end
  else std_get_T (mValue p).
End Typed.

(** [TaskPromise<void>::unhandled_exception]. *)
Definition void_unhandled_exception (current_exception : exception_ptr E)
    (p : TaskPromiseVoid E) : TaskPromiseVoid E :=
  {| vp_base := vp_base p; mException := current_exception |}.

(** [TaskPromise<void>::return_void]. *)
Definition return_void (p : TaskPromiseVoid E) : TaskPromiseVoid E := p.

(** [TaskPromise<void>::result]: [if (mException) rethrow]. *)
Definition void_result (p : TaskPromiseVoid E) : outcome E unit :=
  match mException p with
  | Some e => rethrow_exception (Some e)
  | None => Normal tt
  end.
End ResultCell.

(** How the body of a coroutine ends: [co_return v] (or flowing off the end
    of a [void] coroutine) or an exception escaping the body. *)
Inductive completion (E T : Type) : Type :=
  | CoReturn (v : T)
  | Escapes (e : E).
Arguments CoReturn {E T} v.
Arguments Escapes {E T} e.

(** The compiler-generated tail of a coroutine body,
    [try { body } catch (...) { promise.unhandled_exception(); }]:
    inside the handler [std::current_exception()] is the exception in flight. *)
Definition complete {E T} (c : completion E T) (p : TaskPromise E T) : TaskPromise E T :=
  match c with
  | CoReturn v => return_value v p
  | Escapes e => unhandled_exception (Some e) p
  end.

Definition void_complete {E} (c : completion E unit) (p : TaskPromiseVoid E) : TaskPromiseVoid E :=
  match c with
  | CoReturn _ => return_void p
  | Escapes e => void_unhandled_exception (Some e) p
  end.

(** A write into the result cell, as the body may issue them. *)
Inductive cell_write (E T : Type) : Type :=
  | WriteValue (v : T)
  | WriteFailure (p : exception_ptr E).
Arguments WriteValue {E T} v.
Arguments WriteFailure {E T} p.

Definition apply_write {E T} (p : TaskPromise E T) (w : cell_write E T) : TaskPromise E T :=
  match w with
  | WriteValue v => return_value v p
  | WriteFailure e => unhandled_exception e p
  end.

(** ** The promise interface seen by the templates

    [TaskFinalSuspend::await_suspend] and [TaskAwaiterBase] are templates
    over [_Promise]; they use the [TaskPromiseBase] subobject and
    [result()]. *)
Class PromiseType (E P : Type) := {
  value_type : Type;
  promise_base : P → TaskPromiseBase;
  promise_with_base : TaskPromiseBase → P → P;
  promise_init : P;
  promise_result : P → outcome E value_type;
  (** the promise once the value [result()] refers to has been moved from *)
  promise_moved_out : P → P;
  promise_base_with_base b p : promise_base (promise_with_base b p) = b;
  promise_result_with_base b p :
    promise_result (promise_with_base b p) = promise_result p;
  promise_base_init : promise_base promise_init = base_init;
  promise_base_moved_out p : promise_base (promise_moved_out p) = promise_base p
}.

(** The state a [T] is left in when another [T] is move-constructed from it:
    the same value for [int], the empty vector for [std::vector]. *)
Class MovedFrom (T : Type) := moved_from : T → T.

(** Numbers are copied by a move. *)
#[export] Instance nat_moved_from : MovedFrom nat := λ n, n.

(** [mValue] after [std::move(std::get<T>(mValue))] has been used to build
    another [T]. *)
Definition move_out_of_cell {E T} `{!MovedFrom T} (m : variant E T) : variant E T :=
  match m with
  | holds_T v => holds_T (moved_from v)
  | _ => m
  end.

#[export] Program Instance TaskPromise_PromiseType {E} (bad_variant_access : E) (T : Type)
    `{!MovedFrom T} : PromiseType E (TaskPromise E T) := {|
  value_type := T;
  promise_base := tp_base;
  promise_with_base b p := {| tp_base := b; mValue := mValue p |};
  promise_init := {| tp_base := base_init; mValue := monostate |};
  promise_result := result bad_variant_access;
  promise_moved_out p := {| tp_base := tp_base p; mValue := move_out_of_cell (mValue p) |}
|}.
Solve All Obligations with done.

(** [TaskPromise<void>] holds no value: its [result()] returns [void], and
    there is nothing a read could move out. *)
#[export] Program Instance TaskPromiseVoid_PromiseType {E} :
    PromiseType E (TaskPromiseVoid E) := {|
  value_type := unit;
  promise_base := vp_base;
  promise_with_base b p := {| vp_base := b; mException := mException p |};
  promise_init := {| vp_base := base_init; mException := None |};
  promise_result := void_result;
  promise_moved_out p := p
|}.
Solve All Obligations with done.

(** ** Frames, objects and the trace *)

(** A coroutine frame: its promise, and whether the coroutine is suspended
    at its final suspend point ([coroutine_handle::done()]). *)
Record Frame (P : Type) := MkFrame {
  promise : P;
  done : bool
}.
Arguments MkFrame {P}.
Arguments promise {P}.
Arguments done {P}.

(** What the code does to shared state and to other coroutines. *)
Inductive event : Type :=
  | EvStoreLink (c : addr) (h : coroutine_handle)
      (** [mAwaitingCoroutine = h] on the promise of frame [c] *)
  | EvExchange (c : addr) (old : bool)
      (** [mResumeAwaiter.exchange(true)] on frame [c] observed [old] *)
  | EvResume (c : addr)
      (** [coroutine_handle::resume()] on frame [c] *)
  | EvDestroy (c : addr)
      (** [coroutine_handle::destroy()] on frame [c] *)
  | EvUserCode (c : addr)
      (** the body of the new coroutine [c] starts executing *)
  | EvReturnToCaller (c : addr)
      (** the call of coroutine [c] hands its [Task] to the caller *).

#[export] Instance event_eq_dec : EqDecision event.
Proof. solve_decision. Defined.

Definition is_handshake (ev : event) : bool :=
  match ev with EvStoreLink _ _ | EvExchange _ _ => true | _ => false end.

Definition is_exchange (ev : event) : bool :=
  match ev with EvExchange _ _ => true | _ => false end.

Definition is_destroy_of (c : addr) (ev : event) : bool :=
  match ev with EvDestroy c' => bool_decide (c' = c) | _ => false end.

Definition is_resume_of (c : addr) (ev : event) : bool :=
  match ev with EvResume c' => bool_decide (c' = c) | _ => false end.

Definition is_resume (ev : event) : bool :=
  match ev with EvResume _ => true | _ => false end.

Definition count_events (f : event → bool) (tr : list event) : nat :=
  length (filter (λ ev, f ev = true) tr).

Record World (P : Type) := MkWorld {
  frames : gmap addr (Frame P);
  objects : gmap loc coroutine_handle;  (** [Task::mCoroutine] of each live [Task] *)
  next_frame : addr;                   (** frame addresses are never reused *)
  trace : list event
}.
Arguments MkWorld {P}.
Arguments frames {P}.
Arguments objects {P}.
Arguments next_frame {P}.
Arguments trace {P}.

Definition empty_world {P} : World P :=
  {| frames := ∅; objects := ∅; next_frame := 0; trace := [] |}.

Definition with_frames {P} (f : gmap addr (Frame P)) (w : World P) : World P :=
  {| frames := f; objects := objects w; next_frame := next_frame w; trace := trace w |}.

Definition with_objects {P} (o : gmap loc coroutine_handle) (w : World P) : World P :=
  {| frames := frames w; objects := o; next_frame := next_frame w; trace := trace w |}.

Definition with_trace {P} (t : list event) (w : World P) : World P :=
  {| frames := frames w; objects := objects w; next_frame := next_frame w; trace := t |}.

(** Frame [c] is replaced by [f]; event [ev] is appended to the trace. *)
Definition put_frame {P} (c : addr) (f : Frame P) (w : World P) : World P :=
  with_frames (<[c := f]> (frames w)) w.

Definition log {P} (ev : event) (w : World P) : World P :=
  with_trace (trace w ++ [ev]) w.

(** What [!mCoroutine || mCoroutine.done()] stands for. *)
Definition absent_or_finished {P} (mine : coroutine_handle) (w : World P) : Prop :=
  mine = None ∨ ∃ c f, mine = Some c ∧ frames w !! c = Some f ∧ done f = true.

(** The world once the frame behind [mine], if any, has been destroyed. *)
Definition released {P} (mine : coroutine_handle) (w : World P) : World P :=
  match mine with
  | Some d => log (EvDestroy d) (with_frames (delete d (frames w)) w)
  | None => w
  end.

(** [mine] is null or points to a frame that exists. *)
Definition handle_live {P} (mine : coroutine_handle) (w : World P) : Prop :=
  match mine with Some d => is_Some (frames w !! d) | None => True end.

(** The world after [await_resume] has read the result of frame [c]: as it
    was for the awaiter of [operator co_await() const &] ([rv = false]),
    with the value moved out of the cell for the awaiter of the [const &&]
    overload. *)
Definition after_read {E P} `{PT : !PromiseType E P} (rv : bool) (c : addr) (w : World P) :
    World P :=
  if rv then
    match frames w !! c with
    | Some f => put_frame c (MkFrame (promise_moved_out (promise f)) (done f)) w
    | None => w
    end
  else w.

(** *** Ownership *)

(** [this] owns [c]: the [Task] at [this] holds the handle of frame [c]. *)
Definition owns {P} (w : World P) (this : loc) (c : addr) : Prop :=
  objects w !! this = Some (Some c).

(** No frame has two owners. *)
Definition single_owner {P} (w : World P) : Prop :=
  ∀ l1 l2 c, owns w l1 c → owns w l2 c → l1 = l2.

(** An owned frame has not been destroyed. *)
Definition owned_live {P} (w : World P) : Prop :=
  ∀ l c, owns w l c → is_Some (frames w !! c).

(** Frame addresses are handed out in increasing order. *)
Definition frames_allocated {P} (w : World P) : Prop :=
  ∀ c, is_Some (frames w !! c) → c < next_frame w.

(** A destroyed frame is gone for good, and no frame is destroyed twice. *)
Definition destroyed_gone {P} (w : World P) : Prop :=
  ∀ c, EvDestroy c ∈ trace w → frames w !! c = None ∧ c < next_frame w.

Definition destroyed_once {P} (w : World P) : Prop :=
  ∀ c, count_events (is_destroy_of c) (trace w) ≤ 1.

Record ownership_invariant {P} (w : World P) : Prop := MkOwnership {
  inv_single_owner : single_owner w;
  inv_owned_live : owned_live w;
  inv_frames_allocated : frames_allocated w;
  inv_destroyed_gone : destroyed_gone w;
  inv_destroyed_once : destroyed_once w
}.

(** ** The monad of calls: state, trace and abnormal outcomes *)

Definition M (E P A : Type) : Type := World P → outcome E (A * World P).

Definition ret {E P A} (a : A) : M E P A := λ w, Normal (a, w).

Definition bind {E P A B} (m : M E P A) (k : A → M E P B) : M E P B :=
  λ w, match m w with
       | Normal (a, w') => k a w'
       | Thrown e => Thrown e
       | AssertFailed => AssertFailed
       | Undefined => Undefined
       end.

Notation "'call' x <- m 'in' k" := (bind m (λ x, k))
  (at level 10, x name, m at level 100, k at level 200).
Notation "'exec' m 'in' k" := (bind m (λ _, k))
  (at level 10, m at level 100, k at level 200).

Definition lift_outcome {E P A} (o : outcome E A) : M E P A :=
  λ w, match o with
       | Normal a => Normal (a, w)
       | Thrown e => Thrown e
       | AssertFailed => AssertFailed
       | Undefined => Undefined
       end.

Definition undefined {E P A} : M E P A := λ _, Undefined.

Definition emit {E P} (ev : event) : M E P unit :=
  λ w, Normal (tt, with_trace (trace w ++ [ev]) w).

(** The world reached by a call that ends normally. *)
Definition world_after {E P A} (o : outcome E (A * World P)) : option (World P) :=
  match o with Normal (_, w) => Some w | _ => None end.

Definition value_of {E P A} (o : outcome E (A * World P)) : option A :=
  match o with Normal (a, _) => Some a | _ => None end.

(** The events a call appended to the trace. *)
Definition new_events {P} (w w' : World P) : list event :=
  drop (length (trace w)) (trace w').

(** [TaskAwaiterBase<promise_type>] / [TaskAwaiter]: the handle of the
    awaited coroutine; [by_rvalue] tells the [const &&] overload of
    [operator co_await] from the [const &] one. *)
Record TaskAwaiter := MkAwaiter {
  mAwaitedCoroutine : coroutine_handle;
  by_rvalue : bool
}.

Section Operations.
Context {E P : Type} `{PT : !PromiseType E P}.

(** The capability the core needs from its surroundings: transfer control
    to coroutine [c], which runs until its next suspension point and may
    change frames and objects at will. The trace is kept by the
    operations below, not by [run_coroutine]. *)
Variable run_coroutine : addr → World P → World P.

(** Whether [Q_ASSERT] is compiled out. *)
Variable QT_NO_DEBUG : bool.

Local Abbreviation M := (M E P).

(** *** Coroutine handles *)

(** [coroutine_handle<P>::promise()]. *)
Definition handle_promise (h : coroutine_handle) : M P :=
  λ w, match h with
       | None => Undefined
       | Some c =>
           match frames w !! c with
           | Some f => Normal (promise f, w)
           | None => Undefined
           end
       end.

(** [coroutine_handle::done()]. *)
Definition handle_done (h : coroutine_handle) : M bool :=
  λ w, match h with
       | None => Undefined
       | Some c =>
           match frames w !! c with
           | Some f => Normal (done f, w)
           | None => Undefined
           end
       end.

Definition finished (c : addr) (w : World P) : bool :=
  match frames w !! c with Some f => done f | None => false end.

(** [coroutine_handle::resume()]. The handle is type-erased: an address
    outside [frames] is a coroutine of some other kind. *)
Definition handle_resume (h : coroutine_handle) : M unit :=
  λ w, match h with
       | None => Undefined
       | Some c =>
           if finished c w then Undefined
           else Normal (tt, with_trace (trace w ++ [EvResume c]) (run_coroutine c w))
       end.

(** [coroutine_handle::destroy()]. *)
Definition handle_destroy (h : coroutine_handle) : M unit :=
  λ w, match h with
       | None => Undefined
       | Some c =>
           match frames w !! c with
           | Some _ =>
               Normal (tt, with_trace (trace w ++ [EvDestroy c])
                             (with_frames (delete c (frames w)) w))
           | None => Undefined
           end
       end.

(** *** The shared fields of a promise *)

Definition load_base (c : addr) : M TaskPromiseBase :=
  λ w, match frames w !! c with
       | Some f => Normal (promise_base (promise f), w)
       | None => Undefined
       end.

Definition store_base (c : addr) (b : TaskPromiseBase) : M unit :=
  λ w, match frames w !! c with
       | Some f =>
           Normal (tt, with_frames
                         (<[c := MkFrame (promise_with_base b (promise f)) (done f)]>
                            (frames w)) w)
       | None => Undefined
       end.

(** [mAwaitingCoroutine = h]. *)
Definition store_mAwaitingCoroutine (this : addr) (h : coroutine_handle) : M unit :=
  call b <- load_base this in
  exec store_base this (set_mAwaitingCoroutine h b) in
  emit (EvStoreLink this h).

(** [mResumeAwaiter.exchange(desired, std::memory_order_acq_rel)]. *)
Definition mResumeAwaiter_exchange (this : addr) (desired : bool) : M bool :=
  call b <- load_base this in
  exec store_base this (set_mResumeAwaiter desired b) in
  exec emit (EvExchange this (mResumeAwaiter b)) in
  ret (mResumeAwaiter b).

(** The writes of the body into the result cell. *)
Definition update_promise (c : addr) (f : P → P) : M unit :=
  λ w, match frames w !! c with
       | Some fr =>
           Normal (tt, with_frames (<[c := MkFrame (f (promise fr)) (done fr)]> (frames w)) w)
       | None => Undefined
       end.

(** The coroutine becomes suspended at its final suspend point. *)
Definition mark_done (c : addr) : M unit :=
  λ w, match frames w !! c with
       | Some fr =>
           Normal (tt, with_frames (<[c := MkFrame (promise fr) true]> (frames w)) w)
       | None => Undefined
       end.

(** *** TaskPromiseBase and TaskFinalSuspend *)

(** [TaskPromiseBase::final_suspend]. *)
Definition final_suspend (this : addr) : M TaskFinalSuspend :=
  call b <- load_base this in
  ret (MkFinalSuspend (mAwaitingCoroutine b)).

(** [TaskPromiseBase::setAwaitingCoroutine]. *)
Definition setAwaitingCoroutine (this : addr) (awaitingCoroutine : coroutine_handle) : M bool :=
  exec store_mAwaitingCoroutine this awaitingCoroutine in
  call old <- mResumeAwaiter_exchange this true in
  ret (negb old).

(** [TaskFinalSuspend::await_suspend]: it resumes the link read from the
    promise, not the copy held by the awaiter. *)
Definition TaskFinalSuspend_await_suspend (self : TaskFinalSuspend)
    (awaitedCoroutine : coroutine_handle) : M unit :=
  match awaitedCoroutine with
  | None => undefined
  | Some c =>
      call old <- mResumeAwaiter_exchange c true in
      if old then
        call b <- load_base c in
        handle_resume (mAwaitingCoroutine b)
      else ret tt
  end.

(** [co_await promise.final_suspend()], generated at the end of the body. *)
Definition co_await_final_suspend (c : addr) : M unit :=
  call aw <- final_suspend c in
  if TaskFinalSuspend_await_ready aw then ret tt
  else
    exec mark_done c in
    TaskFinalSuspend_await_suspend aw (Some c).

(** The completion path: the result is stored, then the final suspend. *)
Definition coroutine_end (c : addr) (write : P → P) : M unit :=
  exec update_promise c write in
  co_await_final_suspend c.

(** *** TaskAwaiterBase and TaskAwaiter *)

(** [TaskAwaiterBase::await_ready]. *)
Definition await_ready (aw : TaskAwaiter) : M bool :=
  if negb (handle_bool (mAwaitedCoroutine aw)) then ret true
  else handle_done (mAwaitedCoroutine aw).

(** [TaskAwaiterBase::await_suspend]. *)
Definition await_suspend (aw : TaskAwaiter) (awaitingCoroutine : coroutine_handle) : M bool :=
  exec handle_resume (mAwaitedCoroutine aw) in
  match mAwaitedCoroutine aw with
  | None => undefined
  | Some c => setAwaitingCoroutine c awaitingCoroutine
  end.

(** [Q_ASSERT(cond)]. *)
Definition Q_ASSERT (cond : bool) : M unit :=
  if QT_NO_DEBUG then ret tt
  else if cond then ret tt
  else λ _, AssertFailed.

(** [TaskAwaiter::await_resume]. Both return by value ([auto]). The awaiter
    of [operator co_await() const &] returns [promise().result()], a copy
    of the value in the cell. The awaiter of the [const &&] overload
    returns [std::move(promise().result())]: the returned value is
    move-constructed from the value in the cell, which is left moved-from.
    Nothing is moved when [result()] throws. (A null handle has made
    [promise()] undefined before the move is reached.) *)
Definition await_resume (aw : TaskAwaiter) : M value_type :=
  exec Q_ASSERT (handle_bool (mAwaitedCoroutine aw)) in
  call p <- handle_promise (mAwaitedCoroutine aw) in
  call v <- lift_outcome (promise_result p) in
  if by_rvalue aw then
    match mAwaitedCoroutine aw with
    | Some c => exec update_promise c promise_moved_out in ret v
    | None => undefined
    end
  else ret v.

(** The expression [co_await awaiter] inside coroutine [awaitingCoroutine]:
    [None] when the coroutine suspends, [Some v] when it goes on with [v]. *)
Definition co_await (aw : TaskAwaiter) (awaitingCoroutine : coroutine_handle) :
    M (option value_type) :=
  call ready <- await_ready aw in
  if ready then
    call v <- await_resume aw in ret (Some v)
  else
    call suspend <- await_suspend aw awaitingCoroutine in
    if suspend then ret None
    else call v <- await_resume aw in ret (Some v).

(** *** Task *)

Definition load_mCoroutine (this : loc) : M coroutine_handle :=
  λ w, match objects w !! this with
       | Some h => Normal (h, w)
       | None => Undefined
       end.

Definition store_mCoroutine (this : loc) (h : coroutine_handle) : M unit :=
  λ w, match objects w !! this with
       | Some _ => Normal (tt, with_objects (<[this := h]> (objects w)) w)
       | None => Undefined
       end.

(** A constructor runs on storage that holds no live [Task]. *)
Definition begin_lifetime (this : loc) (h : coroutine_handle) : M unit :=
  λ w, match objects w !! this with
       | Some _ => Undefined
       | None => Normal (tt, with_objects (<[this := h]> (objects w)) w)
       end.

Definition end_lifetime (this : loc) : M unit :=
  λ w, match objects w !! this with
       | Some _ => Normal (tt, with_objects (delete this (objects w)) w)
       | None => Undefined
       end.

(** [Task::Task()]. *)
Definition Task_ctor (this : loc) : M unit := begin_lifetime this None.

(** [Task::Task(coroutine_handle<promise_type>)]. *)
Definition Task_ctor_handle (this : loc) (coroutine : coroutine_handle) : M unit :=
  begin_lifetime this coroutine.

(** [Task::Task(Task &&other)]. *)
Definition Task_move_ctor (this other : loc) : M unit :=
  call theirs <- load_mCoroutine other in
  exec begin_lifetime this theirs in
  store_mCoroutine other None.

(** [Task::operator=(Task &&other)]; [this] and [other] may be the same object. *)
Definition Task_move_assign (this other : loc) : M unit :=
  call mine <- load_mCoroutine this in
  exec (if handle_bool mine then handle_destroy mine else ret tt) in
  call theirs <- load_mCoroutine other in
  exec store_mCoroutine this theirs in
  store_mCoroutine other None.

(** [Task::~Task]. *)
Definition Task_dtor (this : loc) : M unit :=
  call mine <- load_mCoroutine this in
  exec (if handle_bool mine then handle_destroy mine else ret tt) in
  end_lifetime this.

(** [Task::isReady]. *)
Definition Task_isReady (this : loc) : M bool :=
  call mine <- load_mCoroutine this in
  if negb (handle_bool mine) then ret true
  else handle_done mine.

(** [Task::operator co_await], [const &] ([rvalue = false]) and [const &&]. *)
Definition Task_co_await (this : loc) (rvalue : bool) : M TaskAwaiter :=
  call mine <- load_mCoroutine this in
  ret (MkAwaiter mine rvalue).

(** [TaskPromise::get_return_object]: the [Task] is built in the caller's
    return slot. *)
Definition get_return_object (this : addr) (return_slot : loc) : M unit :=
  Task_ctor_handle return_slot (Some this).

(** *** Calling a coroutine *)

(** A new frame with a default-constructed promise. *)
Definition new_frame : M addr :=
  λ w, let c := next_frame w in
       Normal (c, {| frames := <[c := MkFrame promise_init false]> (frames w);
                     objects := objects w;
                     next_frame := S c;
                     trace := trace w |}).

(** Frame allocation and [get_return_object]. *)
Definition coroutine_ramp (return_slot : loc) : M addr :=
  call c <- new_frame in
  exec get_return_object c return_slot in
  ret c.

(** The body runs up to its first suspension point. *)
Definition begin_body (c : addr) : M unit :=
  λ w, Normal (tt, with_trace (trace w ++ [EvUserCode c]) (run_coroutine c w)).

(** A call of a coroutine returning [Task<T>]: the ramp, then
    [co_await promise.initial_suspend()], then the return to the caller. *)
Definition coroutine_call (return_slot : loc) : M addr :=
  call c <- coroutine_ramp return_slot in
  call b <- load_base c in
  exec (if suspend_never_await_ready (initial_suspend b) then begin_body c
        else ret tt) in
  exec emit (EvReturnToCaller c) in
  ret c.

(** *** The public operations on [Task] objects, as a program may issue them *)

Inductive TaskOp : Type :=
  | OpDefault (this : loc)                (** [Task t;] *)
  | OpCoroutine (return_slot : loc)       (** a coroutine is called *)
  | OpMoveCtor (this other : loc)         (** [Task t(std::move(other));] *)
  | OpMoveAssign (this other : loc)       (** [t = std::move(other);] *)
  | OpDtor (this : loc)                   (** [t] goes out of scope *).

Definition exec_op (op : TaskOp) : M unit :=
  match op with
  | OpDefault this => Task_ctor this
  | OpCoroutine return_slot => call _c <- coroutine_ramp return_slot in ret tt
  | OpMoveCtor this other => Task_move_ctor this other
  | OpMoveAssign this other => Task_move_assign this other
  | OpDtor this => Task_dtor this
  end.

Fixpoint exec_ops (ops : list TaskOp) : M unit :=
  match ops with
  | [] => ret tt
  | op :: rest => exec exec_op op in exec_ops rest
  end.
End Operations.

(** The world in which the completion path of [c], whose frame was [f], has
    reached its final suspend point and made its exchange. *)
Definition producer_arrived {E P} `{!PromiseType E P} (c : addr) (f : Frame P)
    (w : World P) : World P :=
  log (EvExchange c (mResumeAwaiter (promise_base (promise f))))
    (put_frame c
       (MkFrame (promise_with_base
                   (set_mResumeAwaiter true (promise_base (promise f))) (promise f)) true)
       w).

(** ** The rendezvous as two threads

    The completion path of the awaited coroutine [c] (the producer) and
    [setAwaitingCoroutine] called for the awaiting coroutine [h] (the
    consumer) run on two threads. Each thread is cut at its accesses to the
    shared promise; a step performs one access, and steps of the two
    threads interleave in any order. *)
Module Rendezvous.

Inductive thread : Type := Producer | Consumer.

(** Where the producer stands in
    [co_await final_suspend()] = [final_suspend(); await_suspend(...)]. *)
Inductive producer_pc : Type :=
  | PFinalSuspend                       (** about to call [final_suspend()] *)
  | PAwaitSuspend (aw : TaskFinalSuspend) (** about to [exchange] *)
  | PResume                             (** [exchange] gave [true]: about to resume *)
  | PDone.

(** Where the consumer stands in [setAwaitingCoroutine]. *)
Inductive consumer_pc : Type :=
  | CAbsent                             (** the computation is never awaited *)
  | CStore                              (** about to store the link *)
  | CExchange                           (** about to [exchange] *)
  | CSuspended                          (** returned [true]: stays suspended *)
  | CContinues                          (** returned [false]: goes on at once *).

Record state (P : Type) := MkState {
  shared : World P;
  ppc : producer_pc;
  cpc : consumer_pc
}.
Arguments MkState {P}.
Arguments shared {P}.
Arguments ppc {P}.
Arguments cpc {P}.

(** What a run shows: where the two threads stand, and the trace. *)
Definition observe {E P} (o : outcome E (state P)) :
    option (producer_pc * consumer_pc * list event) :=
  match o with
  | Normal s => Some (ppc s, cpc s, trace (shared s))
  | _ => None
  end.

Section Threads.
Context {E P : Type} `{PT : !PromiseType E P}.
Variable run_coroutine : addr → World P → World P.
(** The awaited coroutine and the awaiting one. *)
Variables c h : addr.

Definition advance {A} (o : outcome E (A * World P)) (k : A → World P → state P) :
    outcome E (state P) :=
  match o with
  | Normal (a, w) => Normal (k a w)
  | Thrown e => Thrown e
  | AssertFailed => AssertFailed
  | Undefined => Undefined
  end.

(** One step of the producer; [None] when it has finished. *)
Definition producer_step (s : state P) : option (outcome E (state P)) :=
  match ppc s with
  | PFinalSuspend =>
      Some (advance ((call aw <- final_suspend c in
                      exec mark_done c in ret aw) (shared s))
              (λ aw w, MkState w (PAwaitSuspend aw) (cpc s)))
  | PAwaitSuspend _ =>
      Some (advance (mResumeAwaiter_exchange c true (shared s))
              (λ old w, MkState w (if old then PResume else PDone) (cpc s)))
  | PResume =>
      Some (advance ((call b <- load_base c in
                      handle_resume run_coroutine (mAwaitingCoroutine b)) (shared s))
              (λ _ w, MkState w PDone (cpc s)))
  | PDone => None
  end.

(** One step of the consumer; [None] when it is absent or has returned. *)
Definition consumer_step (s : state P) : option (outcome E (state P)) :=
  match cpc s with
  | CStore =>
      Some (advance (store_mAwaitingCoroutine c (Some h) (shared s))
              (λ _ w, MkState w (ppc s) CExchange))
  | CExchange =>
      Some (advance ((call old <- mResumeAwaiter_exchange c true in
                      ret (negb old)) (shared s))
              (λ suspend w,
                 MkState w (ppc s) (if suspend then CSuspended else CContinues)))
  | CAbsent | CSuspended | CContinues => None
  end.

Definition thread_step (t : thread) (s : state P) : option (outcome E (state P)) :=
  match t with
  | Producer => producer_step s
  | Consumer => consumer_step s
  end.

(** The interleaving semantics. *)
Definition step (s s' : state P) : Prop :=
  ∃ t, thread_step t s = Some (Normal s').

(** Some thread can take a step that does not end normally. *)
Definition crashes (s : state P) : Prop :=
  ∃ t o, thread_step t s = Some o ∧ is_normal o = false.

Definition terminal (s : state P) : Prop :=
  ∀ t, thread_step t s = None.

(** A schedule names the thread to step next; a finished thread is skipped. *)
Fixpoint run_schedule (sched : list thread) (s : state P) : outcome E (state P) :=
  match sched with
  | [] => Normal s
  | t :: rest =>
      match thread_step t s with
      | None => run_schedule rest s
      | Some (Normal s') => run_schedule rest s'
      | Some (Thrown e) => Thrown e
      | Some AssertFailed => AssertFailed
      | Some Undefined => Undefined
      end
  end.

(** Both sides start with the flag still [false]. *)
Definition initial (w0 : World P) (awaited : bool) : state P :=
  MkState w0 PFinalSuspend (if awaited then CStore else CAbsent).

(** How often the continuation [h] has been continued since [w0]:
    [resume()] calls on it, plus one if its [co_await] did not suspend. *)
Definition continuations (w0 : World P) (s : state P) : nat :=
  count_events (is_resume_of h) (new_events w0 (shared s))
  + (match cpc s with CContinues => 1 | _ => 0 end).

(** Steps left, at most. *)
Definition steps_left (s : state P) : nat :=
  (match ppc s with
   | PFinalSuspend => 3 | PAwaitSuspend _ => 2 | PResume => 1 | PDone => 0
   end)
  + (match cpc s with
     | CStore => 2 | CExchange => 1 | _ => 0
     end).
(** *** What holds in every reachable state *)

Definition producer_exchanged (pc : producer_pc) : bool :=
  match pc with PResume | PDone => true | _ => false end.

Definition consumer_exchanged (pc : consumer_pc) : bool :=
  match pc with CSuspended | CContinues => true | _ => false end.

Definition consumer_stored (pc : consumer_pc) : bool :=
  match pc with CExchange | CSuspended | CContinues => true | _ => false end.

(** The producer has called [resume()] on the suspended consumer. *)
Definition resumed (s : state P) : bool :=
  match ppc s, cpc s with PDone, CSuspended => true | _, _ => false end.

(** Until then: the flag is [true] once either side has made its exchange,
    the link is the consumer's handle once the consumer has stored it, only
    a producer that saw [true] is about to resume, and only a consumer that
    came second goes on at once. *)
Record before_resume (s : state P) (f : Frame P) : Prop := MkBeforeResume {
  br_frame : frames (shared s) !! c = Some f;
  br_flag : mResumeAwaiter (promise_base (promise f))
            = producer_exchanged (ppc s) || consumer_exchanged (cpc s);
  br_link : consumer_stored (cpc s) = true →
            mAwaitingCoroutine (promise_base (promise f)) = Some h;
  br_consumer : finished h (shared s) = false;
  br_resume : ppc s = PResume → cpc s = CSuspended;
  br_continues : cpc s = CContinues → ppc s = PDone
}.

Definition invariant (w0 : World P) (awaited : bool) (s : state P) : Prop :=
  ∃ evs,
    trace (shared s) = trace w0 ++ evs
    ∧ (cpc s = CAbsent ↔ awaited = false)
    ∧ if resumed s then
        count_events is_resume evs = 1 ∧ count_events (is_resume_of h) evs = 1
      else
        count_events is_resume evs = 0 ∧ ∃ f, before_resume s f.
End Threads.
End Rendezvous.

(** ** A sample instance

    [Task<int>]-like coroutines with natural numbers for values and for
    exception payloads, and surroundings that do nothing on a resume. *)
Module Sample.
Definition payload_bad_variant_access : nat := 0.

Definition PT : PromiseType nat (TaskPromise nat nat) :=
  TaskPromise_PromiseType payload_bad_variant_access nat.

Definition idle : addr → World (TaskPromise nat nat) → World (TaskPromise nat nat) :=
  λ _ w, w.

Definition fresh_frame : Frame (TaskPromise nat nat) :=
  MkFrame (MkPromise base_init monostate) false.

(** Frame 0 is running and was attached to by coroutine 7. *)
Definition attached_frame : Frame (TaskPromise nat nat) :=
  MkFrame (MkPromise {| mAwaitingCoroutine := Some 7; mResumeAwaiter := true |}
             monostate) false.

(** Frame 0 has finished with the value 5 and nobody has attached. *)
Definition finished_frame : Frame (TaskPromise nat nat) :=
  MkFrame (MkPromise {| mAwaitingCoroutine := None; mResumeAwaiter := true |}
             (holds_T 5)) true.

Definition world_of (f : Frame (TaskPromise nat nat)) : World (TaskPromise nat nat) :=
  {| frames := <[0 := f]> ∅;
     objects := <[1 := None]> (<[0 := Some 0]> ∅);
     next_frame := 1;
     trace := [] |}.

(** The task at 0 owns frame 0 (just created), the task at 1 is unbound. *)
Definition started : World (TaskPromise nat nat) := world_of fresh_frame.
Definition attached : World (TaskPromise nat nat) := world_of attached_frame.
Definition completed : World (TaskPromise nat nat) := world_of finished_frame.

(** The operations that lead to [started]. *)
Definition program : list TaskOp := [OpCoroutine 0; OpDefault 1].
End Sample.

(** ** Awaiting a task from inside a task, and the life of frames *)

Definition map_outcome {E A B} (g : A → B) (o : outcome E A) : outcome E B :=
  match o with
  | Normal a => Normal (g a)
  | Thrown e => Thrown e
  | AssertFailed => AssertFailed
  | Undefined => Undefined
  end.

Section Chaining.
Context {E P : Type} `{PT : !PromiseType E P}.
Variable run_coroutine : addr → World P → World P.
Variable QT_NO_DEBUG : bool.

(** [TaskPromiseBase::await_transform(Task<T> &&task)]: the return type is
    deduced as [Task<T>], so the result object is move-constructed from
    [task]. *)
Definition await_transform_Task (result_object task : loc) : M E P unit :=
  Task_move_ctor result_object task.

(** [co_await std::move(task)] inside a coroutine returning [Task]: the
    operand goes through [await_transform], the temporary it returns
    through [operator co_await() const &&], and the awaiter through the
    [co_await] protocol. The temporary lives on to the end of the full
    expression. *)
Definition co_await_moved_task (temporary task : loc)
    (awaitingCoroutine : coroutine_handle) : M E P (option value_type) :=
  exec await_transform_Task temporary task in
  call aw <- Task_co_await temporary true in
  co_await run_coroutine QT_NO_DEBUG aw awaitingCoroutine.
End Chaining.

(** Every frame that exists has an owner. *)
Definition no_leak {P} (w : World P) : Prop :=
  ∀ c, is_Some (frames w !! c) → ∃ l, owns w l c.

(** Every frame that was handed out and is gone was destroyed. *)
Definition accounted {P} (w : World P) : Prop :=
  ∀ c, c < next_frame w → frames w !! c = None → EvDestroy c ∈ trace w.

(** ** The rendezvous with the write of the result

    The producer of [Rendezvous] is given one more step in front: the
    write of the result into the promise ([return_value] or
    [unhandled_exception]), which precedes [final_suspend()]. *)
Module Publication.

Record state (P : Type) := MkState {
  threads : Rendezvous.state P;
  written : bool
}.
Arguments MkState {P}.
Arguments threads {P}.
Arguments written {P}.

Section Threads.
Context {E P : Type} `{PT : !PromiseType E P}.
Variable run_coroutine : addr → World P → World P.
Variables c h : addr.
(** What the body stores at its end. *)
Variable write : P → P.

Definition producer_step (s : state P) : option (outcome E (state P)) :=
  if written s then
    option_map (map_outcome (λ t, MkState t true))
      (Rendezvous.producer_step run_coroutine c (threads s))
  else
    Some (map_outcome
            (λ r, MkState (Rendezvous.MkState (snd r) (Rendezvous.ppc (threads s))
                             (Rendezvous.cpc (threads s))) true)
            (update_promise c write (Rendezvous.shared (threads s)))).

Definition consumer_step (s : state P) : option (outcome E (state P)) :=
  option_map (map_outcome (λ t, MkState t (written s)))
    (Rendezvous.consumer_step (E:=E) c h (threads s)).

Definition thread_step (t : Rendezvous.thread) (s : state P) :
    option (outcome E (state P)) :=
  match t with
  | Rendezvous.Producer => producer_step s
  | Rendezvous.Consumer => consumer_step s
  end.

Definition step (s s' : state P) : Prop :=
  ∃ t, thread_step t s = Some (Normal s').

Definition crashes (s : state P) : Prop :=
  ∃ t o, thread_step t s = Some o ∧ is_normal o = false.

Definition initial (w0 : World P) : state P :=
  MkState (Rendezvous.initial w0 true) false.

(** The consumer is about to go on: its [co_await] did not suspend, or the
    producer is about to call [resume()] on it. *)
Definition consumer_goes_on (s : state P) : Prop :=
  Rendezvous.cpc (threads s) = Rendezvous.CContinues
  ∨ Rendezvous.ppc (threads s) = Rendezvous.PResume.

(** What the consumer then finds in frame [c]: the coroutine at its final
    suspend point and [r] for a result. *)
Definition published (r : outcome E value_type) (s : state P) : Prop :=
  ∃ f, frames (Rendezvous.shared (threads s)) !! c = Some f
       ∧ promise_result (promise f) = r
       ∧ done f = true.
(** A schedule names the thread to step next; a finished thread is skipped. *)
Fixpoint run_schedule (sched : list Rendezvous.thread) (s : state P) :
    outcome E (state P) :=
  match sched with
  | [] => Normal s
  | t :: rest =>
      match thread_step t s with
      | None => run_schedule rest s
      | Some (Normal s') => run_schedule rest s'
      | Some (Thrown e) => Thrown e
      | Some AssertFailed => AssertFailed
      | Some Undefined => Undefined
      end
  end.

(** What holds in every reachable state: the invariant of [Rendezvous], the
    write comes before [final_suspend()], and once written the result stays
    in the frame, which is marked done from [final_suspend()] on. *)
Definition invariant (w0 : World P) (r : outcome E value_type) (s : state P) : Prop :=
  Rendezvous.invariant c h w0 true (threads s)
  ∧ (written s = false → Rendezvous.ppc (threads s) = Rendezvous.PFinalSuspend)
  ∧ (written s = true → Rendezvous.resumed (threads s) = false →
     ∃ f, frames (Rendezvous.shared (threads s)) !! c = Some f
          ∧ promise_result (promise f) = r
          ∧ (Rendezvous.ppc (threads s) ≠ Rendezvous.PFinalSuspend → done f = true)).
End Threads.
End Publication.

(** How one step of [Rendezvous] changes the state. *)
Module StepEffect.
Import Rendezvous.
Section Effects.
Context {E P : Type} `{PT : !PromiseType E P}.
Variable run_coroutine : addr → World P → World P.
Variables c h : addr.

Inductive step_effect (s s' : state P) : Prop :=
  | EffFinalSuspend f :
      frames (shared s) !! c = Some f →
      ppc s = PFinalSuspend →
      s' = MkState (put_frame c (MkFrame (promise f) true) (shared s))
             (PAwaitSuspend (MkFinalSuspend (mAwaitingCoroutine (promise_base (promise f)))))
             (cpc s) →
      step_effect s s'
  | EffProducerExchange f aw :
      frames (shared s) !! c = Some f →
      ppc s = PAwaitSuspend aw →
      mResumeAwaiter (promise_base (promise f)) = consumer_exchanged (cpc s) →
      s' = MkState
             (log (EvExchange c (consumer_exchanged (cpc s)))
                (put_frame c
                   (MkFrame (promise_with_base
                               (set_mResumeAwaiter true (promise_base (promise f)))
                               (promise f)) (done f))
                   (shared s)))
             (if consumer_exchanged (cpc s) then PResume else PDone)
             (cpc s) →
      step_effect s s'
  | EffResume f :
      frames (shared s) !! c = Some f →
      ppc s = PResume →
      cpc s = CSuspended →
      s' = MkState (with_trace (trace (shared s) ++ [EvResume h])
                      (run_coroutine h (shared s)))
             PDone CSuspended →
      step_effect s s'
  | EffStore f :
      frames (shared s) !! c = Some f →
      cpc s = CStore →
      ppc s ≠ PResume →
      s' = MkState
             (log (EvStoreLink c (Some h))
                (put_frame c
                   (MkFrame (promise_with_base
                               (set_mAwaitingCoroutine (Some h) (promise_base (promise f)))
                               (promise f)) (done f))
                   (shared s)))
             (ppc s) CExchange →
      step_effect s s'
  | EffConsumerExchange f :
      frames (shared s) !! c = Some f →
      cpc s = CExchange →
      ppc s ≠ PResume →
      mResumeAwaiter (promise_base (promise f)) = producer_exchanged (ppc s) →
      s' = MkState
             (log (EvExchange c (producer_exchanged (ppc s)))
                (put_frame c
                   (MkFrame (promise_with_base
                               (set_mResumeAwaiter true (promise_base (promise f)))
                               (promise f)) (done f))
                   (shared s)))
             (ppc s)
             (if producer_exchanged (ppc s) then CContinues else CSuspended) →
      step_effect s s'.
End Effects.
End StepEffect.

(** An exchange that observed [seen]. *)
Definition is_exchange_seeing (seen : bool) (ev : event) : bool :=
  match ev with EvExchange _ old => bool_decide (old = seen) | _ => false end.

(** ** More sample worlds *)
Module MoreSamples.
Import Rendezvous.

(** Two tasks, at 0 and 1, made from the handle of frame 0. *)
Definition two_owners : World (TaskPromise nat nat) :=
  {| frames := <[0 := Sample.fresh_frame]> ∅;
     objects := <[1 := Some 0]> (<[0 := Some 0]> ∅);
     next_frame := 1;
     trace := [] |}.

Definition idle_void : addr → World (TaskPromiseVoid nat) → World (TaskPromiseVoid nat) :=
  λ _ w, w.

(** A running [Task<void>] coroutine to which coroutine 3 has attached. *)
Definition attached_void_frame : Frame (TaskPromiseVoid nat) :=
  MkFrame (MkPromiseVoid {| mAwaitingCoroutine := Some 3; mResumeAwaiter := true |} None)
    false.

Definition attached_void : World (TaskPromiseVoid nat) :=
  {| frames := <[0 := attached_void_frame]> ∅;
     objects := <[0 := Some 0]> ∅;
     next_frame := 1;
     trace := [] |}.

(** The body of frame 0 ends with [co_return 5]. *)
Definition returns_5 : TaskPromise nat nat → TaskPromise nat nat :=
  complete (CoReturn 5).

(** A [Task<void>] coroutine that has just been created, and its body
    flowing off the end. *)
Definition fresh_void_frame : Frame (TaskPromiseVoid nat) :=
  MkFrame (MkPromiseVoid base_init None) false.

Definition started_void : World (TaskPromiseVoid nat) :=
  {| frames := <[0 := fresh_void_frame]> ∅;
     objects := <[0 := Some 0]> ∅;
     next_frame := 1;
     trace := [] |}.

Definition returns_void : TaskPromiseVoid nat → TaskPromiseVoid nat :=
  void_complete (CoReturn tt).

(** A value type whose move constructor empties its source, as
    [std::vector] does. *)
Definition emptied : MovedFrom (list nat) := λ _, [].

Definition PT_list : PromiseType nat (TaskPromise nat (list nat)) :=
  TaskPromise_PromiseType (MovedFrom0:=emptied) Sample.payload_bad_variant_access (list nat).

Definition idle_list :
    addr → World (TaskPromise nat (list nat)) → World (TaskPromise nat (list nat)) :=
  λ _ w, w.

(** Frame 0 has finished with the value [l]; the task at 0 owns it. *)
Definition finished_list_frame (l : list nat) : Frame (TaskPromise nat (list nat)) :=
  MkFrame (MkPromise {| mAwaitingCoroutine := None; mResumeAwaiter := true |}
             (holds_T l)) true.

Definition completed_list (l : list nat) : World (TaskPromise nat (list nat)) :=
  {| frames := <[0 := finished_list_frame l]> ∅;
     objects := <[0 := Some 0]> ∅;
     next_frame := 1;
     trace := [] |}.

(** Where the consumer attaches first and the producer resumes it. *)
Definition consumer_first_schedule : list thread :=
  [Consumer; Consumer; Producer; Producer; Producer].

Definition consumer_first_end : state (TaskPromise nat nat) :=
  match run_schedule (PT:=Sample.PT) Sample.idle 0 7 consumer_first_schedule
          (initial Sample.started true) with
  | Normal s => s
  | _ => initial Sample.started true
  end.

(** Where the producer has written and exchanged before the consumer
    attaches: the consumer goes on at once. *)
Definition producer_first_schedule : list thread :=
  [Producer; Producer; Producer; Consumer; Consumer].

Definition producer_first_end : Publication.state (TaskPromise nat nat) :=
  match Publication.run_schedule (PT:=Sample.PT) Sample.idle 0 7 returns_5
          producer_first_schedule (Publication.initial Sample.started) with
  | Normal s => s
  | _ => Publication.initial Sample.started
  end.
End MoreSamples.

(** * Properties *)

(** ** The result cells *)

Section ResultCellFacts.
Context {E T : Type}.
Variable bad_variant_access : E.
Implicit Types (p : TaskPromise E T) (q : TaskPromiseVoid E).

Lemma result_return_value v p :
  result bad_variant_access (return_value v p) = Normal v.
Proof. reflexivity. Qed.

Lemma result_unhandled_exception e p :
  result bad_variant_access (unhandled_exception (Some e) p) = Thrown e.
Proof. reflexivity. Qed.

(** Reading an empty cell throws [std::bad_variant_access]. *)
Lemma result_monostate b :
  result bad_variant_access (MkPromise (T:=T) b monostate) = Thrown bad_variant_access.
Proof. reflexivity. Qed.

(** A write replaces the content of the cell, whatever it held. *)
Lemma apply_write_mValue p (w : cell_write E T) :
  mValue (apply_write p w) =
    match w with
    | WriteValue v => holds_T v
    | WriteFailure e => holds_exception e
    end.
Proof. by destruct w. Qed.

Lemma writes_keep_base p (ws : list (cell_write E T)) :
  tp_base (foldl apply_write p ws) = tp_base p.
Proof.
  revert p. induction ws as [|w ws IH]; intros p; [done|].
  cbn [foldl]. rewrite IH. by destruct w.
Qed.

(** After a non-empty sequence of writes the cell holds the last one. *)
Lemma writes_last p (ws : list (cell_write E T)) w :
  mValue (foldl apply_write p (ws ++ [w])) = mValue (apply_write p w).
Proof.
  rewrite foldl_app. cbn [foldl]. by rewrite !apply_write_mValue.
Qed.

Lemma never_both (m : variant E T) :
  holds_alternative_T m && holds_alternative_exception m = false.
Proof. by destruct m. Qed.

(** C4: the result cell round-trips. A computation that completes with
    [v] and is then read yields [v]; one that ends with an exception
    carrying [e] rethrows [e] when read; and whatever sequence of
    [return_value] / [unhandled_exception] calls reaches a promise, its
    cell never holds a value and a failure together: it holds what the
    last call stored. *)
Theorem result_cell_round_trip :
  (∀ (v : T) p, result bad_variant_access (complete (CoReturn v) p) = Normal v)
  ∧ (∀ (e : E) p, result bad_variant_access (complete (Escapes e) p) = Thrown e)
  ∧ (∀ (c : completion E T) p,
       mValue (complete c p) =
         match c with
         | CoReturn v => holds_T v
         | Escapes e => holds_exception (Some e)
         end)
  ∧ (∀ p (ws : list (cell_write E T)),
       holds_alternative_T (mValue (foldl apply_write p ws))
       && holds_alternative_exception (mValue (foldl apply_write p ws)) = false)
  ∧ (∀ p (ws : list (cell_write E T)) (v : T) (e : E),
       result bad_variant_access (foldl apply_write p (ws ++ [WriteValue v])) = Normal v
       ∧ result bad_variant_access (foldl apply_write p (ws ++ [WriteFailure (Some e)]))
         = Thrown e).
Proof.
  split_and!.
  - intros v p. apply result_return_value.
  - intros e p. apply result_unhandled_exception.
  - by intros [v|e] p.
  - intros p ws. apply never_both.
  - intros p ws v e. unfold result.
    rewrite !writes_last, !apply_write_mValue. done.
Qed.

(** Reading a [void] promise gives nothing or rethrows what is stored. *)
Lemma void_result_cases q :
  (mException q = None ∧ void_result q = Normal tt)
  ∨ (∃ e, mException q = Some e ∧ void_result q = Thrown e).
Proof.
  unfold void_result. destruct (mException q) as [e|]; [right|left]; eauto.
Qed.

(** C8: the [void] specialisation. Reading after a normal completion
    returns nothing; reading after a failure rethrows the stored
    exception; no other behaviour exists; and on the failure path the
    [void] promise and the typed promise end in the same way. *)
Theorem void_result_matches_typed :
  (∀ b, void_result (void_complete (CoReturn tt) (MkPromiseVoid (E:=E) b None)) = Normal tt)
  ∧ (∀ (e : E) q, void_result (void_complete (Escapes e) q) = Thrown e)
  ∧ (∀ q, void_result q = Normal tt ∨ ∃ e, mException q = Some e ∧ void_result q = Thrown e)
  ∧ (∀ (e : E) p q,
       failure_of (void_result (void_complete (Escapes e) q))
       = failure_of (result bad_variant_access (complete (Escapes e) p))).
Proof.
  split_and!; try done.
  intros q. destruct (void_result_cases q) as [[_ ?]|?]; eauto.
Qed.

(** The two specialisations part ways only on a null [exception_ptr],
    which [std::current_exception()] never yields inside a handler. *)
Lemma null_exception_ptr_differs p q :
  void_result (void_unhandled_exception None q) = Normal tt
  ∧ result bad_variant_access (unhandled_exception None p) = Undefined.
Proof. done. Qed.
End ResultCellFacts.

(** ** Counting events *)

Lemma count_events_app g (tr1 tr2 : list event) :
  count_events g (tr1 ++ tr2) = count_events g tr1 + count_events g tr2.
Proof. unfold count_events. by rewrite filter_app, length_app. Qed.

Lemma count_events_singleton g (ev : event) :
  count_events g [ev] = if g ev then 1 else 0.
Proof.
  unfold count_events. rewrite filter_cons, filter_nil.
  destruct (g ev); by case_decide.
Qed.

Lemma count_events_none g (tr : list event) :
  (∀ ev, ev ∈ tr → g ev = false) → count_events g tr = 0.
Proof.
  unfold count_events. induction tr as [|ev tr IH]; intros Hg; [done|].
  rewrite filter_cons. rewrite (Hg ev) by apply list_elem_of_here.
  case_decide; [done|]. apply IH. intros ev' Hin. apply Hg. by apply list_elem_of_further.
Qed.

Lemma not_destroyed_count c (tr : list event) :
  EvDestroy c ∉ tr → count_events (is_destroy_of c) tr = 0.
Proof.
  intros Hnot. apply count_events_none. intros [] Hin; try done.
  cbn. apply bool_decide_eq_false. by intros ->.
Qed.

Lemma count_events_mono g1 g2 (tr : list event) :
  (∀ ev, g1 ev = true → g2 ev = true) →
  count_events g1 tr ≤ count_events g2 tr.
Proof.
  intros Hg. unfold count_events. induction tr as [|ev tr IH]; [done|].
  rewrite !filter_cons. pose proof (Hg ev).
  repeat case_decide; cbn; try lia. naive_solver.
Qed.

Lemma new_events_app {P} (w w' : World P) evs :
  trace w' = trace w ++ evs → new_events w w' = evs.
Proof. intros Htr. unfold new_events. by rewrite Htr, drop_app_length. Qed.

(** ** The two sides of the rendezvous, one call at a time *)

Section HandshakeFacts.
Context {E P : Type} `{PT : !PromiseType E P}.
Variable run_coroutine : addr → World P → World P.
Implicit Types (w : World P) (f : Frame P) (c : addr) (h : coroutine_handle).

Local Abbreviation flag_of f := (mResumeAwaiter (promise_base (promise f))).
Local Abbreviation link_of f := (mAwaitingCoroutine (promise_base (promise f))).

(** Frame [f] with the base subobject of its promise replaced. *)
Local Abbreviation rebase b f := (MkFrame (promise_with_base b (promise f)) (done f)).

Lemma load_base_eq w c f :
  frames w !! c = Some f →
  load_base (E:=E) c w = Normal (promise_base (promise f), w).
Proof. intros Hf. unfold load_base. by rewrite Hf. Qed.

Lemma store_base_eq w c f b :
  frames w !! c = Some f →
  store_base (E:=E) c b w = Normal (tt, put_frame c (rebase b f) w).
Proof. intros Hf. unfold store_base. by rewrite Hf. Qed.

Lemma frames_put_frame w c f : frames (put_frame c f w) !! c = Some f.
Proof. cbn. apply lookup_insert_eq. Qed.

Lemma frames_put_frame_ne w c c' f :
  c ≠ c' → frames (put_frame c f w) !! c' = frames w !! c'.
Proof. intros. cbn. by apply lookup_insert_ne. Qed.

Lemma put_frame_twice w c f1 f2 :
  put_frame c f2 (put_frame c f1 w) = put_frame c f2 w.
Proof. unfold put_frame, with_frames. cbn. by rewrite insert_insert_eq. Qed.

Lemma exchange_eq w c f desired :
  frames w !! c = Some f →
  mResumeAwaiter_exchange (E:=E) c desired w
  = Normal (flag_of f,
            log (EvExchange c (flag_of f))
              (put_frame c (rebase (set_mResumeAwaiter desired (promise_base (promise f))) f) w)).
Proof.
  intros Hf. unfold mResumeAwaiter_exchange, bind.
  rewrite (load_base_eq _ _ _ Hf), (store_base_eq _ _ _ _ Hf). done.
Qed.

Lemma store_link_eq w c f h :
  frames w !! c = Some f →
  store_mAwaitingCoroutine (E:=E) c h w
  = Normal (tt,
            log (EvStoreLink c h)
              (put_frame c (rebase (set_mAwaitingCoroutine h (promise_base (promise f))) f) w)).
Proof.
  intros Hf. unfold store_mAwaitingCoroutine, bind.
  rewrite (load_base_eq _ _ _ Hf), (store_base_eq _ _ _ _ Hf). done.
Qed.

Lemma mark_done_eq w c f :
  frames w !! c = Some f →
  mark_done (E:=E) c w = Normal (tt, put_frame c (MkFrame (promise f) true) w).
Proof. intros Hf. unfold mark_done. by rewrite Hf. Qed.

Lemma TaskFinalSuspend_await_suspend_eq w c f self :
  frames w !! c = Some f →
  TaskFinalSuspend_await_suspend run_coroutine self (Some c) w
  = let w1 := log (EvExchange c (flag_of f))
                (put_frame c
                   (rebase (set_mResumeAwaiter true (promise_base (promise f))) f) w) in
    if flag_of f then handle_resume (E:=E) run_coroutine (link_of f) w1
    else Normal (tt, w1).
Proof.
  intros Hf. unfold TaskFinalSuspend_await_suspend, bind.
  rewrite (exchange_eq _ _ _ _ Hf).
  destruct (flag_of f) eqn:Hflag; [|done].
  cbn zeta. erewrite load_base_eq by apply frames_put_frame.
  cbn. by rewrite promise_base_with_base.
Qed.

Lemma co_await_final_suspend_eq w c f :
  frames w !! c = Some f →
  co_await_final_suspend run_coroutine c w
  = if flag_of f then handle_resume (E:=E) run_coroutine (link_of f) (producer_arrived c f w)
    else Normal (tt, producer_arrived c f w).
Proof.
  intros Hf. unfold co_await_final_suspend, final_suspend, bind.
  rewrite (load_base_eq _ _ _ Hf). cbn [ret TaskFinalSuspend_await_ready].
  rewrite (mark_done_eq _ _ _ Hf).
  erewrite TaskFinalSuspend_await_suspend_eq by apply frames_put_frame.
  cbn [promise done]. unfold producer_arrived. by rewrite put_frame_twice.
Qed.

Lemma handle_resume_events w w' h :
  handle_resume (E:=E) run_coroutine h w = Normal (tt, w') →
  ∃ k, h = Some k ∧ trace w' = trace w ++ [EvResume k].
Proof.
  unfold handle_resume. destruct h as [k|]; [|done].
  destruct (finished k w); [done|]. intros [= <-]. eauto.
Qed.
Lemma setAwaitingCoroutine_eq w c f h :
  frames w !! c = Some f →
  setAwaitingCoroutine (E:=E) c h w
  = Normal (negb (flag_of f),
            log (EvExchange c (flag_of f))
              (log (EvStoreLink c h)
                 (put_frame c
                    (rebase (set_mResumeAwaiter true
                               (promise_base
                                  (promise_with_base
                                     (set_mAwaitingCoroutine h (promise_base (promise f)))
                                     (promise f))))
                       (rebase (set_mAwaitingCoroutine h (promise_base (promise f))) f))
                    w))).
Proof.
  intros Hf. unfold setAwaitingCoroutine, bind.
  rewrite (store_link_eq _ _ _ _ Hf).
  erewrite exchange_eq by apply frames_put_frame.
  cbn [promise done]. rewrite promise_base_with_base.
  cbn [mResumeAwaiter set_mAwaitingCoroutine ret]. f_equal. f_equal.
  unfold log, put_frame, with_trace, with_frames. cbn.
  by rewrite insert_insert_eq.
Qed.

Lemma await_ready_false_inv (aw : TaskAwaiter) w w' :
  await_ready (E:=E) aw w = Normal (false, w') →
  ∃ c f, mAwaitedCoroutine aw = Some c ∧ frames w !! c = Some f ∧ done f = false ∧ w' = w.
Proof.
  unfold await_ready, handle_done. destruct (mAwaitedCoroutine aw) as [c|]; [|done].
  cbn. destruct (frames w !! c) as [f|] eqn:Hf; [|done].
  intros [= Hd <-]. by exists c, f.
Qed.

(** C2: the completion path. Once the result is stored, the coroutine
    [c] makes exactly one exchange, which leaves the flag [true]; it calls
    [resume()] on the stored link if that exchange saw [true], and does
    nothing more if it saw [false]. *)
Theorem completion_path_rendezvous w c f :
  frames w !! c = Some f →
  let old := flag_of f in
  let w1 := producer_arrived c f w in
  co_await_final_suspend run_coroutine c w
  = (if old then handle_resume (E:=E) run_coroutine (link_of f) w1 else Normal (tt, w1))
  ∧ load_base (E:=E) c w1
    = Normal ({| mAwaitingCoroutine := link_of f; mResumeAwaiter := true |}, w1)
  ∧ trace w1 = trace w ++ [EvExchange c old]
  ∧ (∀ k, old = true → link_of f = Some k → finished k w1 = false →
       co_await_final_suspend (E:=E) run_coroutine c w
       = Normal (tt, with_trace (trace w ++ [EvExchange c true; EvResume k])
                       (run_coroutine k w1)))
  ∧ (∀ w', co_await_final_suspend (E:=E) run_coroutine c w = Normal (tt, w') →
       count_events is_exchange (new_events w w') = 1
       ∧ (count_events is_resume (new_events w w') = if old then 1 else 0)
       ∧ (∀ k, EvResume k ∈ new_events w w' → old = true ∧ link_of f = Some k)
       ∧ (old = false → w' = w1)).
Proof.
  intros Hf old w1.
  assert (Htr1 : trace w1 = trace w ++ [EvExchange c old]) by done.
  split_and!.
  - by apply co_await_final_suspend_eq.
  - erewrite load_base_eq by apply frames_put_frame.
    cbn [promise]. by rewrite promise_base_with_base.
  - done.
  - intros k Hold Hlink Hfin. rewrite (co_await_final_suspend_eq _ _ _ Hf).
    fold old w1. rewrite Hold, Hlink. unfold handle_resume. rewrite Hfin.
    do 2 f_equal. unfold with_trace. rewrite Htr1, Hold, <-app_assoc. done.
  - intros w' Hrun. rewrite (co_await_final_suspend_eq _ _ _ Hf) in Hrun.
    fold old w1 in Hrun. destruct old eqn:Hold.
    + apply handle_resume_events in Hrun as (k & Hk & Htr).
      rewrite Htr1, <-app_assoc in Htr. cbn [app] in Htr.
      rewrite (new_events_app _ _ _ Htr).
      split_and!; [done|done| |done].
      intros k' Hin. split; [done|].
      apply elem_of_cons in Hin as [?|Hin]; [done|].
      apply list_elem_of_singleton in Hin as [= ->]. done.
    + injection Hrun as <-. rewrite (new_events_app _ _ _ Htr1).
      split_and!; [done|done| |done].
      intros k' Hin. apply list_elem_of_singleton in Hin. done.
Qed.

(** C3: the attach operation. When the pre-check on the awaiter of [c]
    has not reported ready, [await_suspend] (after resuming [c], which
    leaves a frame [f'] for it) stores the handle [h] of the consumer
    into the link, then makes the exchange, which leaves the flag [true];
    it returns [true] exactly when that exchange saw [false]. *)
Theorem attach_stores_then_exchanges w c rv h f' :
  await_ready (E:=E) (MkAwaiter (Some c) rv) w = Normal (false, w) →
  frames (run_coroutine c w) !! c = Some f' →
  let old := flag_of f' in
  ∃ w2,
    await_suspend (E:=E) run_coroutine (MkAwaiter (Some c) rv) h w = Normal (negb old, w2)
    ∧ new_events w w2 = [EvResume c; EvStoreLink c h; EvExchange c old]
    ∧ load_base (E:=E) c w2
      = Normal ({| mAwaitingCoroutine := h; mResumeAwaiter := true |}, w2)
    ∧ (∀ suspend w2', await_suspend (E:=E) run_coroutine (MkAwaiter (Some c) rv) h w
                      = Normal (suspend, w2') →
         (suspend = true ↔ old = false) ∧ (suspend = false ↔ old = true)).
Proof.
  intros Hready Hf' old.
  apply await_ready_false_inv in Hready as (c' & f & [= <-] & Hf & Hdone & _).
  unfold await_suspend, bind. cbn [mAwaitedCoroutine].
  unfold handle_resume. unfold finished. rewrite Hf, Hdone.
  set (wr := with_trace _ _).
  assert (Hwr : frames wr !! c = Some f') by done.
  rewrite (setAwaitingCoroutine_eq _ _ _ _ Hwr). fold old.
  eexists. split_and!.
  - reflexivity.
  - apply new_events_app. cbn. by rewrite <-!app_assoc.
  - erewrite load_base_eq by apply frames_put_frame.
    cbn [promise]. by rewrite !promise_base_with_base.
  - intros suspend w2' [= <- _]. destruct old; naive_solver.
Qed.

(** The same for [setAwaitingCoroutine] alone. *)
Lemma setAwaitingCoroutine_spec w c f h :
  frames w !! c = Some f →
  ∃ w2,
    setAwaitingCoroutine (E:=E) c h w = Normal (negb (flag_of f), w2)
    ∧ new_events w w2 = [EvStoreLink c h; EvExchange c (flag_of f)]
    ∧ load_base (E:=E) c w2
      = Normal ({| mAwaitingCoroutine := h; mResumeAwaiter := true |}, w2).
Proof.
  intros Hf. rewrite (setAwaitingCoroutine_eq _ _ _ _ Hf). eexists. split_and!.
  - reflexivity.
  - apply new_events_app. cbn. by rewrite <-!app_assoc.
  - erewrite load_base_eq by apply frames_put_frame.
    cbn [promise]. by rewrite !promise_base_with_base.
Qed.
End HandshakeFacts.

(** ** Readiness, the awaiter of an unbound task, the eager start *)

Section AwaiterFacts.
Context {E P : Type} `{PT : !PromiseType E P}.
Variable run_coroutine : addr → World P → World P.
Implicit Types (w : World P) (f : Frame P) (c : addr) (h mine : coroutine_handle).

Lemma load_mCoroutine_eq w this mine :
  objects w !! this = Some mine →
  load_mCoroutine (E:=E) this w = Normal (mine, w).
Proof. intros Ho. unfold load_mCoroutine. by rewrite Ho. Qed.

Lemma await_ready_true_iff w mine rv :
  await_ready (E:=E) (MkAwaiter mine rv) w = Normal (true, w) ↔ absent_or_finished mine w.
Proof.
  unfold await_ready, absent_or_finished, handle_done. cbn [mAwaitedCoroutine].
  destruct mine as [c|]; cbn.
  - destruct (frames w !! c) as [f|] eqn:Hf.
    + split.
      * intros [= Hd]. right. by exists c, f.
      * intros [|(c' & f' & [= <-] & Hf' & Hd)]; [done|].
        rewrite Hf in Hf'. injection Hf' as <-. by rewrite Hd.
    + split; [done|]. intros [|(c' & f' & [= <-] & Hf' & _)]; [done|].
      by rewrite Hf in Hf'.
  - split; [by left|done].
Qed.

Lemma Task_isReady_await_ready w this mine rv :
  objects w !! this = Some mine →
  Task_isReady (E:=E) this w = await_ready (MkAwaiter mine rv) w.
Proof.
  intros Ho. unfold Task_isReady, bind. by rewrite (load_mCoroutine_eq _ _ _ Ho).
Qed.

(** When the pre-check says ready, [co_await] is [await_resume] alone. *)
Lemma co_await_ready QT_NO_DEBUG w (aw : TaskAwaiter) h :
  await_ready (E:=E) aw w = Normal (true, w) →
  co_await run_coroutine QT_NO_DEBUG aw h w
  = (call v <- await_resume QT_NO_DEBUG aw in ret (Some v)) w.
Proof. intros Hr. unfold co_await at 1, bind at 1. by rewrite Hr. Qed.

Lemma await_ready_answer w mine rv (b : bool) w' :
  await_ready (E:=E) (MkAwaiter mine rv) w = Normal (b, w') →
  w' = w ∧ (b = true ↔ absent_or_finished mine w).
Proof.
  unfold await_ready, absent_or_finished, handle_done. cbn [mAwaitedCoroutine].
  destruct mine as [c|]; cbn.
  - destruct (frames w !! c) as [f|] eqn:Hf; [|done].
    intros [= <- <-]. split; [done|]. split.
    + intros Hd. right. by exists c, f.
    + intros [|(c' & f' & [= <-] & Hf' & Hd)]; [done|]. congruence.
  - intros [= <- <-]. split; [done|]. split; [by left|done].
Qed.

Lemma await_ready_defined w mine rv :
  handle_live mine w →
  ∃ b, await_ready (E:=E) (MkAwaiter mine rv) w = Normal (b, w).
Proof.
  unfold await_ready, handle_done. cbn [mAwaitedCoroutine].
  destruct mine as [c|]; cbn; [|by eexists].
  intros [f Hf]. rewrite Hf. by eexists.
Qed.

(** Reading the result of frame [c]: the value, and the world in which it
    has been copied or moved out of the cell. *)
Lemma await_resume_finished QT_NO_DEBUG w c f rv :
  frames w !! c = Some f →
  await_resume QT_NO_DEBUG (MkAwaiter (Some c) rv) w
  = lift_outcome (promise_result (promise f)) (after_read rv c w).
Proof.
  intros Hf. unfold await_resume, bind, Q_ASSERT, handle_promise, ret, after_read.
  cbn [mAwaitedCoroutine handle_bool by_rvalue].
  destruct QT_NO_DEBUG; rewrite Hf; unfold lift_outcome;
    destruct (promise_result (promise f)); try done;
    destruct rv; try done; unfold update_promise; by rewrite Hf.
Qed.

Lemma await_resume_normal QT_NO_DEBUG (aw : TaskAwaiter) w v w' :
  await_resume QT_NO_DEBUG aw w = Normal (v, w') →
  ∃ c f, mAwaitedCoroutine aw = Some c ∧ frames w !! c = Some f
         ∧ promise_result (promise f) = Normal v
         ∧ w' = after_read (by_rvalue aw) c w.
Proof.
  destruct aw as [[c|] rv].
  - destruct (frames w !! c) as [f|] eqn:Hf.
    + rewrite (await_resume_finished _ _ _ _ _ Hf). unfold lift_outcome.
      destruct (promise_result (promise f)) eqn:Hr; try done.
      intros [= <- <-]. by exists c, f.
    + unfold await_resume, bind, Q_ASSERT, handle_promise, ret.
      cbn [mAwaitedCoroutine handle_bool]. destruct QT_NO_DEBUG; by rewrite Hf.
  - unfold await_resume, bind, Q_ASSERT, handle_promise, ret.
    cbn [mAwaitedCoroutine handle_bool]. by destruct QT_NO_DEBUG.
Qed.

(** A read changes, at most, the value in the cell of frame [c]: the trace,
    the objects, and the flag, the link and the done mark of every frame
    stay as they were. *)
Lemma after_read_keeps rv c w :
  trace (after_read rv c w) = trace w
  ∧ objects (after_read rv c w) = objects w
  ∧ (∀ c', (λ f, (promise_base (promise f), done f)) <$> frames (after_read rv c w) !! c'
           = (λ f, (promise_base (promise f), done f)) <$> frames w !! c')
  ∧ (rv = false → after_read rv c w = w).
Proof.
  unfold after_read. destruct rv; [|done].
  destruct (frames w !! c) as [f|] eqn:Hf; [|done].
  split_and!; [done|done| |done].
  intros c'. cbn. destruct (decide (c = c')) as [<-|Hne].
  - rewrite lookup_insert_eq, Hf. cbn. by rewrite promise_base_moved_out.
  - by rewrite lookup_insert_ne.
Qed.

(** C6: readiness. [Task::isReady] and the pre-check [await_ready] of the
    awaiter made by [operator co_await] are the same computation; they
    change nothing, they answer for every handle that is null or points
    to a live frame, and the answer is [true] exactly when the task holds
    no coroutine or holds a finished one. When the pre-check answers
    [true], [co_await] goes straight to [await_resume]: the awaiting
    coroutine does not suspend, no event is recorded (no link stored, no
    exchange, no resume), and the objects and the flag, link and done mark
    of every frame are as before; what may change is the value in the
    cell, moved out by the awaiter of the [const &&] overload. *)
Theorem task_readiness QT_NO_DEBUG w this mine rv h :
  objects w !! this = Some mine →
  Task_co_await (E:=E) this rv w = Normal (MkAwaiter mine rv, w)
  ∧ Task_isReady (E:=E) this w = await_ready (MkAwaiter mine rv) w
  ∧ (Task_isReady (E:=E) this w = Normal (true, w) ↔ absent_or_finished mine w)
  ∧ (await_ready (E:=E) (MkAwaiter mine rv) w = Normal (true, w)
     ↔ absent_or_finished mine w)
  ∧ (∀ b w', Task_isReady (E:=E) this w = Normal (b, w') →
       w' = w ∧ (b = true ↔ absent_or_finished mine w))
  ∧ (∀ b w', await_ready (E:=E) (MkAwaiter mine rv) w = Normal (b, w') →
       w' = w ∧ (b = true ↔ absent_or_finished mine w))
  ∧ (handle_live mine w →
       ∃ b, Task_isReady (E:=E) this w = Normal (b, w)
            ∧ await_ready (E:=E) (MkAwaiter mine rv) w = Normal (b, w)
            ∧ (b = true ↔ absent_or_finished mine w))
  ∧ (absent_or_finished mine w →
       co_await run_coroutine QT_NO_DEBUG (MkAwaiter mine rv) h w
       = (call v <- await_resume QT_NO_DEBUG (MkAwaiter mine rv) in ret (Some v)) w
       ∧ (∀ r w', co_await run_coroutine QT_NO_DEBUG (MkAwaiter mine rv) h w = Normal (r, w') →
            is_Some r
            ∧ new_events w w' = []
            ∧ count_events is_handshake (new_events w w') = 0
            ∧ objects w' = objects w
            ∧ (∀ c', (λ f, (promise_base (promise f), done f)) <$> frames w' !! c'
                     = (λ f, (promise_base (promise f), done f)) <$> frames w !! c')
            ∧ (rv = false → w' = w)
            ∧ (∀ c, mine = Some c → w' = after_read rv c w))
       ∧ (∀ c f, mine = Some c → frames w !! c = Some f →
            co_await run_coroutine QT_NO_DEBUG (MkAwaiter mine rv) h w
            = (call v <- lift_outcome (promise_result (promise f)) in ret (Some v))
                (after_read rv c w))).
Proof.
  intros Ho.
  pose proof (Task_isReady_await_ready w this mine rv Ho) as Heq.
  split_and!.
  - unfold Task_co_await, bind. by rewrite (load_mCoroutine_eq _ _ _ Ho).
  - done.
  - rewrite Heq. apply await_ready_true_iff.
  - apply await_ready_true_iff.
  - intros b w'. rewrite Heq. apply await_ready_answer.
  - intros b w'. apply await_ready_answer.
  - intros Hlive. destruct (await_ready_defined w mine rv Hlive) as [b Hb].
    exists b. split_and!; [by rewrite Heq|done|].
    by destruct (await_ready_answer _ _ _ _ _ Hb).
  - intros Hready. apply (await_ready_true_iff w mine rv) in Hready.
    rewrite (co_await_ready _ _ _ _ Hready). split_and!.
    + done.
    + intros r w'. unfold bind at 1.
      destruct (await_resume _ _ w) as [[v w1]| | |] eqn:Hres; try done.
      apply await_resume_normal in Hres as (c & f & Hc & Hf & Hr & ->).
      cbn [mAwaitedCoroutine by_rvalue] in Hc. intros [= <- <-].
      destruct (after_read_keeps rv c w) as (Htr & Hobj & Hfr & Hsame).
      assert (Hev : new_events w (after_read rv c w) = []).
      { unfold new_events. by rewrite Htr, drop_all. }
      split_and!; [by eexists|done|by rewrite Hev|done|done|done|].
      intros c0 Hc0. congruence.
    + intros c f -> Hf. unfold bind.
      rewrite (await_resume_finished _ _ _ _ _ Hf). unfold lift_outcome.
      by destruct (promise_result (promise f)).
Qed.

(** C9: the awaiter of an unbound task. For a [Task] that holds no
    coroutine, both overloads of [operator co_await] give an awaiter whose
    [await_ready] answers [true]; the condition asserted by
    [await_resume] is then false, so the call fails its [Q_ASSERT] (and
    dereferences a null handle where [Q_ASSERT] is compiled out): the
    absent computation is reported ready and no result is obtained. *)
Theorem unbound_task_ready_without_result w this rv h :
  objects w !! this = Some None →
  Task_co_await (E:=E) this rv w = Normal (MkAwaiter None rv, w)
  ∧ await_ready (E:=E) (MkAwaiter None rv) w = Normal (true, w)
  ∧ handle_bool (mAwaitedCoroutine (MkAwaiter None rv)) = false
  ∧ await_resume false (MkAwaiter None rv) w = AssertFailed
  ∧ await_resume true (MkAwaiter None rv) w = Undefined
  ∧ co_await run_coroutine false (MkAwaiter None rv) h w = AssertFailed
  ∧ co_await run_coroutine true (MkAwaiter None rv) h w = Undefined
  ∧ (∀ QT_NO_DEBUG,
       is_normal (co_await run_coroutine QT_NO_DEBUG (MkAwaiter None rv) h w) = false).
Proof.
  intros Ho. split_and!; try done.
  - unfold Task_co_await, bind. by rewrite (load_mCoroutine_eq _ _ _ Ho).
  - by intros [].
Qed.

Lemma Task_ctor_unbound w this :
  objects w !! this = None →
  ∃ w', Task_ctor (E:=E) this w = Normal (tt, w') ∧ objects w' !! this = Some None.
Proof.
  intros Ho. unfold Task_ctor, begin_lifetime. rewrite Ho.
  eexists; split; [done|]. cbn. apply lookup_insert_eq.
Qed.

(** C7: the eager start. [initial_suspend] gives an awaiter that is always
    ready, so a call of a coroutine runs its body (up to the first
    suspension point) before the [Task] reaches the caller; nobody has to
    await the task for that. *)
Theorem eager_start w return_slot :
  objects w !! return_slot = None →
  let c := next_frame w in
  (∀ b, suspend_never_await_ready (initial_suspend b) = true)
  ∧ ∃ wr,
      coroutine_ramp (E:=E) return_slot w = Normal (c, wr)
      ∧ frames wr !! c = Some (MkFrame promise_init false)
      ∧ objects wr !! return_slot = Some (Some c)
      ∧ trace wr = trace w
      ∧ coroutine_call (E:=E) run_coroutine return_slot w
        = Normal (c, log (EvReturnToCaller c)
                       (with_trace (trace w ++ [EvUserCode c]) (run_coroutine c wr)))
      ∧ (∀ w', coroutine_call (E:=E) run_coroutine return_slot w = Normal (c, w') →
           new_events w w' = [EvUserCode c; EvReturnToCaller c]).
Proof.
  intros Ho c. split; [done|].
  unfold coroutine_call, coroutine_ramp, get_return_object, Task_ctor_handle.
  unfold bind, new_frame, begin_lifetime. cbn. rewrite Ho. cbn.
  eexists. split_and!.
  - reflexivity.
  - cbn. apply lookup_insert_eq.
  - cbn. apply lookup_insert_eq.
  - done.
  - unfold load_base. cbn. rewrite lookup_insert_eq. done.
  - unfold load_base. cbn. rewrite lookup_insert_eq. cbn.
    intros w' [= <-]. apply new_events_app. cbn. by rewrite <-app_assoc.
Qed.
End AwaiterFacts.

(** ** Ownership of the frame by [Task] objects *)

Section OwnershipFacts.
Context {E P : Type} `{PT : !PromiseType E P}.
Implicit Types (w : World P) (this other : loc) (c d : addr).
Implicit Types (mine theirs : coroutine_handle) (o : gmap loc coroutine_handle).

Lemma objects_released mine w : objects (released mine w) = objects w.
Proof. by destruct mine. Qed.

Lemma next_frame_released mine w : next_frame (released mine w) = next_frame w.
Proof. by destruct mine. Qed.

Lemma release_eq w mine :
  handle_live mine w →
  (if handle_bool mine then handle_destroy (E:=E) mine else ret tt) w
  = Normal (tt, released mine w).
Proof.
  destruct mine as [d|]; cbn; [|done]. intros [f Hf]. by rewrite Hf.
Qed.

Lemma release_inv w mine (u : unit) w' :
  (if handle_bool mine then handle_destroy (E:=E) mine else ret tt) w = Normal (u, w') →
  handle_live mine w.
Proof.
  destruct mine as [d|]; cbn; [|done].
  destruct (frames w !! d) eqn:Hf; [by eexists|done].
Qed.

(** *** What each operation does *)

Lemma Task_ctor_eq w this :
  objects w !! this = None →
  Task_ctor (E:=E) this w = Normal (tt, with_objects (<[this := None]> (objects w)) w).
Proof. intros Ho. unfold Task_ctor, begin_lifetime. by rewrite Ho. Qed.

Lemma coroutine_ramp_eq w return_slot :
  objects w !! return_slot = None →
  coroutine_ramp (E:=E) return_slot w
  = Normal (next_frame w,
            {| frames := <[next_frame w := MkFrame promise_init false]> (frames w);
               objects := <[return_slot := Some (next_frame w)]> (objects w);
               next_frame := S (next_frame w);
               trace := trace w |}).
Proof.
  intros Ho. unfold coroutine_ramp, get_return_object, Task_ctor_handle.
  unfold bind, new_frame, begin_lifetime. cbn. by rewrite Ho.
Qed.

Lemma Task_move_ctor_eq w this other theirs :
  objects w !! this = None →
  objects w !! other = Some theirs →
  Task_move_ctor (E:=E) this other w
  = Normal (tt, with_objects (<[other := None]> (<[this := theirs]> (objects w))) w).
Proof.
  intros Hthis Hother. unfold Task_move_ctor, bind, load_mCoroutine.
  rewrite Hother. unfold begin_lifetime. rewrite Hthis.
  unfold store_mCoroutine. cbn.
  rewrite lookup_insert_ne by congruence. by rewrite Hother.
Qed.

Lemma Task_move_assign_eq w this other mine theirs :
  objects w !! this = Some mine →
  objects w !! other = Some theirs →
  handle_live mine w →
  Task_move_assign (E:=E) this other w
  = Normal (tt, with_objects (<[other := None]> (<[this := theirs]> (objects w)))
                  (released mine w)).
Proof.
  intros Hthis Hother Hlive. unfold Task_move_assign, bind at 1, load_mCoroutine at 1.
  rewrite Hthis. unfold bind at 1. rewrite (release_eq _ _ Hlive).
  unfold bind, load_mCoroutine, store_mCoroutine.
  rewrite objects_released, Hother. cbn beta iota.
  rewrite objects_released, Hthis. cbn beta iota.
  cbn [objects with_objects].
  destruct (decide (this = other)) as [->|Hne].
  - by rewrite lookup_insert_eq.
  - by rewrite lookup_insert_ne, Hother.
Qed.

Lemma Task_dtor_eq w this mine :
  objects w !! this = Some mine →
  handle_live mine w →
  Task_dtor (E:=E) this w
  = Normal (tt, with_objects (delete this (objects w)) (released mine w)).
Proof.
  intros Hthis Hlive. unfold Task_dtor, bind at 1, load_mCoroutine.
  rewrite Hthis. unfold bind. rewrite (release_eq _ _ Hlive).
  unfold end_lifetime. rewrite objects_released, Hthis. by destruct mine.
Qed.

(** *** The invariant *)

Lemma empty_world_invariant : ownership_invariant (empty_world (P:=P)).
Proof.
  split.
  - intros l1 l2 c H1. unfold owns in H1. cbn in H1. by rewrite lookup_empty in H1.
  - intros l c H1. unfold owns in H1. cbn in H1. by rewrite lookup_empty in H1.
  - intros c [f Hf]. cbn in Hf. by rewrite lookup_empty in Hf.
  - intros c Hin. cbn in Hin. by apply elem_of_nil in Hin.
  - intros c. cbn. lia.
Qed.

(** Frames are released and handles are moved between objects: the
    invariant survives as long as the new object store holds only handles
    that were owned before, each once, and none to the released frame. *)
Lemma invariant_transfer w o' mine :
  ownership_invariant w →
  (mine = None ∨ ∃ l d, mine = Some d ∧ owns w l d) →
  (∀ l1 l2 c, o' !! l1 = Some (Some c) → o' !! l2 = Some (Some c) → l1 = l2) →
  (∀ l c, o' !! l = Some (Some c) → (∃ l0, owns w l0 c) ∧ mine ≠ Some c) →
  ownership_invariant (with_objects o' (released mine w)).
Proof.
  intros [I1 I2 I3 I4 I5] Hmine Hinj Hold.
  assert (Hfr : ∀ c, mine ≠ Some c →
            frames (released mine w) !! c = frames w !! c).
  { intros c Hc. destruct mine as [d|]; [|done]. cbn.
    apply lookup_delete_ne. congruence. }
  assert (Hsub : ∀ c, is_Some (frames (released mine w) !! c) → is_Some (frames w !! c)).
  { intros c. destruct mine as [d|]; [|done]. cbn.
    destruct (decide (d = c)) as [->|Hne].
    - rewrite lookup_delete_eq. by intros [? ?].
    - by rewrite lookup_delete_ne. }
  split.
  - intros l1 l2 c. unfold owns. cbn. apply Hinj.
  - intros l c Hown. unfold owns in Hown. cbn in Hown.
    destruct (Hold _ _ Hown) as [[l0 Hl0] Hne].
    cbn. rewrite Hfr by done. by eapply I2.
  - intros c Hc. cbn in Hc |- *. rewrite next_frame_released. apply I3, Hsub, Hc.
  - intros c. cbn. rewrite next_frame_released.
    destruct Hmine as [->|(l & d & -> & Hown)]; [apply I4|].
    cbn. intros Hin. apply elem_of_app in Hin as [Hin|Hin].
    + destruct (I4 c Hin) as [Hnone Hlt]. split; [|done].
      destruct (decide (d = c)) as [->|Hne];
        [apply lookup_delete_eq|by rewrite lookup_delete_ne].
    + apply list_elem_of_singleton in Hin as [= ->].
      split; [apply lookup_delete_eq|]. eapply I3, I2, Hown.
  - intros c.
    change (trace (with_objects o' (released mine w))) with (trace (released mine w)).
    destruct Hmine as [->|(l & d & -> & Hown)]; [apply I5|].
    change (trace (released (Some d) w)) with (trace w ++ [EvDestroy d]).
    rewrite count_events_app, count_events_singleton. cbn [is_destroy_of].
    destruct (decide (d = c)) as [->|Hne].
    + rewrite not_destroyed_count; [by rewrite bool_decide_eq_true_2|].
      intros Hin. destruct (I4 c Hin) as [Hnone _].
      destruct (I2 _ _ Hown) as [f Hf]. congruence.
    + rewrite bool_decide_eq_false_2 by done. specialize (I5 c). lia.
Qed.

Lemma owner_live_handle w this mine :
  ownership_invariant w → objects w !! this = Some mine → handle_live mine w.
Proof.
  intros Hinv Ho. destruct mine as [d|]; [|done]. cbn.
  eapply (inv_owned_live _ Hinv). apply Ho.
Qed.

Lemma owner_released w this mine :
  objects w !! this = Some mine →
  mine = None ∨ ∃ l d, mine = Some d ∧ owns w l d.
Proof. intros Ho. destruct mine as [d|]; [right|left]; eauto. Qed.

Lemma Task_ctor_invariant w this :
  ownership_invariant w → objects w !! this = None →
  ownership_invariant (with_objects (<[this := None]> (objects w)) w).
Proof.
  intros Hinv Ho.
  apply (invariant_transfer w _ None Hinv); [by left| |].
  - intros l1 l2 c H1 H2.
    apply lookup_insert_Some in H1 as [[_ ?]|[_ H1]]; [done|].
    apply lookup_insert_Some in H2 as [[_ ?]|[_ H2]]; [done|].
    eapply (inv_single_owner _ Hinv); [apply H1|apply H2].
  - intros l c H1. apply lookup_insert_Some in H1 as [[_ ?]|[_ H1]]; [done|].
    split; [by exists l|done].
Qed.

Lemma Task_dtor_invariant w this mine :
  ownership_invariant w → objects w !! this = Some mine →
  ownership_invariant (with_objects (delete this (objects w)) (released mine w)).
Proof.
  intros Hinv Ho.
  apply (invariant_transfer w _ mine Hinv); [by eapply owner_released| |].
  - intros l1 l2 c H1 H2.
    apply lookup_delete_Some in H1 as [_ H1]. apply lookup_delete_Some in H2 as [_ H2].
    eapply (inv_single_owner _ Hinv); [apply H1|apply H2].
  - intros l c H1. apply lookup_delete_Some in H1 as [Hne H1].
    split; [by exists l|]. intros ->. apply Hne.
    eapply (inv_single_owner _ Hinv); [apply Ho|apply H1].
Qed.

(** Moving [theirs] from [other] to [this]; [mine] is what [this] gives up. *)
Lemma moved_objects_owner w this other theirs l c :
  objects w !! other = Some theirs →
  <[other := None]> (<[this := theirs]> (objects w)) !! l = Some (Some c) →
  l ≠ other ∧ ((l = this ∧ owns w other c) ∨ (l ≠ this ∧ owns w l c)).
Proof.
  intros Hother Hl.
  apply lookup_insert_Some in Hl as [[_ ?]|[Hne Hl]]; [done|].
  split; [done|].
  apply lookup_insert_Some in Hl as [[-> ->]|[Hne' Hl]]; [by left|by right].
Qed.

Lemma Task_move_invariant w this other mine theirs :
  ownership_invariant w →
  objects w !! other = Some theirs →
  (objects w !! this = Some mine ∨ (objects w !! this = None ∧ mine = None)) →
  ownership_invariant
    (with_objects (<[other := None]> (<[this := theirs]> (objects w))) (released mine w)).
Proof.
  intros Hinv Hother Hthis.
  pose proof (inv_single_owner _ Hinv) as I1.
  apply (invariant_transfer w _ mine Hinv).
  - destruct Hthis as [Hthis|[_ ->]]; [by eapply owner_released|by left].
  - intros l1 l2 c H1 H2.
    apply (moved_objects_owner _ _ _ _ _ _ Hother) in H1 as [Hn1 H1].
    apply (moved_objects_owner _ _ _ _ _ _ Hother) in H2 as [Hn2 H2].
    destruct H1 as [[-> H1]|[Hnt1 H1]], H2 as [[-> H2]|[Hnt2 H2]]; try done.
    + by destruct (I1 _ _ _ H1 H2).
    + by destruct (I1 _ _ _ H1 H2).
    + by apply (I1 _ _ _ H1 H2).
  - intros l c Hl.
    apply (moved_objects_owner _ _ _ _ _ _ Hother) in Hl as [Hn [[-> Hl]|[Hnt Hl]]].
    + split; [by exists other|]. intros ->.
      destruct Hthis as [Hthis|[_ ?]]; [|done].
      by destruct (I1 _ _ _ Hl Hthis).
    + split; [by exists l|]. intros ->.
      destruct Hthis as [Hthis|[_ ?]]; [|done].
      by destruct (I1 _ _ _ Hl Hthis).
Qed.

Lemma coroutine_ramp_invariant w return_slot :
  ownership_invariant w → objects w !! return_slot = None →
  ownership_invariant
    {| frames := <[next_frame w := MkFrame promise_init false]> (frames w);
       objects := <[return_slot := Some (next_frame w)]> (objects w);
       next_frame := S (next_frame w);
       trace := trace w |}.
Proof.
  intros [I1 I2 I3 I4 I5] Ho.
  assert (Hfresh : ∀ l, ¬ owns w l (next_frame w)).
  { intros l Hown. apply I2, I3 in Hown. lia. }
  split.
  - intros l1 l2 c H1 H2. unfold owns in H1, H2. cbn in H1, H2.
    apply lookup_insert_Some in H1, H2.
    destruct H1 as [[<- H1]|[Hn1 H1]], H2 as [[<- H2]|[Hn2 H2]];
      simplify_eq; try done.
    + by destruct (Hfresh l2).
    + by destruct (Hfresh l1).
    + by apply (I1 _ _ _ H1 H2).
  - intros l c H1. unfold owns in H1. cbn in H1 |- *.
    apply lookup_insert_Some in H1 as [[<- [= <-]]|[Hn1 H1]].
    + rewrite lookup_insert_eq. by eexists.
    + destruct (decide (next_frame w = c)) as [<-|Hne]; [by destruct (Hfresh l)|].
      rewrite lookup_insert_ne by done. by eapply I2.
  - intros c. cbn. destruct (decide (next_frame w = c)) as [<-|Hne]; [lia|].
    rewrite lookup_insert_ne by done. intros Hc. apply I3 in Hc. lia.
  - intros c Hin. cbn in Hin |- *. destruct (I4 c Hin) as [Hnone Hlt].
    split; [|lia]. rewrite lookup_insert_ne by lia. done.
  - apply I5.
Qed.

(** Every operation that ends normally keeps the invariant. *)
Lemma exec_op_invariant w (op : TaskOp) (u : unit) w' :
  ownership_invariant w →
  exec_op (E:=E) op w = Normal (u, w') →
  ownership_invariant w'.
Proof.
  intros Hinv. destruct op as [this|slot|this other|this other|this]; cbn [exec_op].
  - destruct (objects w !! this) eqn:Ho.
    + unfold Task_ctor, begin_lifetime. by rewrite Ho.
    + rewrite (Task_ctor_eq _ _ Ho). intros [= <- <-]. by apply Task_ctor_invariant.
  - destruct (objects w !! slot) eqn:Ho.
    + unfold bind, coroutine_ramp, get_return_object, Task_ctor_handle.
      unfold bind, new_frame, begin_lifetime. cbn. by rewrite Ho.
    + unfold bind. rewrite (coroutine_ramp_eq _ _ Ho). intros [= <- <-].
      by apply coroutine_ramp_invariant.
  - destruct (objects w !! other) as [theirs|] eqn:Hother;
      [|unfold Task_move_ctor, bind, load_mCoroutine; by rewrite Hother].
    destruct (objects w !! this) eqn:Hthis.
    + unfold Task_move_ctor, bind, load_mCoroutine, begin_lifetime.
      by rewrite Hother, Hthis.
    + rewrite (Task_move_ctor_eq _ _ _ _ Hthis Hother). intros [= <- <-].
      apply (Task_move_invariant w this other None theirs Hinv Hother). by right.
  - destruct (objects w !! this) as [mine|] eqn:Hthis;
      [|unfold Task_move_assign, bind, load_mCoroutine; by rewrite Hthis].
    destruct (objects w !! other) as [theirs|] eqn:Hother.
    + rewrite (Task_move_assign_eq _ _ _ _ _ Hthis Hother)
        by (by eapply owner_live_handle).
      intros [= <- <-]. apply (Task_move_invariant w this other mine theirs Hinv Hother).
      by left.
    + unfold Task_move_assign, bind at 1, load_mCoroutine at 1. rewrite Hthis.
      unfold bind at 1. rewrite release_eq by (by eapply owner_live_handle).
      unfold bind, load_mCoroutine. by rewrite objects_released, Hother.
  - destruct (objects w !! this) as [mine|] eqn:Hthis;
      [|unfold Task_dtor, bind, load_mCoroutine; by rewrite Hthis].
    rewrite (Task_dtor_eq _ _ _ Hthis) by (by eapply owner_live_handle).
    intros [= <- <-]. by apply Task_dtor_invariant.
Qed.

Lemma exec_ops_invariant (ops : list TaskOp) w (u : unit) w' :
  ownership_invariant w →
  exec_ops (E:=E) ops w = Normal (u, w') →
  ownership_invariant w'.
Proof.
  revert w. induction ops as [|op ops IH]; intros w Hinv; cbn [exec_ops].
  - by intros [= <- <-].
  - unfold bind. destruct (exec_op op w) as [[[] w1]| | |] eqn:Hop; try done.
    apply IH. by eapply exec_op_invariant.
Qed.

(** A program that only uses the operations above never destroys a frame
    twice and never touches a destroyed frame: every operation on live
    objects, with constructors on free storage, ends normally. *)
Lemma exec_op_defined w (op : TaskOp) :
  ownership_invariant w →
  match op with
  | OpDefault this | OpCoroutine this => objects w !! this = None
  | OpMoveCtor this other =>
      objects w !! this = None ∧ is_Some (objects w !! other)
  | OpMoveAssign this other =>
      is_Some (objects w !! this) ∧ is_Some (objects w !! other)
  | OpDtor this => is_Some (objects w !! this)
  end →
  is_normal (exec_op (E:=E) op w) = true.
Proof.
  intros Hinv. destruct op as [this|slot|this other|this other|this]; cbn [exec_op].
  - intros Ho. by rewrite (Task_ctor_eq _ _ Ho).
  - intros Ho. unfold bind. by rewrite (coroutine_ramp_eq _ _ Ho).
  - intros [Hthis [theirs Hother]]. by rewrite (Task_move_ctor_eq _ _ _ _ Hthis Hother).
  - intros [[mine Hthis] [theirs Hother]].
    by rewrite (Task_move_assign_eq _ _ _ _ _ Hthis Hother)
      by (by eapply owner_live_handle).
  - intros [mine Hthis].
    by rewrite (Task_dtor_eq _ _ _ Hthis) by (by eapply owner_live_handle).
Qed.

Lemma live_not_destroyed w c :
  ownership_invariant w → is_Some (frames w !! c) →
  count_events (is_destroy_of c) (trace w) = 0.
Proof.
  intros Hinv [f Hf]. apply not_destroyed_count. intros Hin.
  destruct (inv_destroyed_gone _ Hinv c Hin) as [Hnone _]. congruence.
Qed.

(** Destroying a [Task] that holds no coroutine tears nothing down. *)
Lemma Task_dtor_unbound w this :
  objects w !! this = Some None →
  ∃ w', Task_dtor (E:=E) this w = Normal (tt, w')
        ∧ trace w' = trace w ∧ frames w' = frames w
        ∧ ∀ l, l ≠ this → objects w' !! l = objects w !! l.
Proof.
  intros Ho. rewrite (Task_dtor_eq _ _ None Ho) by done.
  eexists. split_and!; try done.
  intros l Hne. cbn. by apply lookup_delete_ne.
Qed.

(** Destroying the owner of [c] destroys the frame of [c], once. *)
Lemma Task_dtor_owner w this c :
  ownership_invariant w → owns w this c →
  ∃ w', Task_dtor (E:=E) this w = Normal (tt, w')
        ∧ trace w' = trace w ++ [EvDestroy c]
        ∧ frames w' = delete c (frames w)
        ∧ count_events (is_destroy_of c) (trace w') = 1.
Proof.
  intros Hinv Hown. pose proof (inv_owned_live _ Hinv _ _ Hown) as Hlive.
  rewrite (Task_dtor_eq _ _ (Some c) Hown) by done.
  eexists. split_and!; try done.
  change (trace _) with (trace w ++ [EvDestroy c]).
  rewrite count_events_app, count_events_singleton, (live_not_destroyed _ _ Hinv Hlive).
  cbn. by rewrite bool_decide_eq_true_2.
Qed.

(** C5: ownership. In any world [w] reached by the operations on [Task]
    objects (there is no copy among them), where [src] owns [c], [dst] is
    another task holding [mine], and [fresh] is free storage:
    - no frame has two owners, owned frames are alive and no frame has
      been destroyed twice, in [w] and after any further operations;
    - move construction and move assignment from [src] leave [src]
      unbound, so destroying [src] afterwards destroys nothing;
    - destroying the new owner destroys [c], which is then destroyed
      exactly once;
    - move assignment first destroys what [dst] held. *)
Theorem task_ownership (ops : list TaskOp) w (src dst fresh : loc) c mine :
  exec_ops (E:=E) ops empty_world = Normal (tt, w) →
  owns w src c →
  objects w !! dst = Some mine →
  dst ≠ src →
  objects w !! fresh = None →
  ownership_invariant w
  ∧ (∀ more w', exec_ops (E:=E) more w = Normal (tt, w') →
       single_owner w' ∧ owned_live w' ∧ destroyed_once w')
  ∧ (let w1 := with_objects (<[src := None]> (<[fresh := Some c]> (objects w))) w in
     Task_move_ctor (E:=E) fresh src w = Normal (tt, w1)
     ∧ objects w1 !! src = Some None ∧ owns w1 fresh c
     ∧ trace w1 = trace w ∧ frames w1 = frames w
     ∧ (∃ w2, Task_dtor (E:=E) src w1 = Normal (tt, w2)
              ∧ trace w2 = trace w1 ∧ frames w2 = frames w1 ∧ owns w2 fresh c)
     ∧ (∃ w3, Task_dtor (E:=E) fresh w1 = Normal (tt, w3)
              ∧ trace w3 = trace w1 ++ [EvDestroy c]
              ∧ frames w3 = delete c (frames w1)
              ∧ count_events (is_destroy_of c) (trace w3) = 1))
  ∧ (let w1 := with_objects (<[src := None]> (<[dst := Some c]> (objects w)))
                 (released mine w) in
     Task_move_assign (E:=E) dst src w = Normal (tt, w1)
     ∧ objects w1 !! src = Some None ∧ owns w1 dst c
     ∧ trace w1 = trace w ++ match mine with Some d => [EvDestroy d] | None => [] end
     ∧ frames w1 = match mine with Some d => delete d (frames w) | None => frames w end
     ∧ (∃ w2, Task_dtor (E:=E) src w1 = Normal (tt, w2)
              ∧ trace w2 = trace w1 ∧ frames w2 = frames w1 ∧ owns w2 dst c)
     ∧ (∃ w3, Task_dtor (E:=E) dst w1 = Normal (tt, w3)
              ∧ trace w3 = trace w1 ++ [EvDestroy c]
              ∧ frames w3 = delete c (frames w1)
              ∧ count_events (is_destroy_of c) (trace w3) = 1)).
Proof.
  intros Hreach Hsrc Hdst Hne Hfresh.
  assert (Hinv : ownership_invariant w).
  { eapply exec_ops_invariant; [apply empty_world_invariant|apply Hreach]. }
  assert (Hfs : fresh ≠ src) by (intros ->; unfold owns in Hsrc; congruence).
  split_and!.
  - done.
  - intros more w' Hmore. pose proof (exec_ops_invariant _ _ _ _ Hinv Hmore) as [].
    done.
  - intros w1.
    assert (Hinv1 : ownership_invariant w1).
    { apply (Task_move_invariant w fresh src None (Some c) Hinv Hsrc). by right. }
    assert (Hs1 : objects w1 !! src = Some None) by apply lookup_insert_eq.
    assert (Hf1 : owns w1 fresh c).
    { unfold owns, w1. cbn. rewrite lookup_insert_ne by done. apply lookup_insert_eq. }
    split_and!; try done.
    + by apply Task_move_ctor_eq.
    + destruct (Task_dtor_unbound _ _ Hs1) as (w2 & Hrun & Htr & Hfr & Hobj).
      exists w2. split_and!; try done. unfold owns. by rewrite Hobj.
    + by apply Task_dtor_owner.
  - intros w1.
    assert (Hinv1 : ownership_invariant w1).
    { apply (Task_move_invariant w dst src mine (Some c) Hinv Hsrc). by left. }
    assert (Hs1 : objects w1 !! src = Some None) by apply lookup_insert_eq.
    assert (Hd1 : owns w1 dst c).
    { unfold owns, w1. cbn. rewrite lookup_insert_ne by done. apply lookup_insert_eq. }
    split_and!; try done.
    + apply Task_move_assign_eq; [done|done|by eapply owner_live_handle].
    + unfold w1. destruct mine; cbn; by rewrite ?app_nil_r.
    + unfold w1. by destruct mine.
    + destruct (Task_dtor_unbound _ _ Hs1) as (w2 & Hrun & Htr & Hfr & Hobj).
      exists w2. split_and!; try done. unfold owns. by rewrite Hobj.
    + by apply Task_dtor_owner.
Qed.

(** C10: self move assignment. [t = std::move(t)] on a task that owns
    [c] first destroys the frame of [c] and then leaves [t] unbound: the
    frame and the result in it are gone, and [t] has nothing to await. *)
Theorem self_move_assign_destroys w this c f rv :
  owns w this c →
  frames w !! c = Some f →
  let w' := with_objects (<[this := None]> (objects w)) (released (Some c) w) in
  Task_move_assign (E:=E) this this w = Normal (tt, w')
  ∧ (call mine <- load_mCoroutine (E:=E) this in
     exec (if handle_bool mine then handle_destroy mine else ret tt) in
     load_mCoroutine this) w
    = Normal (Some c, released (Some c) w)
  ∧ trace w' = trace w ++ [EvDestroy c]
  ∧ frames w' = delete c (frames w)
  ∧ frames w' !! c = None
  ∧ objects w' !! this = Some None
  ∧ w' ≠ w
  ∧ Task_co_await (E:=E) this rv w' = Normal (MkAwaiter None rv, w')
  ∧ handle_promise (E:=E) (Some c) w' = Undefined.
Proof.
  intros Hown Hf w'.
  assert (Hlive : handle_live (Some c) w) by (by eexists).
  assert (Hnone : frames w' !! c = None) by apply lookup_delete_eq.
  assert (Hthis : objects w' !! this = Some None) by apply lookup_insert_eq.
  split_and!; try done.
  - rewrite (Task_move_assign_eq _ _ _ _ _ Hown Hown Hlive).
    unfold w'. by rewrite insert_insert_eq.
  - unfold bind, load_mCoroutine. rewrite Hown. cbn. rewrite Hf. cbn. by rewrite Hown.
  - intros Heq. rewrite Heq in Hnone. congruence.
  - unfold Task_co_await, bind. by rewrite (load_mCoroutine_eq _ _ _ Hthis).
  - unfold handle_promise. by rewrite Hnone.
Qed.
End OwnershipFacts.

(** ** The rendezvous under every interleaving *)

Section RendezvousFacts.
Import Rendezvous.
Context {E P : Type} `{PT : !PromiseType E P}.
Variable run_coroutine : addr → World P → World P.
Variables c h : addr.
Implicit Types (w : World P) (f : Frame P) (s : state P).

Local Abbreviation step := (step (E:=E) run_coroutine c h).
Local Abbreviation crashes := (crashes (E:=E) run_coroutine c h).
Local Abbreviation terminal := (terminal (E:=E) run_coroutine c h).
Local Abbreviation invariant := (invariant c h).

Lemma finished_put_frame w f :
  h ≠ c → finished h (put_frame c f w) = finished h w.
Proof. intros Hne. unfold finished. by rewrite frames_put_frame_ne. Qed.

Lemma producer_final_suspend_eq w f :
  frames w !! c = Some f →
  (call aw <- final_suspend (E:=E) c in exec mark_done c in ret aw) w
  = Normal (MkFinalSuspend (mAwaitingCoroutine (promise_base (promise f))),
            put_frame c (MkFrame (promise f) true) w).
Proof.
  intros Hf. unfold final_suspend, bind, ret.
  rewrite (load_base_eq _ _ _ Hf). cbn beta iota.
  by rewrite (mark_done_eq _ _ _ Hf).
Qed.

(** The steps of a thread, run without interruption, are the call they
    were cut from. *)
Lemma consumer_steps_are_setAwaitingCoroutine w pp :
  run_schedule (E:=E) run_coroutine c h [Consumer; Consumer] (MkState w pp CStore)
  = advance (setAwaitingCoroutine c (Some h) w)
      (λ suspend w', MkState w' pp (if suspend then CSuspended else CContinues)).
Proof.
  cbn. unfold setAwaitingCoroutine, bind.
  destruct (store_mAwaitingCoroutine c (Some h) w) as [[[] w1]| | |]; cbn; try done.
  unfold bind.
  by destruct (mResumeAwaiter_exchange c true w1) as [[[] w2]| | |].
Qed.

Lemma producer_steps_are_final_suspend w cp :
  run_schedule (E:=E) run_coroutine c h [Producer; Producer; Producer]
    (MkState w PFinalSuspend cp)
  = advance (co_await_final_suspend run_coroutine c w) (λ _ w', MkState w' PDone cp).
Proof.
  cbn. unfold co_await_final_suspend, TaskFinalSuspend_await_suspend, bind.
  destruct (final_suspend c w) as [[aw w1]| | |]; cbn; try done.
  destruct (mark_done c w1) as [[[] w2]| | |]; cbn; try done.
  destruct (mResumeAwaiter_exchange c true w2) as [[[] w3]| | |]; cbn; try done.
  unfold bind.
  destruct (load_base c w3) as [[b w4]| | |]; cbn; try done.
  by destruct (handle_resume run_coroutine (mAwaitingCoroutine b) w4) as [[[] w5]| | |].
Qed.

Lemma no_resume_of_h (tr : list event) :
  count_events is_resume tr = 0 → count_events (is_resume_of h) tr = 0.
Proof.
  intros H0.
  assert (count_events (is_resume_of h) tr ≤ count_events is_resume tr) as Hle
    by (apply count_events_mono; by intros []).
  lia.
Qed.

Lemma initial_invariant w0 f awaited :
  frames w0 !! c = Some f →
  mResumeAwaiter (promise_base (promise f)) = false →
  finished h w0 = false →
  invariant w0 awaited (initial w0 awaited).
Proof.
  intros Hf Hflag Hfin. exists []. split_and!.
  - by rewrite app_nil_r.
  - by destruct awaited.
  - assert (resumed (initial w0 awaited) = false) as -> by (by destruct awaited).
    split; [done|]. exists f. split; try done; by destruct awaited.
Qed.

(** The side conditions of [before_resume] after a step on frame [c]. *)
Local Ltac before_resume_holds :=
  split; cbn [shared ppc cpc];
  [ apply lookup_insert_eq
  | cbn; rewrite ?promise_base_with_base; cbn; try done
  | intros ?; cbn; rewrite ?promise_base_with_base; cbn; auto
  | match goal with
    | Hfin : finished _ _ = false, Hne : _ ≠ _ |- _ =>
        rewrite <-Hfin; by apply finished_put_frame
    end
  | let Hx := fresh in intros Hx; try done;
    match goal with Hres : _ = PResume → _ |- _ => by specialize (Hres Hx) end
  | let Hx := fresh in intros Hx; try done;
    match goal with Hcont : _ = CContinues → _ |- _ => by specialize (Hcont Hx) end ].

(** One step of either thread, from a state that satisfies the invariant:
    the step ends normally, the invariant holds again, and fewer steps
    are left. *)
Lemma invariant_thread_step w0 awaited s (t : thread) :
  h ≠ c →
  invariant w0 awaited s →
  match thread_step (E:=E) run_coroutine c h t s with
  | None => True
  | Some (Normal s') => invariant w0 awaited s' ∧ steps_left s' < steps_left s
  | Some _ => False
  end.
Proof.
  destruct s as [w pp cp]. intros Hne (evs & Htr & Habs & Hcase). cbn in Htr, Habs.
  destruct t; unfold thread_step, producer_step, consumer_step; cbn [ppc cpc shared].
  - (* the producer *)
    destruct pp as [|aw| |]; [| | |done].
    + (* final_suspend() *)
      assert (resumed (MkState w PFinalSuspend cp) = false) as Hr by done.
      rewrite Hr in Hcase. destruct Hcase as [Hq [f [Hf Hflag Hlink Hfin Hres Hcont]]].
      cbn in Hf, Hflag, Hlink, Hfin, Hres, Hcont.
      rewrite (producer_final_suspend_eq _ _ Hf). cbn [advance]. split; [|cbn; lia].
      exists evs. split_and!; [done|done|]. cbn [resumed ppc cpc]. split; [done|].
      exists (MkFrame (promise f) true). before_resume_holds.
    + (* the exchange of the producer *)
      assert (resumed (MkState w (PAwaitSuspend aw) cp) = false) as Hr by done.
      rewrite Hr in Hcase. destruct Hcase as [Hq [f [Hf Hflag Hlink Hfin Hres Hcont]]].
      cbn in Hf, Hflag, Hlink, Hfin, Hres, Hcont.
      rewrite (exchange_eq _ _ _ _ Hf). cbn [advance]. rewrite Hflag.
      set (f' := MkFrame _ _).
      assert (Hinv' : ∀ pp', pp' = PResume ∨ pp' = PDone →
                (pp' = PResume → cp = CSuspended) →
                (pp' = PDone → cp ≠ CSuspended) →
                invariant w0 awaited
                  (MkState (log (EvExchange c (consumer_exchanged cp)) (put_frame c f' w))
                     pp' cp)).
      { intros pp' Hpp' Hpr Hpd. exists (evs ++ [EvExchange c (consumer_exchanged cp)]).
        split_and!.
        - cbn. by rewrite Htr, app_assoc.
        - done.
        - assert (resumed (MkState (log (EvExchange c (consumer_exchanged cp))
                                      (put_frame c f' w)) pp' cp) = false) as ->.
          { destruct Hpp' as [-> | ->]; [done|]. cbn. specialize (Hpd eq_refl). by destruct cp. }
          split; [by rewrite count_events_app, Hq, count_events_singleton|].
          exists f'. before_resume_holds. by destruct Hpp' as [-> | ->]. }
      destruct cp; cbn [consumer_exchanged orb].
      * split; [apply (Hinv' PDone); [by right|done|done]|cbn; lia].
      * split; [apply (Hinv' PDone); [by right|done|done]|cbn; lia].
      * split; [apply (Hinv' PDone); [by right|done|done]|cbn; lia].
      * split; [apply (Hinv' PResume); [by left|done|done]|cbn; lia].
      * by specialize (Hcont eq_refl).
    + (* resume() *)
      destruct cp;
        try (by destruct Hcase as [_ [f [_ _ _ _ Hres _]]]; specialize (Hres eq_refl)).
      destruct Hcase as [Hq [f [Hf Hflag Hlink Hfin Hres Hcont]]].
      cbn in Hf, Hflag, Hlink, Hfin, Hres, Hcont.
      unfold bind. rewrite (load_base_eq _ _ _ Hf), (Hlink eq_refl).
      unfold handle_resume. rewrite Hfin. cbn [advance]. split; [|cbn; lia].
      exists (evs ++ [EvResume h]). split_and!.
      * cbn. by rewrite Htr, app_assoc.
      * done.
      * cbn [resumed ppc cpc].
        rewrite !count_events_app, !count_events_singleton, Hq, (no_resume_of_h _ Hq).
        cbn. by rewrite bool_decide_eq_true_2.
  - (* the consumer *)
    destruct cp; [done| | |done|done].
    + (* the store of the link *)
      assert (resumed (MkState w pp CStore) = false) as Hr by (by destruct pp).
      rewrite Hr in Hcase. destruct Hcase as [Hq [f [Hf Hflag Hlink Hfin Hres Hcont]]].
      cbn in Hf, Hflag, Hlink, Hfin, Hres, Hcont.
      rewrite (store_link_eq _ _ _ _ Hf). cbn [advance]. split; [|destruct pp; cbn; lia].
      set (f' := MkFrame _ _).
      exists (evs ++ [EvStoreLink c (Some h)]). split_and!.
      * cbn. by rewrite Htr, app_assoc.
      * cbn. split; [done|]. intros ->. destruct Habs as [_ Habs].
        by specialize (Habs eq_refl).
      * assert (resumed (MkState (log (EvStoreLink c (Some h)) (put_frame c f' w))
                           pp CExchange) = false) as -> by (by destruct pp).
        split; [by rewrite count_events_app, Hq, count_events_singleton|].
        exists f'. before_resume_holds.
    + (* the exchange of the consumer *)
      assert (resumed (MkState w pp CExchange) = false) as Hr by (by destruct pp).
      rewrite Hr in Hcase. destruct Hcase as [Hq [f [Hf Hflag Hlink Hfin Hres Hcont]]].
      cbn in Hf, Hflag, Hlink, Hfin, Hres, Hcont.
      unfold bind. rewrite (exchange_eq _ _ _ _ Hf). cbn [ret advance]. rewrite Hflag.
      set (f' := MkFrame _ _).
      assert (pp ≠ PResume) as Hnr by (intros Hpp; by specialize (Hres Hpp)).
      assert (Hinv' : ∀ cp', cp' = CSuspended ∨ cp' = CContinues →
                (cp' = CSuspended → pp ≠ PDone) →
                (cp' = CContinues → pp = PDone) →
                invariant w0 awaited
                  (MkState (log (EvExchange c (producer_exchanged pp || false))
                              (put_frame c f' w)) pp cp')).
      { intros cp' Hcp' Hcs Hcc.
        exists (evs ++ [EvExchange c (producer_exchanged pp || false)]).
        split_and!.
        - cbn. by rewrite Htr, app_assoc.
        - cbn. split; [by destruct Hcp' as [-> | ->]|]. intros ->.
          destruct Habs as [_ Habs]. by specialize (Habs eq_refl).
        - assert (resumed (MkState (log (EvExchange c (producer_exchanged pp || false))
                                      (put_frame c f' w)) pp cp') = false) as ->.
          { destruct Hcp' as [-> | ->]; [|by destruct pp]. cbn. specialize (Hcs eq_refl). by destruct pp. }
          split; [by rewrite count_events_app, Hq, count_events_singleton|].
          exists f'. before_resume_holds.
          destruct Hcp' as [-> | ->]; cbn; by rewrite orb_true_r. }
      destruct pp; cbn [producer_exchanged orb negb]; [| |done|].
      * split; [apply (Hinv' CSuspended); [by left|done|done]|cbn; lia].
      * split; [apply (Hinv' CSuspended); [by left|done|done]|cbn; lia].
      * split; [apply (Hinv' CContinues); [by right|done|done]|cbn; lia].
Qed.

Lemma invariant_step w0 awaited s s' :
  h ≠ c → invariant w0 awaited s → step s s' →
  invariant w0 awaited s' ∧ steps_left s' < steps_left s.
Proof.
  intros Hne Hinv [t Ht].
  pose proof (invariant_thread_step w0 awaited s t Hne Hinv) as Hstep.
  by rewrite Ht in Hstep.
Qed.

Lemma invariant_reachable w0 awaited s0 s :
  h ≠ c → invariant w0 awaited s0 → rtc step s0 s → invariant w0 awaited s.
Proof.
  intros Hne Hinv Hrtc. induction Hrtc as [|s1 s2 s3 Hstep _ IH]; [done|].
  apply IH. by eapply invariant_step.
Qed.

Lemma invariant_nsteps w0 awaited n s0 s :
  h ≠ c → invariant w0 awaited s0 → nsteps step n s0 s →
  n + steps_left s ≤ steps_left s0.
Proof.
  intros Hne Hinv Hn. induction Hn as [|n s1 s2 s3 Hstep _ IH]; [done|].
  destruct (invariant_step _ _ _ _ Hne Hinv Hstep) as [Hinv2 Hlt].
  specialize (IH Hinv2). lia.
Qed.

Lemma invariant_no_crash w0 awaited s :
  h ≠ c → invariant w0 awaited s → ¬ crashes s.
Proof.
  intros Hne Hinv (t & o & Ht & Ho).
  pose proof (invariant_thread_step w0 awaited s t Hne Hinv) as Hstep.
  rewrite Ht in Hstep. by destruct o.
Qed.

Lemma invariant_progress w0 awaited s :
  h ≠ c → invariant w0 awaited s → ¬ terminal s → ∃ s', step s s'.
Proof.
  intros Hne Hinv Hnt.
  assert (∃ t, thread_step (E:=E) run_coroutine c h t s ≠ None) as [t Ht].
  { destruct (thread_step (E:=E) run_coroutine c h Producer s) eqn:Hp;
      [exists Producer; by rewrite Hp|].
    destruct (thread_step (E:=E) run_coroutine c h Consumer s) eqn:Hc;
      [exists Consumer; by rewrite Hc|].
    destruct Hnt. by intros []. }
  pose proof (invariant_thread_step w0 awaited s t Hne Hinv) as Hstep.
  destruct (thread_step run_coroutine c h t s) as [[s'| | |]|] eqn:Hts; try done.
  exists s', t. done.
Qed.

Lemma terminal_pcs s :
  terminal s →
  ppc s = PDone ∧ (cpc s = CAbsent ∨ cpc s = CSuspended ∨ cpc s = CContinues).
Proof.
  intros Hterm. pose proof (Hterm Producer) as Hp. pose proof (Hterm Consumer) as Hc.
  cbn in Hp, Hc. unfold producer_step in Hp. unfold consumer_step in Hc.
  destruct (ppc s), (cpc s); naive_solver.
Qed.

Lemma only_resumes_of_h (tr : list event) :
  count_events is_resume tr = count_events (is_resume_of h) tr →
  ∀ k, EvResume k ∈ tr → k = h.
Proof.
  induction tr as [|ev tr IH]; intros Hcount k Hin; [by apply elem_of_nil in Hin|].
  assert (count_events (is_resume_of h) tr ≤ count_events is_resume tr) as Hle
    by (apply count_events_mono; by intros []).
  change (ev :: tr) with ([ev] ++ tr) in Hcount.
  rewrite !count_events_app, !count_events_singleton in Hcount.
  apply elem_of_cons in Hin as [<-|Hin].
  - cbn in Hcount. destruct (decide (k = h)) as [|Hkh]; [done|].
    rewrite bool_decide_eq_false_2 in Hcount by done. lia.
  - apply IH; [|done]. destruct ev; cbn in Hcount; try lia.
    case_bool_decide; lia.
Qed.

(** The count of continuations in a state that satisfies the invariant. *)
Lemma invariant_continuations w0 awaited s :
  invariant w0 awaited s →
  continuations h w0 s = (if resumed s then 1 else
                            match cpc s with CContinues => 1 | _ => 0 end)
  ∧ count_events is_resume (new_events w0 (shared s)) ≤ 1
  ∧ (∀ k, EvResume k ∈ new_events w0 (shared s) → k = h).
Proof.
  intros (evs & Htr & _ & Hcase). unfold continuations.
  rewrite (new_events_app _ _ _ Htr).
  destruct (resumed s) eqn:Hr.
  - destruct Hcase as [Hall Hh]. split_and!.
    + rewrite Hh. unfold resumed in Hr. by destruct (ppc s), (cpc s).
    + lia.
    + apply only_resumes_of_h. lia.
  - destruct Hcase as [Hq _]. pose proof (no_resume_of_h _ Hq) as Hh. split_and!.
    + by rewrite Hh.
    + lia.
    + apply only_resumes_of_h. lia.
Qed.

(** C1: exactly one resume. Let the completion path of [c] and the
    attachment of the consumer [h] run on two threads, interleaved in any
    way, from a world where the flag of [c] is still [false]. No step
    fails, every run ends after at most five steps, and when both sides
    are through the continuation of [h] has been continued exactly once:
    either the producer called [resume()] on it, once, or its
    [co_await] did not suspend; no other coroutine has been resumed. If
    no consumer attaches, the completion path resumes nothing. *)
Theorem exactly_one_resume w0 f :
  h ≠ c →
  frames w0 !! c = Some f →
  mResumeAwaiter (promise_base (promise f)) = false →
  finished h w0 = false →
  (∀ s, rtc step (initial w0 true) s →
     ¬ crashes s
     ∧ (¬ terminal s → ∃ s', step s s')
     ∧ continuations h w0 s ≤ 1
     ∧ (∀ k, EvResume k ∈ new_events w0 (shared s) → k = h)
     ∧ (terminal s →
          continuations h w0 s = 1
          ∧ (cpc s = CSuspended ∧ count_events is_resume (new_events w0 (shared s)) = 1
             ∨ cpc s = CContinues ∧ count_events is_resume (new_events w0 (shared s)) = 0)))
  ∧ (∀ n s, nsteps step n (initial w0 true) s → n ≤ 5)
  ∧ (∀ s, rtc step (initial w0 false) s →
       ¬ crashes s
       ∧ (¬ terminal s → ∃ s', step s s')
       ∧ continuations h w0 s = 0
       ∧ count_events is_resume (new_events w0 (shared s)) = 0)
  ∧ (∀ n s, nsteps step n (initial w0 false) s → n ≤ 3).
Proof.
  intros Hne Hf Hflag Hfin.
  pose proof (λ awaited, initial_invariant w0 f awaited Hf Hflag Hfin) as Hinit.
  split_and!.
  - intros s Hreach.
    pose proof (invariant_reachable _ _ _ _ Hne (Hinit true) Hreach) as Hinv.
    destruct (invariant_continuations _ _ _ Hinv) as (Hcont & Hle & Honly).
    split_and!.
    + by eapply invariant_no_crash.
    + by eapply invariant_progress.
    + rewrite Hcont. repeat case_match; lia.
    + done.
    + intros Hterm. destruct (terminal_pcs _ Hterm) as [Hpp Hcp].
      destruct Hinv as (evs & Htr & Habs & Hcase).
      rewrite (new_events_app _ _ _ Htr). rewrite Hcont. unfold resumed in *.
      rewrite Hpp in *.
      destruct Hcp as [Hcp|[Hcp|Hcp]]; rewrite Hcp in *.
      * destruct Habs as [Habs _]. by specialize (Habs eq_refl).
      * split; [done|]. left. by destruct Hcase.
      * split; [done|]. right. by destruct Hcase.
  - intros n s Hn. pose proof (invariant_nsteps _ _ _ _ _ Hne (Hinit true) Hn) as Hb.
    cbn in Hb. lia.
  - intros s Hreach.
    pose proof (invariant_reachable _ _ _ _ Hne (Hinit false) Hreach) as Hinv.
    destruct (invariant_continuations _ _ _ Hinv) as (Hcont & Hle & Honly).
    assert (Hcp : cpc s = CAbsent) by (destruct Hinv as (_ & _ & Habs & _); by apply Habs).
    split_and!.
    + by eapply invariant_no_crash.
    + by eapply invariant_progress.
    + rewrite Hcont. unfold resumed. rewrite Hcp. by destruct (ppc s).
    + destruct Hinv as (evs & Htr & _ & Hcase). rewrite (new_events_app _ _ _ Htr).
      unfold resumed in Hcase. rewrite Hcp in Hcase. destruct (ppc s); by destruct Hcase.
  - intros n s Hn. pose proof (invariant_nsteps _ _ _ _ _ Hne (Hinit false) Hn) as Hb.
    cbn in Hb. lia.
Qed.
End RendezvousFacts.

(** ** Worked runs *)

Section Runs.
Import Rendezvous.
Local Abbreviation run := (run_schedule (PT:=Sample.PT) Sample.idle 0 7).

(** The producer arrives first: the consumer sees [true] and goes on. *)
Example producer_first :
  observe (run [Producer; Producer; Producer; Consumer; Consumer]
             (initial Sample.started true))
  = Some (PDone, CContinues,
          [EvExchange 0 false; EvStoreLink 0 (Some 7); EvExchange 0 true]).
Proof. reflexivity. Qed.

(** The consumer arrives first: the producer sees [true] and resumes it. *)
Example consumer_first :
  observe (run [Consumer; Consumer; Producer; Producer; Producer]
             (initial Sample.started true))
  = Some (PDone, CSuspended,
          [EvStoreLink 0 (Some 7); EvExchange 0 false; EvExchange 0 true; EvResume 7]).
Proof. reflexivity. Qed.

(** The store of the link falls between [final_suspend()] and the exchange
    of the producer: the awaiter's copy of the link is stale, the promise's
    is not. *)
Example store_between :
  observe (run [Producer; Consumer; Consumer; Producer; Producer]
             (initial Sample.started true))
  = Some (PDone, CSuspended,
          [EvStoreLink 0 (Some 7); EvExchange 0 false; EvExchange 0 true; EvResume 7]).
Proof. reflexivity. Qed.

Example never_awaited :
  observe (run [Producer; Producer; Producer] (initial Sample.started false))
  = Some (PDone, CAbsent, [EvExchange 0 false]).
Proof. reflexivity. Qed.

(** A coroutine is called, returns 5 before anybody awaits it, and is then
    awaited by coroutine 7, which does not suspend and reads 5. *)
Example finished_before_awaited :
  (call c <- coroutine_call (PT:=Sample.PT) Sample.idle 0 in
   exec coroutine_end (PT:=Sample.PT) Sample.idle c (complete (CoReturn 5)) in
   call aw <- Task_co_await 0 false in
   call r <- co_await (PT:=Sample.PT) Sample.idle false aw (Some 7) in
   ret (c, r)) empty_world
  = Normal ((0, Some 5),
            {| frames := <[0 := Sample.finished_frame]> ∅;
               objects := <[0 := Some 0]> ∅;
               next_frame := 1;
               trace := [EvUserCode 0; EvReturnToCaller 0; EvExchange 0 false] |}).
Proof. reflexivity. Qed.

(** The same with an exception escaping the body. *)
Example failed_before_awaited :
  failure_of
    ((call c <- coroutine_call (PT:=Sample.PT) Sample.idle 0 in
      exec coroutine_end (PT:=Sample.PT) Sample.idle c (complete (Escapes 42)) in
      call aw <- Task_co_await 0 true in
      co_await (PT:=Sample.PT) Sample.idle false aw (Some 7)) empty_world)
  = Some (Thrown 42).
Proof. reflexivity. Qed.

(** Awaited while still running: the consumer suspends. *)
Example awaited_while_running :
  value_of ((call c <- coroutine_call (PT:=Sample.PT) Sample.idle 0 in
             call aw <- Task_co_await 0 false in
             co_await (PT:=Sample.PT) Sample.idle false aw (Some 7)) empty_world)
  = Some None.
Proof. reflexivity. Qed.

(** [t = std::move(t)] followed by the end of [t]. *)
Example self_move_then_destroy :
  world_after (exec_ops (PT:=Sample.PT) [OpMoveAssign 0 0; OpDtor 0] Sample.started)
  = Some {| frames := delete 0 (frames Sample.started);
            objects := delete 0 (<[0 := None]> (objects Sample.started));
            next_frame := 1;
            trace := [EvDestroy 0] |}.
Proof. reflexivity. Qed.

(** The constructor from a handle is meant for [get_return_object] alone:
    called twice on one handle it makes two owners, and the second
    destructor destroys a frame that is gone. *)
Example two_tasks_from_one_handle :
  (exec Task_ctor_handle (E:=nat) (P:=TaskPromise nat nat) 2 (Some 0) in
   exec Task_dtor 0 in
   Task_dtor 2) Sample.started
  = Undefined.
Proof. reflexivity. Qed.

(** The awaiter of [operator co_await() const &] copies the value: a second
    read sees it again. *)
Example lvalue_read_keeps_cell :
  co_await (PT:=MoreSamples.PT_list) MoreSamples.idle_list false
    (MkAwaiter (Some 0) false) (Some 7) (MoreSamples.completed_list [1; 2; 3])
  = Normal (Some [1; 2; 3], MoreSamples.completed_list [1; 2; 3]).
Proof. reflexivity. Qed.

(** The awaiter of [operator co_await() const &&] moves the value out: the
    cell still holds a [T], the moved-from one, and a second read sees
    that. *)
Example rvalue_read_empties_cell :
  co_await (PT:=MoreSamples.PT_list) MoreSamples.idle_list false
    (MkAwaiter (Some 0) true) (Some 7) (MoreSamples.completed_list [1; 2; 3])
  = Normal (Some [1; 2; 3], MoreSamples.completed_list [])
  ∧ co_await (PT:=MoreSamples.PT_list) MoreSamples.idle_list false
      (MkAwaiter (Some 0) false) (Some 7) (MoreSamples.completed_list [])
    = Normal (Some [], MoreSamples.completed_list []).
Proof. split; reflexivity. Qed.
End Runs.

(** ** The theorems at a sample instance *)

Lemma exactly_one_resume_witness :
  (7 ≠ 0
   ∧ frames Sample.started !! 0 = Some Sample.fresh_frame
   ∧ mResumeAwaiter (promise_base (PromiseType:=Sample.PT) (promise Sample.fresh_frame)) = false
   ∧ finished 7 Sample.started = false)
  ∧ (∀ s, rtc (Rendezvous.step (PT:=Sample.PT) Sample.idle 0 7)
            (Rendezvous.initial Sample.started true) s →
          Rendezvous.terminal (PT:=Sample.PT) Sample.idle 0 7 s →
          Rendezvous.continuations 7 Sample.started s = 1).
Proof.
  assert (H1 : 7 ≠ 0) by lia.
  assert (H2 : frames Sample.started !! 0 = Some Sample.fresh_frame) by reflexivity.
  assert (H3 : mResumeAwaiter (promise_base (PromiseType:=Sample.PT)
                                 (promise Sample.fresh_frame)) = false) by reflexivity.
  assert (H4 : finished 7 Sample.started = false) by reflexivity.
  split; [done|].
  intros s Hreach Hterm.
  pose proof (exactly_one_resume (PT:=Sample.PT) Sample.idle 0 7 Sample.started
                Sample.fresh_frame H1 H2 H3 H4) as [Hall _].
  destruct (Hall s Hreach) as (_ & _ & _ & _ & Hdone).
  by destruct (Hdone Hterm).
Defined.

Lemma completion_path_rendezvous_witness :
  frames Sample.attached !! 0 = Some Sample.attached_frame
  ∧ (∀ w', co_await_final_suspend (PT:=Sample.PT) Sample.idle 0 Sample.attached
           = Normal (tt, w') →
       count_events is_exchange (new_events Sample.attached w') = 1
       ∧ count_events is_resume (new_events Sample.attached w') = 1).
Proof.
  assert (H1 : frames Sample.attached !! 0 = Some Sample.attached_frame) by reflexivity.
  split; [done|]. intros w' Hrun.
  pose proof (completion_path_rendezvous (PT:=Sample.PT) Sample.idle Sample.attached 0
                Sample.attached_frame H1) as (_ & _ & _ & _ & Hev).
  destruct (Hev w' Hrun) as (Hx & Hr & _). split; [exact Hx|exact Hr].
Defined.

Lemma attach_stores_then_exchanges_witness :
  (await_ready (E:=nat) (MkAwaiter (Some 0) false) Sample.started
   = Normal (false, Sample.started)
   ∧ frames (Sample.idle 0 Sample.started) !! 0 = Some Sample.fresh_frame)
  ∧ ∃ w2,
      await_suspend (PT:=Sample.PT) Sample.idle (MkAwaiter (Some 0) false) (Some 7)
        Sample.started
      = Normal (true, w2)
      ∧ new_events Sample.started w2
        = [EvResume 0; EvStoreLink 0 (Some 7); EvExchange 0 false].
Proof.
  assert (H1 : await_ready (E:=nat) (MkAwaiter (Some 0) false) Sample.started
               = Normal (false, Sample.started)) by reflexivity.
  assert (H2 : frames (Sample.idle 0 Sample.started) !! 0 = Some Sample.fresh_frame)
    by reflexivity.
  split; [done|].
  destruct (attach_stores_then_exchanges (PT:=Sample.PT) Sample.idle Sample.started 0
              false (Some 7) Sample.fresh_frame H1 H2) as (w2 & Hrun & Hev & _).
  exists w2. split; [exact Hrun|exact Hev].
Defined.

Lemma task_ownership_witness :
  (exec_ops (PT:=Sample.PT) Sample.program empty_world = Normal (tt, Sample.started)
   ∧ owns Sample.started 0 0
   ∧ objects Sample.started !! 1 = Some None
   ∧ 1 ≠ 0
   ∧ objects Sample.started !! 2 = None)
  ∧ ownership_invariant Sample.started
  ∧ ∃ w3, Task_dtor (E:=nat) 2
            (with_objects (<[0 := None]> (<[2 := Some 0]> (objects Sample.started)))
               Sample.started)
          = Normal (tt, w3)
          ∧ count_events (is_destroy_of 0) (trace w3) = 1.
Proof.
  assert (H1 : exec_ops (PT:=Sample.PT) Sample.program empty_world
               = Normal (tt, Sample.started)) by reflexivity.
  assert (H2 : owns Sample.started 0 0) by reflexivity.
  assert (H3 : objects Sample.started !! 1 = Some None) by reflexivity.
  assert (H4 : 1 ≠ 0) by lia.
  assert (H5 : objects Sample.started !! 2 = None) by reflexivity.
  split; [done|].
  destruct (task_ownership (PT:=Sample.PT) Sample.program Sample.started 0 1 2 0 None
              H1 H2 H3 H4 H5) as (Hinv & _ & Hctor & _).
  split; [exact Hinv|].
  destruct Hctor as (_ & _ & _ & _ & _ & _ & w3 & Hrun & _ & _ & Hcount).
  exists w3. split; [exact Hrun|exact Hcount].
Defined.

Lemma task_readiness_witness :
  objects Sample.completed !! 0 = Some (Some 0)
  ∧ Task_isReady (E:=nat) 0 Sample.completed
    = await_ready (MkAwaiter (Some 0) false) Sample.completed
  ∧ (absent_or_finished (Some 0) Sample.completed →
     ∀ r w', co_await (PT:=Sample.PT) Sample.idle false (MkAwaiter (Some 0) false)
               (Some 7) Sample.completed = Normal (r, w') →
             is_Some r ∧ w' = Sample.completed
             ∧ count_events is_handshake (new_events Sample.completed w') = 0)
  ∧ (objects (MoreSamples.completed_list [1; 2; 3]) !! 0 = Some (Some 0)
     ∧ (absent_or_finished (Some 0) (MoreSamples.completed_list [1; 2; 3]) →
        ∀ r w', co_await (PT:=MoreSamples.PT_list) MoreSamples.idle_list false
                  (MkAwaiter (Some 0) true) (Some 7) (MoreSamples.completed_list [1; 2; 3])
                = Normal (r, w') →
                is_Some r
                ∧ new_events (MoreSamples.completed_list [1; 2; 3]) w' = []
                ∧ w' = after_read (PT:=MoreSamples.PT_list) true 0
                         (MoreSamples.completed_list [1; 2; 3]))).
Proof.
  assert (H1 : objects Sample.completed !! 0 = Some (Some 0)) by reflexivity.
  split; [done|].
  destruct (task_readiness (PT:=Sample.PT) Sample.idle false Sample.completed 0 (Some 0)
              false (Some 7) H1) as (_ & Heq & _ & _ & _ & _ & _ & Hready).
  split; [exact Heq|]. split.
  - intros Hfin r w' Hco.
    destruct (Hready Hfin) as (_ & Hno & _).
    destruct (Hno r w' Hco) as (Hr & _ & Hcount & _ & _ & Hsame & _).
    split; [exact Hr|]. split; [exact (Hsame eq_refl)|exact Hcount].
  - assert (H2 : objects (MoreSamples.completed_list [1; 2; 3]) !! 0 = Some (Some 0))
      by reflexivity.
    split; [exact H2|].
    destruct (task_readiness (PT:=MoreSamples.PT_list) MoreSamples.idle_list false
                (MoreSamples.completed_list [1; 2; 3]) 0 (Some 0) true (Some 7) H2)
      as (_ & _ & _ & _ & _ & _ & _ & Hready').
    intros Hfin r w' Hco.
    destruct (Hready' Hfin) as (_ & Hno & _).
    destruct (Hno r w' Hco) as (Hr & Hev & _ & _ & _ & _ & Hw).
    split; [exact Hr|]. split; [exact Hev|exact (Hw 0 eq_refl)].
Defined.

Lemma eager_start_witness :
  objects (empty_world (P:=TaskPromise nat nat)) !! 0 = None
  ∧ ∀ w', coroutine_call (PT:=Sample.PT) Sample.idle 0 empty_world = Normal (0, w') →
          new_events empty_world w' = [EvUserCode 0; EvReturnToCaller 0].
Proof.
  assert (H1 : objects (empty_world (P:=TaskPromise nat nat)) !! 0 = None) by reflexivity.
  split; [done|].
  destruct (eager_start (PT:=Sample.PT) Sample.idle empty_world 0 H1)
    as (_ & wr & _ & _ & _ & _ & _ & Hev).
  exact Hev.
Defined.

Lemma unbound_task_ready_without_result_witness :
  objects Sample.started !! 1 = Some None
  ∧ await_ready (E:=nat) (MkAwaiter None false) Sample.started
    = Normal (true, Sample.started)
  ∧ await_resume (PT:=Sample.PT) false (MkAwaiter None false) Sample.started
    = AssertFailed.
Proof.
  assert (H1 : objects Sample.started !! 1 = Some None) by reflexivity.
  split; [done|].
  destruct (unbound_task_ready_without_result (PT:=Sample.PT) Sample.idle Sample.started 1
              false (Some 7) H1) as (_ & Hready & _ & Hassert & _).
  split; [exact Hready|exact Hassert].
Defined.

Lemma self_move_assign_destroys_witness :
  (owns Sample.started 0 0 ∧ frames Sample.started !! 0 = Some Sample.fresh_frame)
  ∧ Task_move_assign (E:=nat) 0 0 Sample.started
    = Normal (tt, with_objects (<[0 := None]> (objects Sample.started))
                    (released (Some 0) Sample.started)).
Proof.
  assert (H1 : owns Sample.started 0 0) by reflexivity.
  assert (H2 : frames Sample.started !! 0 = Some Sample.fresh_frame) by reflexivity.
  split; [done|].
  by destruct (self_move_assign_destroys (E:=nat) Sample.started 0 0 Sample.fresh_frame
                 false H1 H2) as (Hrun & _).
Defined.

(** * Further properties *)

(** ** Completion and await, one after the other *)

Section CompletionAndAwait.
Context {E P : Type} `{PT : !PromiseType E P}.
Variable run_coroutine : addr → World P → World P.
Implicit Types (w : World P) (f : Frame P) (c : addr) (h : coroutine_handle).
Implicit Types (write : P → P).

Lemma update_promise_eq w c f write :
  frames w !! c = Some f →
  update_promise (E:=E) c write w
  = Normal (tt, put_frame c (MkFrame (write (promise f)) (done f)) w).
Proof. intros Hf. unfold update_promise. by rewrite Hf. Qed.

Lemma coroutine_end_eq w c f write :
  frames w !! c = Some f →
  let f1 := MkFrame (write (promise f)) (done f) in
  coroutine_end (E:=E) run_coroutine c write w
  = if mResumeAwaiter (promise_base (write (promise f))) then
      handle_resume run_coroutine (mAwaitingCoroutine (promise_base (write (promise f))))
        (producer_arrived c f1 w)
    else Normal (tt, producer_arrived c f1 w).
Proof.
  intros Hf f1. unfold coroutine_end, bind. rewrite (update_promise_eq _ _ _ _ Hf).
  rewrite (co_await_final_suspend_eq run_coroutine _ c f1) by apply frames_put_frame.
  cbn [promise f1]. unfold producer_arrived. by rewrite !put_frame_twice.
Qed.

Lemma frames_producer_arrived w c f :
  frames (producer_arrived c f w) !! c
  = Some (MkFrame (promise_with_base
                     (set_mResumeAwaiter true (promise_base (promise f))) (promise f)) true).
Proof. unfold producer_arrived. cbn. apply lookup_insert_eq. Qed.

Lemma await_suspend_eq w c rv h f f' :
  frames w !! c = Some f →
  done f = false →
  frames (run_coroutine c w) !! c = Some f' →
  ∃ w2 f2,
    await_suspend (E:=E) run_coroutine (MkAwaiter (Some c) rv) h w
    = Normal (negb (mResumeAwaiter (promise_base (promise f'))), w2)
    ∧ frames w2 !! c = Some f2
    ∧ promise_base (promise f2) = {| mAwaitingCoroutine := h; mResumeAwaiter := true |}
    ∧ promise_result (promise f2) = promise_result (promise f')
    ∧ done f2 = done f'
    ∧ trace w2 = trace w ++ [EvResume c; EvStoreLink c h;
                             EvExchange c (mResumeAwaiter (promise_base (promise f')))].
Proof.
  intros Hf Hdone Hf'. unfold await_suspend, bind. cbn [mAwaitedCoroutine].
  unfold handle_resume, finished. rewrite Hf, Hdone.
  set (wr := with_trace _ _).
  assert (Hwr : frames wr !! c = Some f') by done.
  rewrite (setAwaitingCoroutine_eq _ _ _ _ Hwr).
  eexists _, _. split_and!.
  - reflexivity.
  - apply frames_put_frame.
  - cbn [promise]. by rewrite !promise_base_with_base.
  - cbn [promise]. by rewrite !promise_result_with_base.
  - done.
  - cbn. by rewrite <-!app_assoc.
Qed.

(** X1: A computation that ends before anybody has attached resumes nobody and
    stays at its final suspend point: its task is ready from then on, and a
    later [co_await] reads what the body stored, without suspending and
    without recording an event. The awaiter of the [const &] overload
    leaves the world as it is; the awaiter of the [const &&] overload
    leaves the cell of the frame moved-from. *)
Theorem completion_then_await w c f this write :
  frames w !! c = Some f →
  objects w !! this = Some (Some c) →
  mResumeAwaiter (promise_base (write (promise f))) = false →
  ∃ w1,
    coroutine_end (E:=E) run_coroutine c write w = Normal (tt, w1)
    ∧ new_events w w1 = [EvExchange c false]
    ∧ Task_isReady (E:=E) this w1 = Normal (true, w1)
    ∧ ∀ QT_NO_DEBUG rv h,
        co_await run_coroutine QT_NO_DEBUG (MkAwaiter (Some c) rv) h w1
        = (call v <- lift_outcome (promise_result (write (promise f))) in ret (Some v))
            (after_read rv c w1)
        ∧ new_events w1 (after_read rv c w1) = []
        ∧ after_read false c w1 = w1
        ∧ frames (after_read true c w1) !! c
          = Some (MkFrame (promise_moved_out
                             (promise_with_base
                                (set_mResumeAwaiter true (promise_base (write (promise f))))
                                (write (promise f)))) true).
Proof.
  intros Hf Ho Hflag. pose proof (coroutine_end_eq w c f write Hf) as Hend.
  cbn zeta in Hend. rewrite Hflag in Hend.
  set (f1 := MkFrame (write (promise f)) (done f)) in *.
  set (w1 := producer_arrived c f1 w) in *.
  pose proof (frames_producer_arrived w c f1) as Hf1. fold w1 in Hf1.
  assert (Hready : ∀ rv, await_ready (E:=E) (MkAwaiter (Some c) rv) w1 = Normal (true, w1)).
  { intros rv. apply await_ready_true_iff. right. eexists c, _. by split_and!. }
  exists w1. split_and!.
  - done.
  - apply new_events_app. unfold w1, producer_arrived. cbn. by rewrite Hflag.
  - rewrite (Task_isReady_await_ready w1 this (Some c) false) by done. apply Hready.
  - intros QT rv h. rewrite (co_await_ready _ _ _ _ _ (Hready rv)). split_and!.
    + unfold bind. rewrite (await_resume_finished _ _ _ _ _ Hf1).
      cbn [promise f1]. by rewrite promise_result_with_base.
    + destruct (after_read_keeps rv c w1) as (Htr & _).
      unfold new_events. by rewrite Htr, drop_all.
    + done.
    + unfold after_read. rewrite Hf1. apply frames_put_frame.
Qed.

(** X2: A consumer that attaches to a running computation suspends; when the
    computation then ends, its completion path resumes that consumer, once,
    and the world it hands over holds the finished frame with the result:
    the pre-check says ready and [await_resume] yields what the body's
    write (to the cell only, not to the flag or the link) left there. The
    awaiter of the [const &&] overload moves the value out of the cell. *)
Theorem completion_resumes_attached_consumer w c f k write :
  frames w !! c = Some f →
  mResumeAwaiter (promise_base (promise f)) = false →
  k ≠ c →
  finished k w = false →
  (∀ b p, write (promise_with_base b p) = promise_with_base b (write p)) →
  ∃ w2 w3,
    setAwaitingCoroutine (E:=E) c (Some k) w = Normal (true, w2)
    ∧ coroutine_end (E:=E) run_coroutine c write w2
      = Normal (tt, with_trace (trace w ++ [EvStoreLink c (Some k); EvExchange c false;
                                            EvExchange c true; EvResume k])
                      (run_coroutine k w3))
    ∧ (∀ rv, await_ready (E:=E) (MkAwaiter (Some c) rv) w3 = Normal (true, w3))
    ∧ (∀ QT_NO_DEBUG rv,
         await_resume QT_NO_DEBUG (MkAwaiter (Some c) rv) w3
         = lift_outcome (promise_result (write (promise f))) (after_read rv c w3))
    ∧ after_read false c w3 = w3
    ∧ (∃ p3, frames w3 !! c = Some (MkFrame p3 true)
             ∧ promise_result p3 = promise_result (write (promise f))
             ∧ frames (after_read true c w3) !! c
               = Some (MkFrame (promise_moved_out p3) true)).
Proof.
  intros Hf Hflag Hne Hfin Hcomm.
  assert (Hbase : ∀ b p, promise_base (write (promise_with_base b p)) = b)
    by (intros b p; by rewrite Hcomm, promise_base_with_base).
  pose proof (setAwaitingCoroutine_eq (E:=E) w c f (Some k) Hf) as Hset.
  rewrite Hflag in Hset. cbn [negb] in Hset.
  set (w2 := log _ _) in Hset.
  set (f2 := MkFrame _ _) in (value of w2).
  assert (Hf2 : frames w2 !! c = Some f2) by apply frames_put_frame.
  assert (Hb2 : promise_base (promise f2)
                = {| mAwaitingCoroutine := Some k; mResumeAwaiter := true |}).
  { unfold f2. cbn [promise]. by rewrite !promise_base_with_base. }
  assert (Hw2 : promise_base (write (promise f2))
                = {| mAwaitingCoroutine := Some k; mResumeAwaiter := true |})
    by (unfold f2; cbn [promise]; by rewrite Hbase, promise_base_with_base).
  assert (Hr2 : promise_result (write (promise f2)) = promise_result (write (promise f))).
  { unfold f2. cbn [promise]. by rewrite !Hcomm, !promise_result_with_base. }
  pose proof (coroutine_end_eq w2 c f2 write Hf2) as Hend. cbn zeta in Hend.
  rewrite Hw2 in Hend. cbn [mResumeAwaiter mAwaitingCoroutine] in Hend.
  set (f3 := MkFrame (write (promise f2)) (done f2)) in *.
  set (w3 := producer_arrived c f3 w2) in *.
  pose proof (frames_producer_arrived w2 c f3) as Hf3. fold w3 in Hf3.
  assert (Hfin3 : finished k w3 = false).
  { rewrite <-Hfin. unfold finished, w3, producer_arrived, w2. cbn.
    by rewrite !lookup_insert_ne. }
  unfold handle_resume in Hend. rewrite Hfin3 in Hend.
  assert (Hready : ∀ rv, await_ready (E:=E) (MkAwaiter (Some c) rv) w3 = Normal (true, w3)).
  { intros rv. apply await_ready_true_iff. right. eexists c, _. by split_and!. }
  exists w2, w3. split_and!.
  - done.
  - assert (Hflag3 : mResumeAwaiter (promise_base (promise f3)) = true)
      by (unfold f3; cbn [promise]; by rewrite Hw2).
    assert (Htr3 : trace w3 = trace w ++ [EvStoreLink c (Some k); EvExchange c false;
                                          EvExchange c true]).
    { unfold w3, producer_arrived. rewrite Hflag3. unfold w2. cbn.
      by rewrite <-!app_assoc. }
    rewrite Hend. unfold with_trace. rewrite Htr3, <-app_assoc. done.
  - done.
  - intros QT rv. rewrite (await_resume_finished _ _ _ _ _ Hf3).
    cbn [promise f3]. by rewrite promise_result_with_base, Hr2.
  - done.
  - eexists. split_and!; [exact Hf3| |].
    + cbn [promise f3]. by rewrite promise_result_with_base, Hr2.
    + unfold after_read. rewrite Hf3. apply frames_put_frame.
Qed.

(** What [co_await] does when the pre-check has answered [false]. *)
Lemma co_await_after_attach QT_NO_DEBUG w c rv h f' :
  await_ready (E:=E) (MkAwaiter (Some c) rv) w = Normal (false, w) →
  frames (run_coroutine c w) !! c = Some f' →
  ∃ w2,
    await_suspend (E:=E) run_coroutine (MkAwaiter (Some c) rv) h w
    = Normal (negb (mResumeAwaiter (promise_base (promise f'))), w2)
    ∧ co_await run_coroutine QT_NO_DEBUG (MkAwaiter (Some c) rv) h w
      = (if mResumeAwaiter (promise_base (promise f')) then
           (call v <- lift_outcome (promise_result (promise f')) in ret (Some v))
             (after_read rv c w2)
         else Normal (None, w2))
    ∧ load_base (E:=E) c w2
      = Normal ({| mAwaitingCoroutine := h; mResumeAwaiter := true |}, w2).
Proof.
  intros Hready Hf'.
  destruct (await_ready_false_inv _ _ _ Hready) as (c' & f & [= <-] & Hf & Hdone & _).
  destruct (await_suspend_eq w c rv h f f' Hf Hdone Hf')
    as (w2 & f2 & Hsusp & Hf2 & Hb2 & Hr2 & _ & _).
  exists w2. split_and!.
  - done.
  - unfold co_await, bind at 1. rewrite Hready. unfold bind at 1. rewrite Hsusp.
    destruct (mResumeAwaiter (promise_base (promise f'))); cbn [negb]; [|done].
    unfold bind. by rewrite (await_resume_finished _ _ _ _ _ Hf2), Hr2.
  - by rewrite (load_base_eq _ _ _ Hf2), Hb2.
Qed.

(** X3: [co_await] on a task that is not ready: after the resume of the awaited
    coroutine, the consumer suspends if the flag is still [false]; if the
    flag is [true] (the awaited coroutine has ended inside the resume, or
    somebody had attached before) it goes on at once and reads the result,
    by copy for the awaiter of the [const &] overload and by a move out of
    the cell for the awaiter of the [const &&] overload. *)
Theorem co_await_not_ready QT_NO_DEBUG w c rv h f' :
  await_ready (E:=E) (MkAwaiter (Some c) rv) w = Normal (false, w) →
  frames (run_coroutine c w) !! c = Some f' →
  ∃ w2,
    await_suspend (E:=E) run_coroutine (MkAwaiter (Some c) rv) h w
    = Normal (negb (mResumeAwaiter (promise_base (promise f'))), w2)
    ∧ co_await run_coroutine QT_NO_DEBUG (MkAwaiter (Some c) rv) h w
      = (if mResumeAwaiter (promise_base (promise f')) then
           (call v <- lift_outcome (promise_result (promise f')) in ret (Some v))
             (after_read rv c w2)
         else Normal (None, w2))
    ∧ load_base (E:=E) c w2
      = Normal ({| mAwaitingCoroutine := h; mResumeAwaiter := true |}, w2).
Proof. apply co_await_after_attach. Qed.

(** X4: [await_suspend] relies on the pre-check: called on an awaiter whose
    pre-check says ready (no coroutine, or a finished one), it resumes a
    null or finished handle. *)
Theorem await_suspend_needs_precheck w (aw : TaskAwaiter) h :
  await_ready (E:=E) aw w = Normal (true, w) →
  await_suspend (E:=E) run_coroutine aw h w = Undefined.
Proof.
  destruct aw as [mine rv]. intros Hready.
  apply await_ready_true_iff in Hready as [->|(c & f & -> & Hf & Hdone)].
  - done.
  - unfold await_suspend, bind, handle_resume, finished. cbn [mAwaitedCoroutine].
    by rewrite Hf, Hdone.
Qed.

(** X5: The awaiter holds a copy of the handle and does not own the frame: once
    the task it came from is destroyed, its pre-check and [await_resume]
    touch a frame that is gone. *)
Theorem awaiter_outlives_task QT_NO_DEBUG w this c f rv :
  owns w this c →
  frames w !! c = Some f →
  ∃ w1,
    (call aw <- Task_co_await (E:=E) this rv in exec Task_dtor this in ret aw) w
    = Normal (MkAwaiter (Some c) rv, w1)
    ∧ new_events w w1 = [EvDestroy c]
    ∧ await_ready (E:=E) (MkAwaiter (Some c) rv) w1 = Undefined
    ∧ await_resume QT_NO_DEBUG (MkAwaiter (Some c) rv) w1 = Undefined.
Proof.
  intros Hown Hf.
  assert (Hlive : handle_live (Some c) w) by (by eexists).
  set (w1 := with_objects (delete this (objects w)) (released (Some c) w)).
  assert (Hnone : frames w1 !! c = None) by apply lookup_delete_eq.
  exists w1. split_and!.
  - unfold bind, Task_co_await, bind. rewrite (load_mCoroutine_eq _ _ _ Hown).
    cbn [ret]. by rewrite (Task_dtor_eq (E:=E) _ _ _ Hown Hlive).
  - by apply new_events_app.
  - unfold await_ready, handle_done. cbn [mAwaitedCoroutine handle_bool negb].
    by rewrite Hnone.
  - unfold await_resume, bind, Q_ASSERT, handle_promise, ret.
    cbn [mAwaitedCoroutine handle_bool]. destruct QT_NO_DEBUG; by rewrite Hnone.
Qed.
End CompletionAndAwait.

(** ** A second awaiter on a running task *)

Section SecondAwaiter.
Context {E T : Type} `{!MovedFrom T}.
Variable bad_variant_access : E.
Variable run_coroutine : addr → World (TaskPromise E T) → World (TaskPromise E T).
Variable run_void : addr → World (TaskPromiseVoid E) → World (TaskPromiseVoid E).

(** X6: [Task<T>]: when the flag of a running computation is already [true]
    (another consumer has attached) and its cell is still empty, a further
    [co_await] does not suspend; it replaces the stored link by its own
    handle and its read of the cell throws [std::bad_variant_access]. *)
Theorem second_awaiter_reads_empty_cell QT_NO_DEBUG
    (w : World (TaskPromise E T)) c rv h f' :
  await_ready (E:=E) (MkAwaiter (Some c) rv) w = Normal (false, w) →
  frames (run_coroutine c w) !! c = Some f' →
  mResumeAwaiter (tp_base (promise f')) = true →
  mValue (promise f') = monostate →
  co_await (PT:=TaskPromise_PromiseType bad_variant_access T) run_coroutine QT_NO_DEBUG
    (MkAwaiter (Some c) rv) h w
  = Thrown bad_variant_access
  ∧ ∃ w2,
      await_suspend (PT:=TaskPromise_PromiseType bad_variant_access T) run_coroutine
        (MkAwaiter (Some c) rv) h w
      = Normal (false, w2)
      ∧ load_base (PT:=TaskPromise_PromiseType bad_variant_access T) (E:=E) c w2
        = Normal ({| mAwaitingCoroutine := h; mResumeAwaiter := true |}, w2).
Proof.
  intros Hready Hf' Hflag Hcell.
  destruct (co_await_after_attach (PT:=TaskPromise_PromiseType bad_variant_access T)
              run_coroutine QT_NO_DEBUG w c rv h f' Hready Hf')
    as (w2 & Hsusp & Hco & Hlink).
  cbn [promise_base promise_result TaskPromise_PromiseType] in Hsusp, Hco.
  rewrite Hflag in Hsusp, Hco. split.
  - rewrite Hco. unfold bind, lift_outcome, result. by rewrite Hcell.
  - by exists w2.
Qed.

(** A [Task<void>] has no value to move out: both awaiters read alike. *)
Lemma after_read_void rv c (w : World (TaskPromiseVoid E)) :
  after_read (PT:=TaskPromiseVoid_PromiseType) rv c w = w.
Proof.
  unfold after_read. destruct rv; [|done].
  destruct (frames w !! c) as [f|] eqn:Hf; [|done].
  destruct f, w. unfold put_frame, with_frames. cbn in *. f_equal. by apply insert_id.
Qed.

(** X7: [Task<void>]: when the flag of a running computation is already
    [true] and no exception is stored, a further [co_await] does not
    suspend and returns as if the computation had ended normally, while
    the pre-check still says not ready. *)
Theorem second_awaiter_of_void_task_goes_on QT_NO_DEBUG
    (w : World (TaskPromiseVoid E)) c rv h f' :
  await_ready (E:=E) (MkAwaiter (Some c) rv) w = Normal (false, w) →
  frames (run_void c w) !! c = Some f' →
  mResumeAwaiter (vp_base (promise f')) = true →
  mException (promise f') = None →
  done f' = false →
  ∃ w2,
    co_await (PT:=TaskPromiseVoid_PromiseType) run_void QT_NO_DEBUG
      (MkAwaiter (Some c) rv) h w
    = Normal (Some tt, w2)
    ∧ await_ready (E:=E) (MkAwaiter (Some c) rv) w2 = Normal (false, w2).
Proof.
  intros Hready Hf' Hflag Hcell Hrunning.
  destruct (await_ready_false_inv _ _ _ Hready) as (c' & f & [= <-] & Hf & Hdone & _).
  destruct (await_suspend_eq (PT:=TaskPromiseVoid_PromiseType) run_void w c rv h f f'
              Hf Hdone Hf') as (w2 & f2 & Hsusp & Hf2 & Hb2 & Hr2 & Hd2 & _).
  cbn [promise_base promise_result TaskPromiseVoid_PromiseType] in Hsusp, Hr2.
  rewrite Hflag in Hsusp. cbn [negb] in Hsusp.
  exists w2. split.
  - unfold co_await, bind at 1. rewrite Hready. unfold bind at 1. rewrite Hsusp.
    unfold bind. rewrite (await_resume_finished _ _ _ _ _ Hf2), after_read_void.
    cbn [promise_result TaskPromiseVoid_PromiseType]. rewrite Hr2.
    unfold void_result. by rewrite Hcell.
  - unfold await_ready, handle_done. cbn [mAwaitedCoroutine handle_bool negb].
    by rewrite Hf2, Hd2, Hrunning.
Qed.
End SecondAwaiter.

(** ** More on ownership *)

Section OwnershipMore.
Context {E P : Type} `{PT : !PromiseType E P}.
Variable run_coroutine : addr → World P → World P.
Implicit Types (w : World P) (this other : loc) (c d : addr).
Implicit Types (mine theirs : coroutine_handle) (o : gmap loc coroutine_handle).

Lemma with_objects_same w : with_objects (objects w) w = w.
Proof. by destruct w. Qed.

(** X8: Moving a task away and back is no change: the task moves to free
    storage [b], is move-assigned back to [a], and the (now unbound) task
    at [b] is destroyed; nothing is torn down on the way. *)
Theorem move_away_and_back w a b mine :
  objects w !! a = Some mine →
  objects w !! b = None →
  (exec Task_move_ctor (E:=E) b a in
   exec Task_move_assign a b in
   Task_dtor b) w
  = Normal (tt, w).
Proof.
  intros Ha Hb. assert (Hab : a ≠ b) by congruence.
  unfold bind at 1. rewrite (Task_move_ctor_eq _ _ _ _ Hb Ha).
  set (w1 := with_objects _ w).
  assert (Ha1 : objects w1 !! a = Some None) by apply lookup_insert_eq.
  assert (Hb1 : objects w1 !! b = Some mine).
  { unfold w1. cbn. rewrite lookup_insert_ne by done. apply lookup_insert_eq. }
  unfold bind. rewrite (Task_move_assign_eq _ _ _ _ _ Ha1 Hb1) by done.
  set (w2 := with_objects _ _).
  assert (Hb2 : objects w2 !! b = Some None) by apply lookup_insert_eq.
  rewrite (Task_dtor_eq _ _ _ Hb2) by done.
  transitivity (Normal (E:=E) (tt, with_objects (objects w) w));
    [|by rewrite with_objects_same].
  assert (Hobj : delete b (objects w2) = objects w); [|by rewrite Hobj].
  unfold w2, w1. cbn [objects with_objects released].
  apply map_eq. intros l.
  destruct (decide (l = b)) as [->|Hlb]; [by rewrite lookup_delete_eq|].
  rewrite lookup_delete_ne, lookup_insert_ne by done.
  destruct (decide (l = a)) as [->|Hla]; [by rewrite lookup_insert_eq|].
  by rewrite !lookup_insert_ne.
Qed.

(** X9: Two tasks holding one handle (which only the constructor from a raw
    handle can bring about): destroying both destroys the frame twice. *)
Theorem shared_handle_double_destroy w a b c :
  objects w !! a = Some (Some c) →
  objects w !! b = Some (Some c) →
  a ≠ b →
  (exec Task_dtor (E:=E) a in Task_dtor b) w = Undefined.
Proof.
  intros Ha Hb Hab. unfold bind at 1.
  destruct (frames w !! c) as [f|] eqn:Hf.
  - rewrite (Task_dtor_eq _ _ _ Ha) by (by eexists).
    unfold Task_dtor, bind, load_mCoroutine. cbn [objects with_objects released log].
    change (objects (with_trace _ _)) with (objects w).
    rewrite lookup_delete_ne, Hb by done. cbn.
    by rewrite lookup_delete_eq.
  - unfold Task_dtor, bind, load_mCoroutine. rewrite Ha. cbn. by rewrite Hf.
Qed.
End OwnershipMore.

(** ** The life of a frame *)

Section Lifecycle.
Context {E P : Type} `{PT : !PromiseType E P}.
Variable run_coroutine : addr → World P → World P.
Implicit Types (w : World P) (this other : loc) (c d : addr).
Implicit Types (mine theirs : coroutine_handle) (o : gmap loc coroutine_handle).

Lemma count_events_pos g (tr : list event) ev :
  ev ∈ tr → g ev = true → 0 < count_events g tr.
Proof.
  intros Hin Hg. apply list_elem_of_split in Hin as (tr1 & tr2 & ->).
  change (ev :: tr2) with ([ev] ++ tr2).
  rewrite !count_events_app, count_events_singleton, Hg. lia.
Qed.

(** Handles are moved and a frame is released: nothing leaks as long as
    every other owned frame still has an owner afterwards. *)
Lemma lifecycle_transfer w o' mine :
  ownership_invariant w → no_leak w → accounted w →
  (mine = None ∨ ∃ l d, mine = Some d ∧ owns w l d) →
  (∀ l c, owns w l c → mine ≠ Some c → ∃ l', o' !! l' = Some (Some c)) →
  no_leak (with_objects o' (released mine w))
  ∧ accounted (with_objects o' (released mine w)).
Proof.
  intros Hinv Hleak Hacc Hmine Hkeep. split.
  - intros c Hc.
    assert (mine ≠ Some c ∧ is_Some (frames w !! c)) as [Hne Hlive].
    { destruct mine as [d|]; [|done]. cbn in Hc.
      destruct (decide (d = c)) as [->|Hdc].
      - rewrite lookup_delete_eq in Hc. by destruct Hc.
      - rewrite lookup_delete_ne in Hc by done. split; [congruence|done]. }
    destruct (Hleak c Hlive) as [l Hl]. by apply (Hkeep l c).
  - intros c. cbn [next_frame with_objects]. rewrite next_frame_released.
    intros Hlt Hnone.
    destruct mine as [d|]; [|by apply Hacc].
    cbn in Hnone |- *. apply elem_of_app.
    destruct (decide (d = c)) as [->|Hdc].
    + right. apply list_elem_of_singleton. done.
    + left. rewrite lookup_delete_ne in Hnone by done. by apply Hacc.
Qed.

Lemma exec_op_lifecycle w (op : TaskOp) (u : unit) w' :
  ownership_invariant w → no_leak w → accounted w →
  exec_op (E:=E) op w = Normal (u, w') →
  no_leak w' ∧ accounted w'.
Proof.
  intros Hinv Hleak Hacc.
  pose proof (inv_single_owner _ Hinv) as I1.
  destruct op as [this|slot|this other|this other|this]; cbn [exec_op].
  - destruct (objects w !! this) eqn:Ho.
    + unfold Task_ctor, begin_lifetime. by rewrite Ho.
    + rewrite (Task_ctor_eq _ _ Ho). intros [= <- <-].
      apply (lifecycle_transfer w _ None); [done|done|done|by left|].
      intros l c Hl _. exists l. rewrite lookup_insert_ne; [done|].
      intros <-. unfold owns in Hl. congruence.
  - destruct (objects w !! slot) eqn:Ho.
    + unfold bind, coroutine_ramp, get_return_object, Task_ctor_handle.
      unfold bind, new_frame, begin_lifetime. cbn. by rewrite Ho.
    + unfold bind. rewrite (coroutine_ramp_eq _ _ Ho). intros [= <- <-]. split.
      * intros c. cbn. destruct (decide (next_frame w = c)) as [<-|Hne].
        -- intros _. exists slot. unfold owns. cbn. apply lookup_insert_eq.
        -- rewrite lookup_insert_ne by done. intros Hc.
           destruct (Hleak c Hc) as [l Hl]. exists l. unfold owns. cbn.
           rewrite lookup_insert_ne; [done|]. intros <-. unfold owns in Hl. congruence.
      * intros c. cbn. intros Hlt Hnone.
        destruct (decide (next_frame w = c)) as [<-|Hne];
          [by rewrite lookup_insert_eq in Hnone|].
        rewrite lookup_insert_ne in Hnone by done. apply Hacc; [lia|done].
  - destruct (objects w !! other) as [theirs|] eqn:Hother;
      [|unfold Task_move_ctor, bind, load_mCoroutine; by rewrite Hother].
    destruct (objects w !! this) eqn:Hthis.
    + unfold Task_move_ctor, bind, load_mCoroutine, begin_lifetime.
      by rewrite Hother, Hthis.
    + rewrite (Task_move_ctor_eq _ _ _ _ Hthis Hother). intros [= <- <-].
      apply (lifecycle_transfer w _ None); [done|done|done|by left|].
      intros l c Hl _. assert (l ≠ this) by (intros ->; unfold owns in Hl; congruence).
      destruct (decide (l = other)) as [->|Hlo].
      * exists this. unfold owns in Hl. rewrite Hother in Hl. injection Hl as ->.
        rewrite lookup_insert_ne by congruence. apply lookup_insert_eq.
      * exists l. by rewrite !lookup_insert_ne.
  - destruct (objects w !! this) as [mine|] eqn:Hthis;
      [|unfold Task_move_assign, bind, load_mCoroutine; by rewrite Hthis].
    destruct (objects w !! other) as [theirs|] eqn:Hother.
    + rewrite (Task_move_assign_eq _ _ _ _ _ Hthis Hother)
        by (by eapply owner_live_handle).
      intros [= <- <-].
      apply (lifecycle_transfer w _ mine); [done|done|done|by eapply owner_released|].
      intros l c Hl Hne.
      assert (l ≠ this) by (intros ->; unfold owns in Hl; congruence).
      destruct (decide (l = other)) as [->|Hlo].
      * exists this. unfold owns in Hl. rewrite Hother in Hl. injection Hl as ->.
        rewrite lookup_insert_ne by congruence. apply lookup_insert_eq.
      * exists l. by rewrite !lookup_insert_ne.
    + unfold Task_move_assign, bind at 1, load_mCoroutine at 1. rewrite Hthis.
      unfold bind at 1. rewrite release_eq by (by eapply owner_live_handle).
      unfold bind, load_mCoroutine. by rewrite objects_released, Hother.
  - destruct (objects w !! this) as [mine|] eqn:Hthis;
      [|unfold Task_dtor, bind, load_mCoroutine; by rewrite Hthis].
    rewrite (Task_dtor_eq _ _ _ Hthis) by (by eapply owner_live_handle).
    intros [= <- <-].
    apply (lifecycle_transfer w _ mine); [done|done|done|by eapply owner_released|].
    intros l c Hl Hne. exists l. rewrite lookup_delete_ne; [done|].
    intros <-. unfold owns in Hl. congruence.
Qed.

Lemma exec_ops_lifecycle (ops : list TaskOp) w (u : unit) w' :
  ownership_invariant w → no_leak w → accounted w →
  exec_ops (E:=E) ops w = Normal (u, w') →
  ownership_invariant w' ∧ no_leak w' ∧ accounted w'.
Proof.
  revert w. induction ops as [|op ops IH]; intros w Hinv Hleak Hacc; cbn [exec_ops].
  - by intros [= <- <-].
  - unfold bind. destruct (exec_op op w) as [[[] w1]| | |] eqn:Hop; try done.
    destruct (exec_op_lifecycle _ _ _ _ Hinv Hleak Hacc Hop).
    apply IH; [by eapply exec_op_invariant|done|done].
Qed.

(** X10: In every world reached by the operations on [Task] objects, a frame
    that was handed out is either alive, owned by exactly one task and
    never destroyed, or gone, owned by nobody and destroyed exactly once;
    no other frame exists; and once no [Task] object is left, no frame is
    left either. *)
Theorem frame_lifecycle (ops : list TaskOp) w :
  exec_ops (E:=E) ops empty_world = Normal (tt, w) →
  (∀ c, c < next_frame w →
     (is_Some (frames w !! c)
      ∧ (∃ l, owns w l c ∧ ∀ l', owns w l' c → l' = l)
      ∧ count_events (is_destroy_of c) (trace w) = 0)
     ∨ (frames w !! c = None
        ∧ (∀ l, ¬ owns w l c)
        ∧ count_events (is_destroy_of c) (trace w) = 1))
  ∧ (∀ c, next_frame w ≤ c →
       frames w !! c = None ∧ count_events (is_destroy_of c) (trace w) = 0)
  ∧ (objects w = ∅ → frames w = ∅).
Proof.
  intros Hreach.
  destruct (exec_ops_lifecycle ops empty_world tt w) as (Hinv & Hleak & Hacc).
  - apply empty_world_invariant.
  - intros c [f Hf]. cbn in Hf. by rewrite lookup_empty in Hf.
  - intros c Hlt. cbn in Hlt. lia.
  - done.
  - destruct Hinv as [I1 I2 I3 I4 I5]. split_and!.
    + intros c Hlt. destruct (frames w !! c) as [f|] eqn:Hf.
      * left. split_and!; [by eexists| |].
        -- destruct (Hleak c) as [l Hl]; [by eexists|]. exists l. split; [done|].
           intros l' Hl'. by apply (I1 _ _ _ Hl' Hl).
        -- apply not_destroyed_count. intros Hin. destruct (I4 c Hin). congruence.
      * right. split_and!; [done| |].
        -- intros l Hl. destruct (I2 _ _ Hl). congruence.
        -- pose proof (I5 c).
           pose proof (count_events_pos (is_destroy_of c) _ _ (Hacc c Hlt Hf)) as Hpos.
           assert (is_destroy_of c (EvDestroy c) = true) as Hd
             by (cbn; by apply bool_decide_eq_true_2).
           specialize (Hpos Hd). unfold destroyed_once in I5. lia.
    + intros c Hle. assert (frames w !! c = None) as Hnone.
      { destruct (frames w !! c) eqn:Hf; [|done].
        assert (c < next_frame w) by (apply I3; by eexists). lia. }
      split; [done|]. apply not_destroyed_count. intros Hin. destruct (I4 c Hin). lia.
    + intros Hempty. apply map_eq. intros c. rewrite lookup_empty.
      destruct (frames w !! c) as [f|] eqn:Hf; [|done].
      destruct (Hleak c) as [l Hl]; [by eexists|].
      unfold owns in Hl. rewrite Hempty, lookup_empty in Hl. done.
Qed.

(** X11: In every world reached by the operations on [Task] objects, no
    operation destroys a destroyed frame or touches a dead one: a
    constructor on free storage, and a move or a destructor on live
    objects, ends normally. *)
Theorem task_operations_defined (ops : list TaskOp) w (op : TaskOp) :
  exec_ops (E:=E) ops empty_world = Normal (tt, w) →
  match op with
  | OpDefault this | OpCoroutine this => objects w !! this = None
  | OpMoveCtor this other =>
      objects w !! this = None ∧ is_Some (objects w !! other)
  | OpMoveAssign this other =>
      is_Some (objects w !! this) ∧ is_Some (objects w !! other)
  | OpDtor this => is_Some (objects w !! this)
  end →
  is_normal (exec_op (E:=E) op w) = true
  ∧ is_normal (exec_ops (E:=E) (ops ++ [op]) empty_world) = true.
Proof.
  intros Hreach Hpre.
  assert (Hinv : ownership_invariant w).
  { eapply exec_ops_invariant; [apply empty_world_invariant|apply Hreach]. }
  pose proof (exec_op_defined w op Hinv Hpre) as Hop. split; [done|].
  assert (Happ : ∀ l1 l2 (w0 : World P),
            exec_ops (E:=E) (l1 ++ l2) w0 = (exec exec_ops l1 in exec_ops l2) w0).
  { induction l1 as [|x l1 IH]; intros l2 w0; cbn [app exec_ops]; [done|].
    unfold bind. destruct (exec_op x w0) as [[[] w1]| | |]; [apply IH|done|done|done]. }
  rewrite Happ. unfold bind at 1. rewrite Hreach. cbn [exec_ops]. unfold bind.
  by destruct (exec_op op w) as [[[] w1]| | |].
Qed.

(** Destroying frame [c] after its result was read gives the same world,
    whichever awaiter read it. *)
Lemma released_after_read rv c w :
  released (Some c) (after_read rv c w) = released (Some c) w.
Proof.
  unfold after_read. destruct rv; [|done].
  destruct (frames w !! c) as [f|]; [|done].
  unfold released, log, with_trace, with_frames, put_frame. cbn.
  by rewrite delete_insert_eq.
Qed.

(** X12: [co_await std::move(t)] inside a task, on a finished computation that
    stored [v]: the operand is moved into a temporary by
    [await_transform], the read yields [v] without suspending, and the end
    of the full expression destroys the temporary and with it the frame;
    [t] is left unbound. *)
Theorem co_await_in_task_consumes_task QT_NO_DEBUG w task temporary c f h v :
  owns w task c →
  objects w !! temporary = None →
  frames w !! c = Some f →
  done f = true →
  promise_result (promise f) = Normal v →
  (call r <- co_await_moved_task run_coroutine QT_NO_DEBUG temporary task h in
   exec Task_dtor temporary in
   ret r) w
  = Normal (Some v, with_objects (<[task := None]> (objects w)) (released (Some c) w))
  ∧ Task_isReady (E:=E) task
      (with_objects (<[task := None]> (objects w)) (released (Some c) w))
    = Normal (true, with_objects (<[task := None]> (objects w)) (released (Some c) w)).
Proof.
  intros Hown Htmp Hf Hdone Hres.
  assert (Hne : temporary ≠ task) by (intros ->; unfold owns in Hown; congruence).
  split.
  - unfold bind at 1, co_await_moved_task, bind at 1, await_transform_Task.
    rewrite (Task_move_ctor_eq _ _ _ _ Htmp Hown).
    set (w1 := with_objects _ w).
    assert (Ht1 : objects w1 !! temporary = Some (Some c)).
    { unfold w1. cbn. rewrite lookup_insert_ne by done. apply lookup_insert_eq. }
    assert (Hf1 : frames w1 !! c = Some f) by done.
    unfold Task_co_await, bind at 1, bind at 1. rewrite (load_mCoroutine_eq _ _ _ Ht1).
    cbn [ret].
    assert (Hready : await_ready (E:=E) (MkAwaiter (Some c) true) w1 = Normal (true, w1)).
    { apply await_ready_true_iff. right. by exists c, f. }
    rewrite (co_await_ready _ _ _ _ _ Hready). unfold bind at 1.
    rewrite (await_resume_finished _ _ _ _ _ Hf1), Hres. cbn [lift_outcome ret].
    destruct (after_read_keeps true c w1) as (_ & Hobj1 & _).
    assert (Ht2 : objects (after_read true c w1) !! temporary = Some (Some c))
      by (by rewrite Hobj1).
    assert (Hlive : handle_live (Some c) (after_read true c w1)).
    { unfold after_read. rewrite Hf1. eexists. apply frames_put_frame. }
    unfold bind. rewrite (Task_dtor_eq _ _ _ Ht2 Hlive), released_after_read, Hobj1.
    assert (Hobj : delete temporary (objects w1) = <[task := None]> (objects w));
      [|by rewrite Hobj].
    unfold w1. cbn [objects with_objects]. apply map_eq. intros l.
    destruct (decide (l = temporary)) as [->|Hlt].
    + rewrite lookup_delete_eq, lookup_insert_ne by done. done.
    + rewrite lookup_delete_ne by done.
      destruct (decide (l = task)) as [->|Hlk]; [by rewrite !lookup_insert_eq|].
      by rewrite !lookup_insert_ne.
  - unfold Task_isReady, bind, load_mCoroutine. cbn [objects with_objects].
    by rewrite lookup_insert_eq.
Qed.
End Lifecycle.

(** ** More on the rendezvous under every interleaving *)

Section RendezvousMore.
Import Rendezvous StepEffect.
Context {E P : Type} `{PT : !PromiseType E P}.
Variable run_coroutine : addr → World P → World P.
Variables c h : addr.
Implicit Types (w : World P) (f : Frame P) (s : state P).

Local Abbreviation step := (step (E:=E) run_coroutine c h).
Local Abbreviation terminal := (terminal (E:=E) run_coroutine c h).
Local Abbreviation invariant := (invariant c h).
Local Abbreviation step_effect := (step_effect run_coroutine c h).

(** What a step does, spelled out. *)
Lemma thread_step_effect w0 awaited s (t : thread) s' :
  h ≠ c →
  invariant w0 awaited s →
  thread_step (E:=E) run_coroutine c h t s = Some (Normal s') →
  step_effect s s'.
Proof.
  destruct s as [w pp cp]. intros Hne (evs & Htr & Habs & Hcase).
  destruct t; unfold thread_step, producer_step, consumer_step; cbn [ppc cpc shared].
  - destruct pp as [|aw| |]; [| | |done].
    + assert (resumed (MkState w PFinalSuspend cp) = false) as Hr by done.
      rewrite Hr in Hcase. destruct Hcase as [Hq [f [Hf Hflag Hlink Hfin Hres Hcont]]].
      cbn in Hf. rewrite (producer_final_suspend_eq c w f Hf). cbn [advance].
      intros [= <-]. by eapply EffFinalSuspend.
    + assert (resumed (MkState w (PAwaitSuspend aw) cp) = false) as Hr by done.
      rewrite Hr in Hcase. destruct Hcase as [Hq [f [Hf Hflag Hlink Hfin Hres Hcont]]].
      cbn in Hf, Hflag. rewrite (exchange_eq w c f true Hf). cbn [advance].
      rewrite Hflag. intros [= <-]. by eapply EffProducerExchange.
    + destruct cp;
        try (by destruct Hcase as [_ [f [_ _ _ _ Hres _]]]; specialize (Hres eq_refl)).
      destruct Hcase as [Hq [f [Hf Hflag Hlink Hfin Hres Hcont]]].
      cbn in Hf, Hlink, Hfin. unfold bind.
      rewrite (load_base_eq w c f Hf), (Hlink eq_refl).
      unfold handle_resume. rewrite Hfin. cbn [advance].
      intros [= <-]. by eapply EffResume.
  - destruct cp; [done| | |done|done].
    + assert (resumed (MkState w pp CStore) = false) as Hr by (by destruct pp).
      rewrite Hr in Hcase. destruct Hcase as [Hq [f [Hf Hflag Hlink Hfin Hres Hcont]]].
      cbn in Hf, Hres. rewrite (store_link_eq w c f (Some h) Hf). cbn [advance].
      intros [= <-]. eapply EffStore; [done|done| |done].
      cbn. intros Hpp. by specialize (Hres Hpp).
    + assert (resumed (MkState w pp CExchange) = false) as Hr by (by destruct pp).
      rewrite Hr in Hcase. destruct Hcase as [Hq [f [Hf Hflag Hlink Hfin Hres Hcont]]].
      cbn in Hf, Hflag, Hres. rewrite orb_false_r in Hflag.
      unfold bind. rewrite (exchange_eq w c f true Hf). cbn [ret advance].
      rewrite Hflag. intros [= <-].
      eapply EffConsumerExchange; [done|done| |done|].
      * cbn. intros Hpp. by specialize (Hres Hpp).
      * cbn. by destruct (producer_exchanged pp).
Qed.

(** The exchanges seen so far: one saw [false] as soon as either side has
    made its exchange, one saw [true] as soon as both have. *)
Lemma exchange_counts_reachable w0 f s :
  h ≠ c →
  frames w0 !! c = Some f →
  mResumeAwaiter (promise_base (promise f)) = false →
  finished h w0 = false →
  rtc step (initial w0 true) s →
  ∃ evs,
    trace (shared s) = trace w0 ++ evs
    ∧ count_events (is_exchange_seeing false) evs
      = (if producer_exchanged (ppc s) || consumer_exchanged (cpc s) then 1 else 0)
    ∧ count_events (is_exchange_seeing true) evs
      = (if producer_exchanged (ppc s) && consumer_exchanged (cpc s) then 1 else 0).
Proof.
  intros Hne Hf Hflag Hfin Hreach.
  pose proof (initial_invariant c h w0 f true Hf Hflag Hfin) as Hinit.
  revert s Hreach. apply rtc_ind_r.
  - exists []. by rewrite app_nil_r.
  - intros s1 s2 Hreach [t Hstep] IH.
    pose proof (invariant_reachable run_coroutine c h _ _ _ _ Hne Hinit Hreach) as Hinv.
    pose proof (thread_step_effect _ _ _ _ _ Hne Hinv Hstep) as Heff.
    destruct IH as (evs & Htr & Hfalse & Htrue).
    destruct s1 as [w pp cp]. cbn [shared ppc cpc] in *.
    destruct Heff as [f1 Hf1 Hpp ->|f1 aw Hf1 Hpp Hfl ->|f1 Hf1 Hpp Hcp ->
                      |f1 Hf1 Hcp Hpp ->|f1 Hf1 Hcp Hpp Hfl ->];
      cbn [shared ppc cpc] in *; subst.
    + exists evs. by split_and!.
    + exists (evs ++ [EvExchange c (consumer_exchanged cp)]). split_and!.
      * cbn. by rewrite Htr, app_assoc.
      * rewrite count_events_app, count_events_singleton, Hfalse.
        by destruct (consumer_exchanged cp).
      * rewrite count_events_app, count_events_singleton, Htrue.
        by destruct (consumer_exchanged cp).
    + exists (evs ++ [EvResume h]). split_and!.
      * cbn. by rewrite Htr, app_assoc.
      * by rewrite count_events_app, count_events_singleton, Hfalse.
      * by rewrite count_events_app, count_events_singleton, Htrue.
    + exists (evs ++ [EvStoreLink c (Some h)]). split_and!.
      * cbn. by rewrite Htr, app_assoc.
      * by rewrite count_events_app, count_events_singleton, Hfalse.
      * by rewrite count_events_app, count_events_singleton, Htrue.
    + exists (evs ++ [EvExchange c (producer_exchanged pp)]). split_and!.
      * cbn. by rewrite Htr, app_assoc.
      * rewrite count_events_app, count_events_singleton, Hfalse.
        by destruct (producer_exchanged pp).
      * rewrite count_events_app, count_events_singleton, Htrue.
        by destruct (producer_exchanged pp).
Qed.

(** X13: The flag goes from [false] to [true] once: whatever the interleaving,
    at most one exchange sees [false] and at most one sees [true]; one has
    seen [false] as soon as either side has made its exchange, and when
    both sides are through exactly one exchange has seen [false] (the
    first mover) and exactly one has seen [true] (the second mover). *)
Theorem one_first_mover_one_second_mover w0 f s :
  h ≠ c →
  frames w0 !! c = Some f →
  mResumeAwaiter (promise_base (promise f)) = false →
  finished h w0 = false →
  rtc step (initial w0 true) s →
  count_events (is_exchange_seeing false) (new_events w0 (shared s))
  = (if producer_exchanged (ppc s) || consumer_exchanged (cpc s) then 1 else 0)
  ∧ count_events (is_exchange_seeing true) (new_events w0 (shared s))
    = (if producer_exchanged (ppc s) && consumer_exchanged (cpc s) then 1 else 0)
  ∧ (terminal s →
       count_events (is_exchange_seeing false) (new_events w0 (shared s)) = 1
       ∧ count_events (is_exchange_seeing true) (new_events w0 (shared s)) = 1
       ∧ count_events is_exchange (new_events w0 (shared s)) = 2).
Proof.
  intros Hne Hf Hflag Hfin Hreach.
  destruct (exchange_counts_reachable w0 f s Hne Hf Hflag Hfin Hreach)
    as (evs & Htr & Hfalse & Htrue).
  rewrite (new_events_app _ _ _ Htr). split_and!; [done|done|].
  intros Hterm. destruct (terminal_pcs run_coroutine c h _ Hterm) as [Hpp Hcp].
  pose proof (initial_invariant c h w0 f true Hf Hflag Hfin) as Hinit.
  destruct (invariant_reachable run_coroutine c h _ _ _ _ Hne Hinit Hreach)
    as (_ & _ & Habs & _).
  assert (consumer_exchanged (cpc s) = true) as Hce.
  { destruct Hcp as [Hcp|[Hcp|Hcp]]; rewrite Hcp; [|done|done].
    destruct Habs as [Habs _]. by specialize (Habs Hcp). }
  rewrite Hpp, Hce in Hfalse, Htrue. cbn in Hfalse, Htrue. split_and!; [done|done|].
  assert (Hsplit : ∀ tr, count_events is_exchange tr
                         = count_events (is_exchange_seeing false) tr
                           + count_events (is_exchange_seeing true) tr).
  { induction tr as [|ev tr IHtr]; [done|].
    change (ev :: tr) with ([ev] ++ tr).
    rewrite !count_events_app, !count_events_singleton, IHtr.
    destruct ev as [| ? []| | | |]; cbn [is_exchange is_exchange_seeing];
      repeat case_bool_decide; simplify_eq; lia. }
  rewrite Hsplit. lia.
Qed.
End RendezvousMore.

(** ** The result is written before the consumer goes on *)

Section PublicationFacts.
Import Rendezvous StepEffect.
Context {E P : Type} `{PT : !PromiseType E P}.
Variable run_coroutine : addr → World P → World P.
Variables c h : addr.
Variable write : P → P.
Variable r : outcome E value_type.
Implicit Types (w : World P) (f : Frame P) (th : state P).

Lemma consumer_step_ppc th th' :
  consumer_step (E:=E) c h th = Some (Normal th') → ppc th' = ppc th.
Proof.
  unfold consumer_step, bind. destruct (cpc th); try done.
  - destruct (store_mAwaitingCoroutine c (Some h) (shared th)) as [[[] w1]| | |];
      cbn; try done. by intros [= <-].
  - destruct (mResumeAwaiter_exchange c true (shared th)) as [[old w1]| | |];
      cbn; try done. by intros [= <-].
Qed.

(** A step that does not resume the consumer keeps the result in the frame
    and keeps the frame done. *)
Lemma step_effect_keeps_result th th' :
  step_effect run_coroutine c h th th' →
  resumed th' = false →
  ∀ f, frames (shared th) !! c = Some f →
       ∃ f', frames (shared th') !! c = Some f'
             ∧ promise_result (promise f') = promise_result (promise f)
             ∧ ((ppc th ≠ PFinalSuspend → done f = true) →
                ppc th' ≠ PFinalSuspend → done f' = true).
Proof.
  intros Heff Hnr f Hf. destruct th as [w pp cp]. cbn [shared ppc cpc] in *.
  destruct Heff as [f1 Hf1 Hpp ->|f1 aw Hf1 Hpp Hfl ->|f1 Hf1 Hpp Hcp ->
                    |f1 Hf1 Hcp Hpp ->|f1 Hf1 Hcp Hpp Hfl ->];
    cbn [shared ppc cpc] in *; [| |done| |];
    rewrite Hf in Hf1; injection Hf1 as <-; subst;
    (eexists; split; [apply frames_put_frame|]); cbn [promise done];
    rewrite ?promise_result_with_base.
  - done.
  - split; [done|]. intros Hd _. by apply Hd.
  - split; [done|]. intros Hd Hp. by apply Hd.
  - split; [done|]. intros Hd Hp. by apply Hd.
Qed.

Lemma step_effect_from_unresumed th th' :
  step_effect run_coroutine c h th th' → resumed th = false.
Proof.
  destruct th as [w pp cp]. cbn [shared ppc cpc].
  intros [f1 Hf1 Hpp _|f1 aw Hf1 Hpp Hfl _|f1 Hf1 Hpp Hcp _
          |f1 Hf1 Hcp Hpp _|f1 Hf1 Hcp Hpp Hfl _];
    cbn [shared ppc cpc] in *; subst; cbn; try done; by destruct pp.
Qed.

Lemma publication_initial w0 f :
  frames w0 !! c = Some f →
  mResumeAwaiter (promise_base (promise f)) = false →
  finished h w0 = false →
  Publication.invariant c h w0 r (Publication.initial w0).
Proof.
  intros Hf Hflag Hfin. split_and!.
  - by apply (initial_invariant c h w0 f true).
  - done.
  - done.
Qed.

Lemma publication_thread_step w0 (s : Publication.state P) (t : thread) :
  h ≠ c →
  (∀ p, promise_base (write p) = promise_base p) →
  (∀ p, promise_result (write p) = r) →
  Publication.invariant c h w0 r s →
  match Publication.thread_step run_coroutine c h write t s with
  | None => True
  | Some (Normal s') => Publication.invariant c h w0 r s'
  | Some _ => False
  end.
Proof.
  intros Hne Hbase Hres. destruct s as [th wr]. intros (Hinv & Hnw & Hpub).
  cbn [Publication.threads Publication.written] in *.
  assert (Hrendezvous : ∀ t' th',
            thread_step (E:=E) run_coroutine c h t' th = Some (Normal th') →
            (wr = false → ppc th' = ppc th) →
            Publication.invariant c h w0 r (Publication.MkState th' wr)).
  { intros t' th' Hstep Hppc.
    pose proof (invariant_thread_step run_coroutine c h w0 true th t' Hne Hinv) as Hok.
    rewrite Hstep in Hok. destruct Hok as [Hinv' _].
    pose proof (thread_step_effect run_coroutine c h _ _ _ _ _ Hne Hinv Hstep) as Heff.
    split_and!; cbn [Publication.threads Publication.written].
    - done.
    - intros Hw. rewrite (Hppc Hw). by apply Hnw.
    - intros Hw Hnr.
      destruct (Hpub Hw (step_effect_from_unresumed _ _ Heff)) as (f & Hf & Hr & Hd).
      destruct (step_effect_keeps_result _ _ Heff Hnr f Hf) as (f' & Hf' & Hr' & Hd').
      exists f'. split_and!; [done|congruence|by apply Hd']. }
  destruct t; unfold Publication.thread_step, Publication.producer_step,
    Publication.consumer_step; cbn [Publication.threads Publication.written].
  - destruct wr.
    + pose proof (invariant_thread_step run_coroutine c h w0 true th Producer Hne Hinv)
        as Hok. cbn [thread_step] in Hok.
      destruct (producer_step run_coroutine c th) as [[th'| | |]|] eqn:Hps;
        cbn [option_map map_outcome]; try done.
      apply (Hrendezvous Producer th'); [done|done].
    + specialize (Hnw eq_refl). destruct th as [w pp cp]. cbn [ppc cpc shared] in *.
      subst pp. destruct Hinv as (evs & Htr & Habs & Hcase).
      assert (resumed (MkState w PFinalSuspend cp) = false) as Hr by done.
      rewrite Hr in Hcase. destruct Hcase as [Hq [f [Hf Hflag Hlink Hfin Hrs Hcont]]].
      cbn [ppc cpc shared] in *.
      rewrite (update_promise_eq w c f write Hf). cbn [map_outcome snd].
      set (f1 := MkFrame (write (promise f)) (done f)).
      split_and!; cbn [Publication.threads Publication.written].
      * exists evs. split_and!; [done|done|]. unfold resumed. cbn [ppc cpc].
        split; [done|].
        exists f1. split; cbn [ppc cpc shared].
        -- apply frames_put_frame.
        -- cbn [promise f1]. by rewrite Hbase.
        -- intros Hst. cbn [promise f1]. rewrite Hbase. by apply Hlink.
        -- rewrite <-Hfin. by apply finished_put_frame.
        -- done.
        -- done.
      * done.
      * intros _ _. exists f1. split_and!; [apply frames_put_frame|apply Hres|done].
  - pose proof (invariant_thread_step run_coroutine c h w0 true th Consumer Hne Hinv)
      as Hok. cbn [thread_step] in Hok.
    destruct (consumer_step c h th) as [[th'| | |]|] eqn:Hcs;
      cbn [option_map map_outcome]; try done.
    apply (Hrendezvous Consumer th'); [done|].
    intros _. by apply consumer_step_ppc.
Qed.

(** X14: Whatever the interleaving of the completion path (write of the result,
    [final_suspend()], exchange, resume) with the attachment of the
    consumer, no step fails, and at the moment the consumer goes on (its
    [co_await] did not suspend, or the producer is about to resume it)
    frame [c] holds the result the body stored and is at its final suspend
    point. *)
Theorem result_published_before_consumer_goes_on w0 f (s : Publication.state P) :
  h ≠ c →
  frames w0 !! c = Some f →
  mResumeAwaiter (promise_base (promise f)) = false →
  finished h w0 = false →
  (∀ p, promise_base (write p) = promise_base p) →
  (∀ p, promise_result (write p) = r) →
  rtc (Publication.step run_coroutine c h write) (Publication.initial w0) s →
  ¬ Publication.crashes run_coroutine c h write s
  ∧ (Publication.consumer_goes_on s → Publication.published c r s).
Proof.
  intros Hne Hf Hflag Hfin Hbase Hres Hreach.
  assert (Hinv : Publication.invariant c h w0 r s).
  { revert s Hreach. apply rtc_ind_r.
    - by apply (publication_initial w0 f).
    - intros s1 s2 _ [t Hstep] IH.
      pose proof (publication_thread_step w0 s1 t Hne Hbase Hres IH) as Hok.
      by rewrite Hstep in Hok. }
  split.
  - intros (t & o & Hstep & Ho).
    pose proof (publication_thread_step w0 s t Hne Hbase Hres Hinv) as Hok.
    rewrite Hstep in Hok. by destruct o.
  - destruct s as [th wr]. destruct Hinv as (Hinv & Hnw & Hpub).
    unfold Publication.consumer_goes_on, Publication.published.
    cbn [Publication.threads Publication.written] in *. intros Hgo.
    destruct Hinv as (evs & Htr & Habs & Hcase).
    assert (resumed th = false ∧ ppc th ≠ PFinalSuspend) as [Hnr Hpp].
    { destruct Hgo as [Hc|Hp].
      - assert (Hnr : resumed th = false)
          by (unfold resumed; rewrite Hc; by destruct (ppc th)).
        rewrite Hnr in Hcase. destruct Hcase as [_ [f0 [_ _ _ _ _ Hcont]]].
        specialize (Hcont Hc). split; [done|]. by rewrite Hcont.
      - split; [unfold resumed|]; by rewrite Hp. }
    assert (wr = true) as ->.
    { destruct wr; [done|]. by specialize (Hnw eq_refl). }
    destruct (Hpub eq_refl Hnr) as (f' & Hf' & Hr' & Hd).
    exists f'. split_and!; [done|done|by apply Hd].
Qed.
End PublicationFacts.

(** ** Runs of a schedule are runs of the interleaving semantics *)

Section Schedules.
Context {E P : Type} `{PT : !PromiseType E P}.
Variable run_coroutine : addr → World P → World P.
Variables c h : addr.
Variable write : P → P.

Lemma run_schedule_reachable (sched : list Rendezvous.thread) (s s' : Rendezvous.state P) :
  Rendezvous.run_schedule (E:=E) run_coroutine c h sched s = Normal s' →
  rtc (Rendezvous.step (E:=E) run_coroutine c h) s s'.
Proof.
  revert s. induction sched as [|t sched IH]; intros s; cbn [Rendezvous.run_schedule].
  - by intros [= <-].
  - destruct (Rendezvous.thread_step run_coroutine c h t s) as [[s1| | |]|] eqn:Hstep;
      try done; [|by apply IH].
    intros Hrun. eapply rtc_l; [by exists t|by apply IH].
Qed.

Lemma publication_schedule_reachable (sched : list Rendezvous.thread)
    (s s' : Publication.state P) :
  Publication.run_schedule (E:=E) run_coroutine c h write sched s = Normal s' →
  rtc (Publication.step (E:=E) run_coroutine c h write) s s'.
Proof.
  revert s. induction sched as [|t sched IH]; intros s; cbn [Publication.run_schedule].
  - by intros [= <-].
  - destruct (Publication.thread_step run_coroutine c h write t s) as [[s1| | |]|]
      eqn:Hstep; try done; [|by apply IH].
    intros Hrun. eapply rtc_l; [by exists t|by apply IH].
Qed.
End Schedules.

(** ** The further properties at sample instances *)

Lemma completion_then_await_witness :
  (frames Sample.started !! 0 = Some Sample.fresh_frame
   ∧ objects Sample.started !! 0 = Some (Some 0)
   ∧ mResumeAwaiter (promise_base (PromiseType:=Sample.PT)
                       (MoreSamples.returns_5 (promise Sample.fresh_frame))) = false)
  ∧ ∃ w1,
      coroutine_end (PT:=Sample.PT) Sample.idle 0 MoreSamples.returns_5 Sample.started
      = Normal (tt, w1)
      ∧ co_await (PT:=Sample.PT) Sample.idle false (MkAwaiter (Some 0) false) (Some 7) w1
        = Normal (Some 5, w1)
      ∧ co_await (PT:=Sample.PT) Sample.idle false (MkAwaiter (Some 0) true) (Some 7) w1
        = Normal (Some 5, after_read (PT:=Sample.PT) true 0 w1).
Proof.
  assert (H1 : frames Sample.started !! 0 = Some Sample.fresh_frame) by reflexivity.
  assert (H2 : objects Sample.started !! 0 = Some (Some 0)) by reflexivity.
  assert (H3 : mResumeAwaiter (promise_base (PromiseType:=Sample.PT)
                 (MoreSamples.returns_5 (promise Sample.fresh_frame))) = false)
    by reflexivity.
  split; [done|].
  destruct (completion_then_await (PT:=Sample.PT) Sample.idle Sample.started 0
              Sample.fresh_frame 0 MoreSamples.returns_5 H1 H2 H3)
    as (w1 & Hend & _ & _ & Hco).
  exists w1. split; [exact Hend|]. split.
  - exact (proj1 (Hco false false (Some 7))).
  - exact (proj1 (Hco false true (Some 7))).
Defined.

Lemma completion_resumes_attached_consumer_witness :
  ((frames Sample.started !! 0 = Some Sample.fresh_frame
    ∧ mResumeAwaiter (promise_base (PromiseType:=Sample.PT) (promise Sample.fresh_frame))
      = false
    ∧ 7 ≠ 0
    ∧ finished 7 Sample.started = false
    ∧ (∀ b p, MoreSamples.returns_5 (promise_with_base (PromiseType:=Sample.PT) b p)
              = promise_with_base (PromiseType:=Sample.PT) b (MoreSamples.returns_5 p)))
   ∧ ∃ w2 w3,
       setAwaitingCoroutine (PT:=Sample.PT) (E:=nat) 0 (Some 7) Sample.started
       = Normal (true, w2)
       ∧ coroutine_end (PT:=Sample.PT) Sample.idle 0 MoreSamples.returns_5 w2
         = Normal (tt, with_trace [EvStoreLink 0 (Some 7); EvExchange 0 false;
                                   EvExchange 0 true; EvResume 7] (Sample.idle 7 w3))
       ∧ await_resume (PT:=Sample.PT) false (MkAwaiter (Some 0) false) w3 = Normal (5, w3)
       ∧ await_resume (PT:=Sample.PT) false (MkAwaiter (Some 0) true) w3
         = Normal (5, after_read (PT:=Sample.PT) true 0 w3))
  ∧ ((frames MoreSamples.started_void !! 0 = Some MoreSamples.fresh_void_frame
      ∧ mResumeAwaiter (promise_base (PromiseType:=TaskPromiseVoid_PromiseType)
                          (promise MoreSamples.fresh_void_frame)) = false
      ∧ 7 ≠ 0
      ∧ finished 7 MoreSamples.started_void = false
      ∧ (∀ b p, MoreSamples.returns_void
                  (promise_with_base (PromiseType:=TaskPromiseVoid_PromiseType) b p)
                = promise_with_base (PromiseType:=TaskPromiseVoid_PromiseType) b
                    (MoreSamples.returns_void p)))
     ∧ ∃ w2 w3,
         setAwaitingCoroutine (PT:=TaskPromiseVoid_PromiseType) (E:=nat) 0 (Some 7)
           MoreSamples.started_void
         = Normal (true, w2)
         ∧ coroutine_end (PT:=TaskPromiseVoid_PromiseType) MoreSamples.idle_void 0
             MoreSamples.returns_void w2
           = Normal (tt, with_trace [EvStoreLink 0 (Some 7); EvExchange 0 false;
                                     EvExchange 0 true; EvResume 7]
                           (MoreSamples.idle_void 7 w3))
         ∧ await_resume (PT:=TaskPromiseVoid_PromiseType) false
             (MkAwaiter (Some 0) false) w3
           = Normal (tt, w3)).
Proof.
  split.
  - assert (H1 : frames Sample.started !! 0 = Some Sample.fresh_frame) by reflexivity.
    assert (H2 : mResumeAwaiter (promise_base (PromiseType:=Sample.PT)
                                   (promise Sample.fresh_frame)) = false) by reflexivity.
    assert (H3 : 7 ≠ 0) by lia.
    assert (H4 : finished 7 Sample.started = false) by reflexivity.
    assert (H5 : ∀ b p, MoreSamples.returns_5 (promise_with_base (PromiseType:=Sample.PT) b p)
                        = promise_with_base (PromiseType:=Sample.PT) b
                            (MoreSamples.returns_5 p)) by reflexivity.
    split; [done|].
    destruct (completion_resumes_attached_consumer (PT:=Sample.PT) Sample.idle
                Sample.started 0 Sample.fresh_frame 7 MoreSamples.returns_5
                H1 H2 H3 H4 H5) as (w2 & w3 & Hset & Hend & _ & Hres & _).
    exists w2, w3.
    split_and!; [exact Hset|exact Hend|exact (Hres false false)|exact (Hres false true)].
  - assert (H1 : frames MoreSamples.started_void !! 0 = Some MoreSamples.fresh_void_frame)
      by reflexivity.
    assert (H2 : mResumeAwaiter (promise_base (PromiseType:=TaskPromiseVoid_PromiseType)
                                   (promise MoreSamples.fresh_void_frame)) = false)
      by reflexivity.
    assert (H3 : 7 ≠ 0) by lia.
    assert (H4 : finished 7 MoreSamples.started_void = false) by reflexivity.
    assert (H5 : ∀ b p, MoreSamples.returns_void
                          (promise_with_base (PromiseType:=TaskPromiseVoid_PromiseType) b p)
                        = promise_with_base (PromiseType:=TaskPromiseVoid_PromiseType) b
                            (MoreSamples.returns_void p)) by reflexivity.
    split; [done|].
    destruct (completion_resumes_attached_consumer (PT:=TaskPromiseVoid_PromiseType)
                MoreSamples.idle_void MoreSamples.started_void 0
                MoreSamples.fresh_void_frame 7 MoreSamples.returns_void
                H1 H2 H3 H4 H5) as (w2 & w3 & Hset & Hend & _ & Hres & Hsame & _).
    exists w2, w3.
    split_and!; [exact Hset|exact Hend|].
    rewrite (Hres false false), Hsame. reflexivity.
Defined.

Lemma co_await_not_ready_witness :
  (await_ready (E:=nat) (MkAwaiter (Some 0) false) Sample.started
   = Normal (false, Sample.started)
   ∧ frames (Sample.idle 0 Sample.started) !! 0 = Some Sample.fresh_frame)
  ∧ ∃ w2, co_await (PT:=Sample.PT) Sample.idle false (MkAwaiter (Some 0) false) (Some 7)
            Sample.started
          = Normal (None, w2).
Proof.
  assert (H1 : await_ready (E:=nat) (MkAwaiter (Some 0) false) Sample.started
               = Normal (false, Sample.started)) by reflexivity.
  assert (H2 : frames (Sample.idle 0 Sample.started) !! 0 = Some Sample.fresh_frame)
    by reflexivity.
  split; [done|].
  destruct (co_await_not_ready (PT:=Sample.PT) Sample.idle false Sample.started 0 false
              (Some 7) Sample.fresh_frame H1 H2) as (w2 & _ & Hco & _).
  exists w2. exact Hco.
Defined.

Lemma await_suspend_needs_precheck_witness :
  await_ready (E:=nat) (MkAwaiter (Some 0) false) Sample.completed
  = Normal (true, Sample.completed)
  ∧ await_suspend (PT:=Sample.PT) Sample.idle (MkAwaiter (Some 0) false) (Some 7)
      Sample.completed
    = Undefined.
Proof.
  assert (H1 : await_ready (E:=nat) (MkAwaiter (Some 0) false) Sample.completed
               = Normal (true, Sample.completed)) by reflexivity.
  split; [done|].
  exact (await_suspend_needs_precheck (PT:=Sample.PT) Sample.idle Sample.completed
           (MkAwaiter (Some 0) false) (Some 7) H1).
Defined.

Lemma awaiter_outlives_task_witness :
  (owns Sample.completed 0 0 ∧ frames Sample.completed !! 0 = Some Sample.finished_frame)
  ∧ ∃ w1,
      (call aw <- Task_co_await (E:=nat) 0 false in exec Task_dtor 0 in ret aw)
        Sample.completed
      = Normal (MkAwaiter (Some 0) false, w1)
      ∧ await_resume (PT:=Sample.PT) false (MkAwaiter (Some 0) false) w1 = Undefined.
Proof.
  assert (H1 : owns Sample.completed 0 0) by reflexivity.
  assert (H2 : frames Sample.completed !! 0 = Some Sample.finished_frame) by reflexivity.
  split; [done|].
  destruct (awaiter_outlives_task (PT:=Sample.PT) false Sample.completed 0 0
              Sample.finished_frame false H1 H2) as (w1 & Hrun & _ & _ & Hres).
  exists w1. split; [exact Hrun|exact Hres].
Defined.

Lemma second_awaiter_reads_empty_cell_witness :
  (await_ready (E:=nat) (MkAwaiter (Some 0) false) Sample.attached
   = Normal (false, Sample.attached)
   ∧ frames (Sample.idle 0 Sample.attached) !! 0 = Some Sample.attached_frame
   ∧ mResumeAwaiter (tp_base (promise Sample.attached_frame)) = true
   ∧ mValue (promise Sample.attached_frame) = monostate)
  ∧ co_await (PT:=Sample.PT) Sample.idle false (MkAwaiter (Some 0) false) (Some 9)
      Sample.attached
    = Thrown Sample.payload_bad_variant_access.
Proof.
  assert (H1 : await_ready (E:=nat) (MkAwaiter (Some 0) false) Sample.attached
               = Normal (false, Sample.attached)) by reflexivity.
  assert (H2 : frames (Sample.idle 0 Sample.attached) !! 0 = Some Sample.attached_frame)
    by reflexivity.
  assert (H3 : mResumeAwaiter (tp_base (promise Sample.attached_frame)) = true)
    by reflexivity.
  assert (H4 : mValue (promise Sample.attached_frame) = monostate) by reflexivity.
  split; [done|].
  by destruct (second_awaiter_reads_empty_cell Sample.payload_bad_variant_access
                 Sample.idle false Sample.attached 0 false (Some 9) Sample.attached_frame
                 H1 H2 H3 H4) as [Hco _].
Defined.

Lemma second_awaiter_of_void_task_goes_on_witness :
  (await_ready (E:=nat) (MkAwaiter (Some 0) false) MoreSamples.attached_void
   = Normal (false, MoreSamples.attached_void)
   ∧ frames (MoreSamples.idle_void 0 MoreSamples.attached_void) !! 0
     = Some MoreSamples.attached_void_frame
   ∧ mResumeAwaiter (vp_base (promise MoreSamples.attached_void_frame)) = true
   ∧ mException (promise MoreSamples.attached_void_frame) = None
   ∧ done MoreSamples.attached_void_frame = false)
  ∧ ∃ w2, co_await (PT:=TaskPromiseVoid_PromiseType) MoreSamples.idle_void false
            (MkAwaiter (Some 0) false) (Some 9) MoreSamples.attached_void
          = Normal (Some tt, w2).
Proof.
  assert (H1 : await_ready (E:=nat) (MkAwaiter (Some 0) false) MoreSamples.attached_void
               = Normal (false, MoreSamples.attached_void)) by reflexivity.
  assert (H2 : frames (MoreSamples.idle_void 0 MoreSamples.attached_void) !! 0
               = Some MoreSamples.attached_void_frame) by reflexivity.
  assert (H3 : mResumeAwaiter (vp_base (promise MoreSamples.attached_void_frame)) = true)
    by reflexivity.
  assert (H4 : mException (promise MoreSamples.attached_void_frame) = None)
    by reflexivity.
  assert (H5 : done MoreSamples.attached_void_frame = false) by reflexivity.
  split; [done|].
  destruct (second_awaiter_of_void_task_goes_on MoreSamples.idle_void false
              MoreSamples.attached_void 0 false (Some 9) MoreSamples.attached_void_frame
              H1 H2 H3 H4 H5) as (w2 & Hco & _).
  exists w2. exact Hco.
Defined.

Lemma move_away_and_back_witness :
  (objects Sample.started !! 0 = Some (Some 0) ∧ objects Sample.started !! 2 = None)
  ∧ (exec Task_move_ctor (E:=nat) 2 0 in
     exec Task_move_assign 0 2 in
     Task_dtor 2) Sample.started
    = Normal (tt, Sample.started).
Proof.
  assert (H1 : objects Sample.started !! 0 = Some (Some 0)) by reflexivity.
  assert (H2 : objects Sample.started !! 2 = None) by reflexivity.
  split; [done|].
  exact (move_away_and_back (E:=nat) Sample.started 0 2 (Some 0) H1 H2).
Defined.

Lemma shared_handle_double_destroy_witness :
  (objects MoreSamples.two_owners !! 0 = Some (Some 0)
   ∧ objects MoreSamples.two_owners !! 1 = Some (Some 0)
   ∧ 0 ≠ 1)
  ∧ (exec Task_dtor (E:=nat) 0 in Task_dtor 1) MoreSamples.two_owners = Undefined.
Proof.
  assert (H1 : objects MoreSamples.two_owners !! 0 = Some (Some 0)) by reflexivity.
  assert (H2 : objects MoreSamples.two_owners !! 1 = Some (Some 0)) by reflexivity.
  assert (H3 : 0 ≠ 1) by lia.
  split; [done|].
  exact (shared_handle_double_destroy (E:=nat) MoreSamples.two_owners 0 1 0 H1 H2 H3).
Defined.

Lemma frame_lifecycle_witness :
  exec_ops (PT:=Sample.PT) Sample.program empty_world = Normal (tt, Sample.started)
  ∧ (objects Sample.started = ∅ → frames Sample.started = ∅)
  ∧ (∀ c, next_frame Sample.started ≤ c → frames Sample.started !! c = None).
Proof.
  assert (H1 : exec_ops (PT:=Sample.PT) Sample.program empty_world
               = Normal (tt, Sample.started)) by reflexivity.
  split; [done|].
  destruct (frame_lifecycle (PT:=Sample.PT) Sample.program Sample.started H1)
    as (_ & Hout & Hall).
  split; [exact Hall|]. intros c Hc. by destruct (Hout c Hc).
Defined.

Lemma task_operations_defined_witness :
  (exec_ops (PT:=Sample.PT) Sample.program empty_world = Normal (tt, Sample.started)
   ∧ is_Some (objects Sample.started !! 0))
  ∧ is_normal (exec_op (PT:=Sample.PT) (OpDtor 0) Sample.started) = true.
Proof.
  assert (H1 : exec_ops (PT:=Sample.PT) Sample.program empty_world
               = Normal (tt, Sample.started)) by reflexivity.
  assert (H2 : is_Some (objects Sample.started !! 0)) by (by eexists).
  split; [done|].
  by destruct (task_operations_defined (PT:=Sample.PT) Sample.program Sample.started
                 (OpDtor 0) H1 H2) as [Hop _].
Defined.

Lemma co_await_in_task_consumes_task_witness :
  (owns Sample.completed 0 0
   ∧ objects Sample.completed !! 2 = None
   ∧ frames Sample.completed !! 0 = Some Sample.finished_frame
   ∧ done Sample.finished_frame = true
   ∧ promise_result (PromiseType:=Sample.PT) (promise Sample.finished_frame) = Normal 5)
  ∧ (call r <- co_await_moved_task (PT:=Sample.PT) Sample.idle false 2 0 (Some 7) in
     exec Task_dtor 2 in
     ret r) Sample.completed
    = Normal (Some 5, with_objects (<[0 := None]> (objects Sample.completed))
                        (released (Some 0) Sample.completed)).
Proof.
  assert (H1 : owns Sample.completed 0 0) by reflexivity.
  assert (H2 : objects Sample.completed !! 2 = None) by reflexivity.
  assert (H3 : frames Sample.completed !! 0 = Some Sample.finished_frame) by reflexivity.
  assert (H4 : done Sample.finished_frame = true) by reflexivity.
  assert (H5 : promise_result (PromiseType:=Sample.PT) (promise Sample.finished_frame)
               = Normal 5) by reflexivity.
  split; [done|].
  by destruct (co_await_in_task_consumes_task (PT:=Sample.PT) Sample.idle false
                 Sample.completed 0 2 0 Sample.finished_frame (Some 7) 5
                 H1 H2 H3 H4 H5) as [Hrun _].
Defined.

Lemma one_first_mover_one_second_mover_witness :
  (7 ≠ 0
   ∧ frames Sample.started !! 0 = Some Sample.fresh_frame
   ∧ mResumeAwaiter (promise_base (PromiseType:=Sample.PT) (promise Sample.fresh_frame))
     = false
   ∧ finished 7 Sample.started = false
   ∧ rtc (Rendezvous.step (PT:=Sample.PT) Sample.idle 0 7)
       (Rendezvous.initial Sample.started true) MoreSamples.consumer_first_end)
  ∧ count_events (is_exchange_seeing false)
      (new_events Sample.started (Rendezvous.shared MoreSamples.consumer_first_end)) = 1
  ∧ count_events (is_exchange_seeing true)
      (new_events Sample.started (Rendezvous.shared MoreSamples.consumer_first_end)) = 1.
Proof.
  assert (H1 : 7 ≠ 0) by lia.
  assert (H2 : frames Sample.started !! 0 = Some Sample.fresh_frame) by reflexivity.
  assert (H3 : mResumeAwaiter (promise_base (PromiseType:=Sample.PT)
                                 (promise Sample.fresh_frame)) = false) by reflexivity.
  assert (H4 : finished 7 Sample.started = false) by reflexivity.
  assert (H5 : rtc (Rendezvous.step (PT:=Sample.PT) Sample.idle 0 7)
                 (Rendezvous.initial Sample.started true) MoreSamples.consumer_first_end).
  { apply (run_schedule_reachable (PT:=Sample.PT) Sample.idle 0 7
             MoreSamples.consumer_first_schedule). reflexivity. }
  split; [done|].
  destruct (one_first_mover_one_second_mover (PT:=Sample.PT) Sample.idle 0 7
              Sample.started Sample.fresh_frame MoreSamples.consumer_first_end
              H1 H2 H3 H4 H5) as (Hfalse & Htrue & _).
  split; [exact Hfalse|exact Htrue].
Defined.

Lemma result_published_before_consumer_goes_on_witness :
  (7 ≠ 0
   ∧ frames Sample.started !! 0 = Some Sample.fresh_frame
   ∧ mResumeAwaiter (promise_base (PromiseType:=Sample.PT) (promise Sample.fresh_frame))
     = false
   ∧ finished 7 Sample.started = false
   ∧ (∀ p, promise_base (PromiseType:=Sample.PT) (MoreSamples.returns_5 p)
           = promise_base (PromiseType:=Sample.PT) p)
   ∧ (∀ p, promise_result (PromiseType:=Sample.PT) (MoreSamples.returns_5 p) = Normal 5)
   ∧ rtc (Publication.step (PT:=Sample.PT) Sample.idle 0 7 MoreSamples.returns_5)
       (Publication.initial Sample.started) MoreSamples.producer_first_end
   ∧ Publication.consumer_goes_on MoreSamples.producer_first_end)
  ∧ Publication.published (PT:=Sample.PT) 0 (Normal 5) MoreSamples.producer_first_end.
Proof.
  assert (H1 : 7 ≠ 0) by lia.
  assert (H2 : frames Sample.started !! 0 = Some Sample.fresh_frame) by reflexivity.
  assert (H3 : mResumeAwaiter (promise_base (PromiseType:=Sample.PT)
                                 (promise Sample.fresh_frame)) = false) by reflexivity.
  assert (H4 : finished 7 Sample.started = false) by reflexivity.
  assert (H5 : ∀ p, promise_base (PromiseType:=Sample.PT) (MoreSamples.returns_5 p)
                    = promise_base (PromiseType:=Sample.PT) p) by reflexivity.
  assert (H6 : ∀ p, promise_result (PromiseType:=Sample.PT) (MoreSamples.returns_5 p)
                    = Normal 5) by reflexivity.
  assert (H7 : rtc (Publication.step (PT:=Sample.PT) Sample.idle 0 7 MoreSamples.returns_5)
                 (Publication.initial Sample.started) MoreSamples.producer_first_end).
  { apply (publication_schedule_reachable (PT:=Sample.PT) Sample.idle 0 7
             MoreSamples.returns_5 MoreSamples.producer_first_schedule). reflexivity. }
  assert (H8 : Publication.consumer_goes_on MoreSamples.producer_first_end)
    by (left; reflexivity).
  split; [done|].
  destruct (result_published_before_consumer_goes_on (PT:=Sample.PT) Sample.idle 0 7
              MoreSamples.returns_5 (Normal 5) Sample.started Sample.fresh_frame
              MoreSamples.producer_first_end H1 H2 H3 H4 H5 H6 H7) as [_ Hpub].
  exact (Hpub H8).
Defined.

(** ** A moved-from task *)

Section MovedFrom.
Context {E P : Type} `{PT : !PromiseType E P}.

(** X15: After a move construction the source reports ready although the
    computation is still running; the new owner reports the truth. *)
Theorem moved_from_task_reports_ready (w : World P) src target c f :
  owns w src c →
  objects w !! target = None →
  frames w !! c = Some f →
  done f = false →
  ∃ w1,
    Task_move_ctor (E:=E) target src w = Normal (tt, w1)
    ∧ Task_isReady (E:=E) src w1 = Normal (true, w1)
    ∧ Task_isReady (E:=E) target w1 = Normal (false, w1).
Proof.
  intros Hown Htarget Hf Hdone.
  assert (Hne : target ≠ src) by (intros ->; unfold owns in Hown; congruence).
  rewrite (Task_move_ctor_eq _ _ _ _ Htarget Hown).
  eexists. split; [reflexivity|].
  unfold Task_isReady, bind, load_mCoroutine. cbn [objects with_objects].
  split.
  - by rewrite lookup_insert_eq.
  - rewrite lookup_insert_ne, lookup_insert_eq by done.
    cbn [handle_bool negb]. unfold handle_done. cbn [frames with_objects].
    by rewrite Hf, Hdone.
Qed.
End MovedFrom.

Lemma moved_from_task_reports_ready_witness :
  (owns Sample.started 0 0
   ∧ objects Sample.started !! 2 = None
   ∧ frames Sample.started !! 0 = Some Sample.fresh_frame
   ∧ done Sample.fresh_frame = false)
  ∧ ∃ w1,
      Task_move_ctor (E:=nat) 2 0 Sample.started = Normal (tt, w1)
      ∧ Task_isReady (E:=nat) 0 w1 = Normal (true, w1)
      ∧ Task_isReady (E:=nat) 2 w1 = Normal (false, w1).
Proof.
  assert (H1 : owns Sample.started 0 0) by reflexivity.
  assert (H2 : objects Sample.started !! 2 = None) by reflexivity.
  assert (H3 : frames Sample.started !! 0 = Some Sample.fresh_frame) by reflexivity.
  assert (H4 : done Sample.fresh_frame = false) by reflexivity.
  split; [done|].
  exact (moved_from_task_reports_ready (E:=nat) Sample.started 0 2 0 Sample.fresh_frame
           H1 H2 H3 H4).
Defined.
